(** * Upload engine of the renter daemon: worker/upload.go

    A shallow embedding of the upload manager, the per-host uploaders and the
    slab-upload state machine of [worker/upload.go], together with the
    properties of that code that the specification states.

    Conventions.
    - Go's [uint64] counters are integers in [[0, 2^64)]; every increment,
      decrement and subtraction is written with its wrap-around ([u64]).
    - [types.PublicKey], [types.FileContractID] and [types.Hash256] are 32-byte
      arrays; they are read as natural numbers, the all-zero array being [0].
    - [time.Time] is a number of nanoseconds, [time.Duration] a signed 64-bit
      number of nanoseconds.
    - A method that mutates its receiver returns the new receiver.
    - Go's [range] over a map visits the keys in an order the runtime picks;
      the functions that range over a map take that order as an argument. *)

From Stdlib Require Import ZArith List Bool Lia Floats Uint63.
From stdpp Require Import base option list gmap fin_maps fin_sets strings.

Local Open Scope Z_scope.

(** ** Machine arithmetic *)

Definition u64 (z : Z) : Z := z mod 2 ^ 64.

Definition int64 (z : Z) : Z := (z + 2 ^ 63) mod 2 ^ 64 - 2 ^ 63.

Definition maxDuration : Z := 2 ^ 63 - 1.
Definition minDuration : Z := - 2 ^ 63.

(** [t.Sub(u)]: the difference, saturated to the range of a [Duration]. *)
Definition time_Sub (t u : Z) : Z := Z.max minDuration (Z.min maxDuration (t - u)).

(** [time.Since(t)] when the clock reads [now]. *)
Definition time_Since (now t : Z) : Z := time_Sub now t.

(** [d.Milliseconds()]: Go's integer division truncates towards zero. *)
Definition Milliseconds (d : Z) : Z := Z.quot d 1000000.

Definition time_Second : Z := 1000000000.
Definition time_Hour : Z := 3600 * time_Second.

Definition statsRecomputeMinInterval : Z := 3 * time_Second.

(** [rhpv2.SectorSize], 4 MiB. *)
Definition SectorSize : Z := 4194304.

(** [float64(n)] for an integer [n] (exact below 2^53, rounded above). *)
Definition float64_of_int (n : Z) : float :=
  if n <? 0 then PrimFloat.opp (PrimFloat.of_uint63 (Uint63.of_Z (- n)))
  else PrimFloat.of_uint63 (Uint63.of_Z n).

(** Integer division as Go executes it: a zero divisor is a run-time panic. *)
Definition go_div (a b : Z) : option Z :=
  if b =? 0 then None else Some (Z.quot a b).

(** ** Identifiers and errors *)

Abbreviation PublicKey := N (only parsing).
Abbreviation FileContractID := N (only parsing).
Abbreviation Hash256 := N (only parsing).
Abbreviation UploadID := N (only parsing).

Definition zeroHash : Hash256 := 0%N.
Definition zeroFCID : FileContractID := 0%N.

Definition HostErrorSet := gmap N string.

Inductive error :=
| errNoCandidateUploader
| errNotEnoughContracts (have want : Z)
| errHost (msg : string)
| errSlabUpload (launched uploaded remaining inflight uploaders errors : Z)
                (errs : gmap N string).

(** ** Rolling statistics

    [stats.DataPoints] lives in the package [stats], which is not part of the
    files at hand: its operations are an interface here. *)
Class DataPointsAPI (DP : Type) := {
  stats_Default : DP;
  stats_NoDecay : DP;
  stats_P90 : DP → float;
  stats_Average : DP → float;
  stats_Track : float → DP → DP;
  stats_Recompute : DP → DP
}.

(** ** Requests and uploaders *)

(** [sectorUploadReq]. The field [sector] points to the [sectorUpload] of the
    slab; a sector is identified by its index in the slab, which is the key
    under which [slabUpload.sectors] holds it. *)
Record sectorUploadReq := mkReq {
  req_lockPriority : Z;
  req_overdrive : bool;
  req_sector : nat;
  req_uploadID : UploadID;
  req_fcid : FileContractID;
  req_hk : PublicKey
}.

(** [sectorUploadResp]: [resp_err = None] is Go's [err == nil]. *)
Record sectorUploadResp := mkResp {
  resp_req : sectorUploadReq;
  resp_root : Hash256;
  resp_err : option string
}.

(** The session handle [hp.newHostV3(fcid, hk, siamuxAddr)]. *)
Record hostV3 := mkHost {
  host_fcid : FileContractID;
  host_hk : PublicKey;
  host_siamuxAddr : string
}.

(** [api.ContractMetadata], the fields the upload code reads. *)
Record ContractMetadata := mkContract {
  c_ID : FileContractID;
  c_HostKey : PublicKey;
  c_SiamuxAddr : string;
  c_WindowEnd : Z;
  c_RenewedFrom : FileContractID
}.

Section Uploader.
Context {DP : Type} `{!DataPointsAPI DP}.

Record uploader := mkUploader {
  u_hk : PublicKey;
  u_siamuxAddr : string;
  u_bh : Z;
  u_endHeight : Z;
  u_fcid : FileContractID;
  u_host : hostV3;
  u_queue : list sectorUploadReq;
  u_consecutiveFailures : Z;
  u_lastRecompute : Z;
  u_statsSectorUploadEstimateInMS : DP;
  u_statsSectorUploadSpeedBytesPerMS : DP
}.

Definition set_queue (q : list sectorUploadReq) (u : uploader) : uploader :=
  mkUploader (u_hk u) (u_siamuxAddr u) (u_bh u) (u_endHeight u) (u_fcid u)
    (u_host u) q (u_consecutiveFailures u) (u_lastRecompute u)
    (u_statsSectorUploadEstimateInMS u) (u_statsSectorUploadSpeedBytesPerMS u).

(** [mgr.newUploader(b, hp, c, bh)] *)
Definition newUploader (c : ContractMetadata) (bh : Z) : uploader :=
  mkUploader (c_HostKey c) (c_SiamuxAddr c) bh (c_WindowEnd c) (c_ID c)
    (mkHost (c_ID c) (c_HostKey c) (c_SiamuxAddr c)) [] 0 0
    stats_Default stats_NoDecay.

Definition healthy (u : uploader) : bool := u_consecutiveFailures u =? 0.

Definition blockHeight (u : uploader) : Z := u_bh u.

Definition contractID (u : uploader) : FileContractID := u_fcid u.

(** [u.enqueue(req)]: decorates the request with the uploader's contract and
    host key and appends it to the queue. The decorated request is returned
    as well, since the caller reads [req.hk] afterwards. *)
Definition enqueue (req : sectorUploadReq) (u : uploader) : sectorUploadReq * uploader :=
  let req' := mkReq (req_lockPriority req) (req_overdrive req) (req_sector req)
                (req_uploadID req) (contractID u) (u_hk u) in
  (req', set_queue (u_queue u ++ [req']) u).

(** [u.pop()] *)
Definition pop (u : uploader) : option sectorUploadReq * uploader :=
  match u_queue u with
  | j :: q => (Some j, set_queue q u)
  | [] => (None, u)
  end.

(** [u.estimate()] *)
Definition estimate (u : uploader) : float :=
  let estimateP90 := stats_P90 (u_statsSectorUploadEstimateInMS u) in
  let estimateP90 := if PrimFloat.eqb estimateP90 0%float then 1%float else estimateP90 in
  let numSectors := float64_of_int (Z.of_nat (length (u_queue u)) + 1) in
  PrimFloat.mul numSectors estimateP90.

(** [u.renew(hp, c, bh)] *)
Definition renew (c : ContractMetadata) (bh : Z) (u : uploader) : uploader :=
  mkUploader (u_hk u) (c_SiamuxAddr c) bh (c_WindowEnd c) (c_ID c)
    (mkHost (c_ID c) (c_HostKey c) (c_SiamuxAddr c)) (u_queue u)
    (u_consecutiveFailures u) (u_lastRecompute u)
    (u_statsSectorUploadEstimateInMS u) (u_statsSectorUploadSpeedBytesPerMS u).

(** [u.updateBlockHeight(bh)] *)
Definition updateBlockHeight (bh : Z) (u : uploader) : uploader :=
  mkUploader (u_hk u) (u_siamuxAddr u) bh (u_endHeight u) (u_fcid u)
    (u_host u) (u_queue u) (u_consecutiveFailures u) (u_lastRecompute u)
    (u_statsSectorUploadEstimateInMS u) (u_statsSectorUploadSpeedBytesPerMS u).

(** [u.tryRecomputeStats()] when the clock reads [now]. *)
Definition tryRecomputeStats (now : Z) (u : uploader) : uploader :=
  if time_Since now (u_lastRecompute u) <? statsRecomputeMinInterval then u
  else
    mkUploader (u_hk u) (u_siamuxAddr u) (u_bh u) (u_endHeight u) (u_fcid u)
      (u_host u) (u_queue u) (u_consecutiveFailures u) now
      (stats_Recompute (u_statsSectorUploadEstimateInMS u))
      (stats_Recompute (u_statsSectorUploadSpeedBytesPerMS u)).

(** [u.trackSectorUpload(err, d)]. [None] is the run-time panic of the integer
    division [rhpv2.SectorSize / ms] when [ms] is zero. *)
Definition trackSectorUpload (err : option string) (d : Z) (u : uploader) : option uploader :=
  match err with
  | Some _ =>
      Some (mkUploader (u_hk u) (u_siamuxAddr u) (u_bh u) (u_endHeight u) (u_fcid u)
              (u_host u) (u_queue u) (u64 (u_consecutiveFailures u + 1)) (u_lastRecompute u)
              (stats_Track (float64_of_int (Milliseconds time_Hour))
                 (u_statsSectorUploadEstimateInMS u))
              (u_statsSectorUploadSpeedBytesPerMS u))
  | None =>
      let ms := Milliseconds d in
      speed ← go_div SectorSize ms;
      Some (mkUploader (u_hk u) (u_siamuxAddr u) (u_bh u) (u_endHeight u) (u_fcid u)
              (u_host u) (u_queue u) 0 (u_lastRecompute u)
              (stats_Track (float64_of_int ms) (u_statsSectorUploadEstimateInMS u))
              (stats_Track (float64_of_int speed) (u_statsSectorUploadSpeedBytesPerMS u)))
  end.

(** [u.Stop()]: pops until the queue is empty; every popped request whose
    sector is not done yet is failed with "uploader stopped". The requests
    that were failed are returned. [is_done] reads the sector's context. The
    loop runs once per queued request and once more to see the empty queue. *)
Fixpoint Stop_loop (fuel : nat) (is_done : sectorUploadReq → bool) (u : uploader)
    (failed : list sectorUploadReq) : list sectorUploadReq * uploader :=
  match fuel with
  | O => (failed, u)
  | S fuel' =>
      match pop u with
      | (None, u') => (failed, u')
      | (Some upload, u') =>
          Stop_loop fuel' is_done u'
            (if is_done upload then failed else failed ++ [upload])
      end
  end.

Definition Stop (is_done : sectorUploadReq → bool) (u : uploader)
  : list sectorUploadReq * uploader :=
  Stop_loop (S (length (u_queue u))) is_done u [].

End Uploader.

Arguments uploader DP : clear implicits.

(** ** The upload manager *)

Section Manager.
Context {DP : Type} `{!DataPointsAPI DP}.

Record uploadManager := mkManager {
  mgr_maxOverdrive : Z;
  mgr_overdriveTimeout : Z;
  mgr_statsOverdrivePct : DP;
  mgr_statsSlabUploadSpeedBytesPerMS : DP;
  mgr_uploaders : list (uploader DP)
}.

Definition set_uploaders (us : list (uploader DP)) (mgr : uploadManager) : uploadManager :=
  mkManager (mgr_maxOverdrive mgr) (mgr_overdriveTimeout mgr)
    (mgr_statsOverdrivePct mgr) (mgr_statsSlabUploadSpeedBytesPerMS mgr) us.

(** [upload]: the object session handed out by [newUpload]. *)
Record upload := mkUpload {
  up_id : UploadID;
  up_allowed : gset N;
  up_lockPriority : Z
}.

(** What a refresh does besides replacing the pool: the uploaders it stopped
    (each with the requests its [Stop] failed) and the uploaders it created
    and started. *)
Record refreshEffects := mkEffects {
  eff_stopped : list (uploader DP * list sectorUploadReq);
  eff_started : list (uploader DP)
}.

Definition build_toKeep (contracts : list ContractMetadata) : gmap N ContractMetadata :=
  foldl (λ m c, <[c_ID c := c]> m) ∅ contracts.

Definition build_renewedTo (contracts : list ContractMetadata) : gmap N ContractMetadata :=
  foldl (λ m c, if decide (c_RenewedFrom c = zeroFCID) then m
                else <[c_RenewedFrom c := c]> m) ∅ contracts.

(** The loop of [refreshUploaders] over the current pool. *)
Fixpoint refresh_loop (now : Z) (is_done : sectorUploadReq → bool) (bh : Z)
    (renewedTo : gmap N ContractMetadata) (pool : list (uploader DP))
    (toKeep : gmap N ContractMetadata) (uploaders : list (uploader DP))
    (stopped : list (uploader DP * list sectorUploadReq))
  : gmap N ContractMetadata * list (uploader DP) * list (uploader DP * list sectorUploadReq) :=
  match pool with
  | [] => (toKeep, uploaders, stopped)
  | u :: pool' =>
      let fcid := contractID u in
      let renewal := renewedTo !! fcid in
      let keep := toKeep !! fcid in
      if negb (bool_decide (is_Some keep) || bool_decide (is_Some renewal)) then
        let '(failed, u') := Stop is_done u in
        refresh_loop now is_done bh renewedTo pool' toKeep uploaders (stopped ++ [(u', failed)])
      else
        let toKeep' := delete fcid toKeep in
        let u1 := match renewal with
                  | Some c => renew c bh u
                  | None => updateBlockHeight bh u
                  end in
        let u2 := tryRecomputeStats now u1 in
        refresh_loop now is_done bh renewedTo pool' toKeep' (uploaders ++ [u2]) stopped
  end.

(** The entries of a map in the order [order] visits its keys. *)
Definition range_map {V : Type} (order : list N) (m : gmap N V) : list V :=
  omap (λ k, m !! k) order.

(** [mgr.refreshUploaders(contracts, bh)]. [order] is the order in which the
    final [range toKeep] visits the contracts that have no uploader yet. *)
Definition refreshUploaders (now : Z) (is_done : sectorUploadReq → bool) (order : list N)
    (contracts : list ContractMetadata) (bh : Z) (mgr : uploadManager)
  : uploadManager * refreshEffects :=
  let toKeep := build_toKeep contracts in
  let renewedTo := build_renewedTo contracts in
  let '(toKeep', uploaders, stopped) :=
    refresh_loop now is_done bh renewedTo (mgr_uploaders mgr) toKeep [] [] in
  let fresh := (λ c, newUploader c bh) <$> range_map order toKeep' in
  (set_uploaders (uploaders ++ fresh) mgr, mkEffects stopped fresh).

(** [mgr.newUpload(ctx, totalShards, contracts, bh, lockPriority)].
    [fresh_id] is what [api.NewUploadID()] would draw. *)
Definition newUpload (now : Z) (is_done : sectorUploadReq → bool) (order : list N)
    (fresh_id : UploadID) (totalShards : Z) (contracts : list ContractMetadata)
    (bh : Z) (lockPriority : Z) (mgr : uploadManager)
  : (error + upload) * uploadManager * refreshEffects :=
  let '(mgr', eff) := refreshUploaders now is_done order contracts bh mgr in
  if Z.of_nat (length contracts) <? totalShards then
    (inl (errNotEnoughContracts (Z.of_nat (length contracts)) totalShards), mgr', eff)
  else
    let allowed := foldl (λ (a : gset N) c, {[c_HostKey c]} ∪ a) ∅ contracts in
    (inr (mkUpload fresh_id allowed lockPriority), mgr', eff).

(** [mgr.Stop()] *)
Definition mgr_Stop (is_done : sectorUploadReq → bool) (mgr : uploadManager)
  : uploadManager * list (list sectorUploadReq) :=
  (set_uploaders (map (λ u, snd (Stop is_done u)) (mgr_uploaders mgr)) mgr,
   map (λ u, fst (Stop is_done u)) (mgr_uploaders mgr)).

End Manager.

Arguments uploadManager DP : clear implicits.
Arguments refreshEffects DP : clear implicits.

(** ** Slab upload *)

(** [object.Sector] *)
Record Sector := mkSector {
  Contracts : gmap N (list FileContractID);
  LatestHost : PublicKey;
  Root : Hash256
}.

Definition zeroSector : Sector := mkSector ∅ 0%N zeroHash.

(** [sectorUpload]. [su_cancelled] is the state of the sector's context:
    [sector.cancel()] sets it. *)
Record sectorUpload := mkSectorUpload {
  su_data : option (list Byte.byte);
  su_index : nat;
  su_root : Hash256;
  su_uploaded : Sector;
  su_cancelled : bool
}.

(** [sector.isUploaded()] *)
Definition isUploaded (s : sectorUpload) : bool :=
  negb (N.eqb (Root (su_uploaded s)) zeroHash).

(** [math.MaxInt] on a 64-bit platform. *)
Definition MaxInt : Z := 2 ^ 63 - 1.

Section Slab.
Context {DP : Type} `{!DataPointsAPI DP}.

(** [rhpv2.SectorRoot], the Merkle root of a sector, is a function of the
    library the code is built on. *)
Variable SectorRoot : list Byte.byte → Hash256.

(** [slabUpload]. The memory grant [acquiredMemory] is declared in a file
    that is not at hand; the specification gives it the operation
    "release some bytes", so [sl_mem] is the number of bytes of the grant that
    the slab still holds. *)
Record slabUpload := mkSlab {
  sl_uploadID : UploadID;
  sl_created : Z;
  sl_lockPriority : Z;
  sl_maxOverdrive : Z;
  sl_mem : Z;
  sl_overdriveTimeout : Z;
  sl_candidates : list (uploader DP);
  sl_shards : list (list Byte.byte);
  sl_numInflight : Z;
  sl_numLaunched : Z;
  sl_numUploaded : Z;
  sl_overdriving : gmap nat (gset N);
  sl_lastOverdrive : Z;
  sl_numOverdriving : Z;
  sl_sectors : gmap nat sectorUpload;
  sl_used : gset N;
  sl_errs : gmap N string
}.

(** [s.overdriving[i]]: a missing key reads as the empty set. *)
Definition overdriving_of (s : slabUpload) (i : nat) : gset N :=
  default ∅ (sl_overdriving s !! i).

(** [req.sector.index]: the index field of the sector the request points to. *)
Definition sector_index (s : slabUpload) (req : sectorUploadReq) : nat :=
  match sl_sectors s !! req_sector req with
  | Some sector => su_index sector
  | None => req_sector req
  end.

(** The sectors and requests that [newSlabUpload] prepares, shard by shard. *)
Fixpoint prepare_sectors (lockPriority : Z) (uploadID : UploadID) (sI : nat)
    (shards : list (list Byte.byte))
  : gmap nat sectorUpload * list sectorUploadReq :=
  match shards with
  | [] => (∅, [])
  | shard :: rest =>
      let '(sectors, requests) := prepare_sectors lockPriority uploadID (S sI) rest in
      (<[sI := mkSectorUpload (Some shard) sI (SectorRoot shard) zeroSector false]> sectors,
       mkReq lockPriority false sI uploadID zeroFCID 0%N :: requests)
  end.

(** [u.newSlabUpload(ctx, shards, candidates, mem, maxOverdrive, overdriveTimeout)]
    at time [now]. The conversion of a shard to a sector-sized array panics on
    a shorter shard; shards are taken to be sector-sized. *)
Definition newSlabUpload (now : Z) (u : upload) (shards : list (list Byte.byte))
    (candidates : list (uploader DP)) (mem : Z) (maxOverdrive overdriveTimeout : Z)
  : slabUpload * list sectorUploadReq :=
  let '(sectors, requests) := prepare_sectors (up_lockPriority u) (up_id u) 0 shards in
  (mkSlab (up_id u) now (up_lockPriority u) maxOverdrive mem overdriveTimeout
     candidates shards 0 0 0 ∅ 0 0 sectors ∅ ∅,
   requests).

(** The candidate search of [launch] followed by [candidate.enqueue(req)]:
    the first uploader whose host is not in [used] gets the request. *)
Fixpoint enqueue_candidate (used : gset N) (req : sectorUploadReq)
    (candidates : list (uploader DP))
  : option (sectorUploadReq * list (uploader DP)) :=
  match candidates with
  | [] => None
  | uploader :: rest =>
      if bool_decide (u_hk uploader ∈ used) then
        '(req', rest') ← enqueue_candidate used req rest;
        Some (req', uploader :: rest')
      else
        let '(req', uploader') := enqueue req uploader in
        Some (req', uploader' :: rest)
  end.

(** What [launch] returns, and, when a candidate took the request, the
    request as the candidate decorated it. *)
Record launchResult := mkLaunch {
  l_interrupt : bool;
  l_err : option error;
  l_enqueued : option sectorUploadReq;
  l_slab : slabUpload
}.

(** [s.launch(req)] at time [now]; [req = None] is the nil request. *)
Definition launch (now : Z) (req : option sectorUploadReq) (s : slabUpload) : launchResult :=
  match req with
  | None => mkLaunch false None None s
  | Some req =>
      match enqueue_candidate (sl_used s) req (sl_candidates s) with
      | None =>
          mkLaunch (negb (req_overdrive req)
                    && (Z.of_nat (size (overdriving_of s (sector_index s req))) =? 0))
            (Some errNoCandidateUploader) None s
      | Some (req', candidates') =>
          let numInflight := u64 (sl_numInflight s + 1) in
          let numLaunched := u64 (sl_numLaunched s + 1) in
          let used := {[req_hk req']} ∪ sl_used s in
          if req_overdrive req' then
            mkLaunch false None (Some req')
              (mkSlab (sl_uploadID s) (sl_created s) (sl_lockPriority s) (sl_maxOverdrive s)
                 (sl_mem s) (sl_overdriveTimeout s) candidates' (sl_shards s)
                 numInflight numLaunched (sl_numUploaded s)
                 (<[sector_index s req' :=
                      {[req_hk req']} ∪ overdriving_of s (sector_index s req')]>
                    (sl_overdriving s))
                 now (u64 (sl_numOverdriving s + 1)) (sl_sectors s) used (sl_errs s))
          else
            mkLaunch false None (Some req')
              (mkSlab (sl_uploadID s) (sl_created s) (sl_lockPriority s) (sl_maxOverdrive s)
                 (sl_mem s) (sl_overdriveTimeout s) candidates' (sl_shards s)
                 numInflight numLaunched (sl_numUploaded s)
                 (sl_overdriving s) (sl_lastOverdrive s) (sl_numOverdriving s)
                 (sl_sectors s) used (sl_errs s))
      end
  end.

(** [canOverdrive] of [s.overdrive], at time [now]. *)
Definition canOverdrive (now : Z) (s : slabUpload) : bool :=
  let remaining := u64 (u64 (Z.of_nat (length (sl_shards s))) - sl_numUploaded s) in
  if sl_maxOverdrive s <=? remaining then false
  else if time_Since now (sl_lastOverdrive s) <? sl_overdriveTimeout s then false
  else if sl_maxOverdrive s <=? u64 (sl_numInflight s - remaining) then false
  else true.

(** The loop of [nextRequest]: [order] is the order in which [range s.sectors]
    visits the keys. [lowestNumOverdrives] is never assigned in the loop. *)
Definition nextSector (order : list nat) (s : slabUpload) : option nat :=
  let lowestNumOverdrives := MaxInt in
  foldl (λ (next : option nat) k,
           match sl_sectors s !! k with
           | Some sector =>
               if negb (isUploaded sector)
                  && (Z.of_nat (size (overdriving_of s (su_index sector))) <? lowestNumOverdrives)
               then Some k else next
           | None => next
           end) None order.

(** [s.nextRequest(responseChan)] *)
Definition nextRequest (order : list nat) (s : slabUpload) : option sectorUploadReq :=
  match nextSector order s with
  | None => None
  | Some k => Some (mkReq (sl_lockPriority s) true k (sl_uploadID s) zeroFCID 0%N)
  end.

(** [s.overdriveCnt()] *)
Definition overdriveCnt (s : slabUpload) : Z :=
  int64 (sl_numLaunched s) - Z.of_nat (size (sl_sectors s)).

(** [s.overdrivePct()] *)
Definition overdrivePct (s : slabUpload) : float :=
  let numOverdrive := int64 (sl_numLaunched s) - Z.of_nat (size (sl_sectors s)) in
  if numOverdrive <=? 0 then 0%float
  else PrimFloat.div (float64_of_int numOverdrive)
         (float64_of_int (Z.of_nat (size (sl_sectors s)))).

(** [s.inflight()] *)
Definition inflight (s : slabUpload) : Z := sl_numInflight s.

(** [s.uploadSpeed()] at time [now]; [None] is the panic of the division. *)
Definition uploadSpeed (now : Z) (s : slabUpload) : option Z :=
  let bytes := u64 (sl_numUploaded s * SectorSize) in
  let ms := Milliseconds (time_Since now (sl_created s)) in
  go_div (int64 bytes) ms.

(** [s.receive(resp)]. [None] stands for a run-time panic: the request
    points to no sector of this slab, or [s.shards[sector.index]] is out of
    range. *)
Definition receive (resp : sectorUploadResp) (s : slabUpload) : option (bool * slabUpload) :=
  let req := resp_req resp in
  sector ← sl_sectors s !! req_sector req;
  let numOverdriving :=
    if req_overdrive req then u64 (sl_numOverdriving s - 1) else sl_numOverdriving s in
  let numInflight := u64 (sl_numInflight s - 1) in
  match resp_err resp with
  | Some e =>
      Some (false,
            mkSlab (sl_uploadID s) (sl_created s) (sl_lockPriority s) (sl_maxOverdrive s)
              (sl_mem s) (sl_overdriveTimeout s) (sl_candidates s) (sl_shards s)
              numInflight (sl_numLaunched s) (sl_numUploaded s) (sl_overdriving s)
              (sl_lastOverdrive s) numOverdriving (sl_sectors s) (sl_used s)
              (<[req_hk req := e]> (sl_errs s)))
  | None =>
      if isUploaded sector then
        Some (false,
              mkSlab (sl_uploadID s) (sl_created s) (sl_lockPriority s) (sl_maxOverdrive s)
                (sl_mem s) (sl_overdriveTimeout s) (sl_candidates s) (sl_shards s)
                numInflight (sl_numLaunched s) (sl_numUploaded s) (sl_overdriving s)
                (sl_lastOverdrive s) numOverdriving (sl_sectors s) (sl_used s) (sl_errs s))
      else if bool_decide (su_index sector < length (sl_shards s))%nat then
        let uploaded := mkSector {[req_hk req := [req_fcid req]]} (req_hk req) (resp_root resp) in
        let sector' := mkSectorUpload None (su_index sector) (su_root sector) uploaded true in
        let numUploaded := u64 (sl_numUploaded s + 1) in
        Some (numUploaded =? u64 (Z.of_nat (length (sl_shards s))),
              mkSlab (sl_uploadID s) (sl_created s) (sl_lockPriority s) (sl_maxOverdrive s)
                (sl_mem s - SectorSize) (sl_overdriveTimeout s) (sl_candidates s)
                (<[su_index sector := []]> (sl_shards s))
                numInflight (sl_numLaunched s) numUploaded (sl_overdriving s)
                (sl_lastOverdrive s) numOverdriving
                (<[req_sector req := sector']> (sl_sectors s))
                (sl_used s ∖ overdriving_of s (su_index sector)) (sl_errs s))
      else None
  end.

(** [s.finish()]. The outer [None] is the nil-pointer panic on a shard index
    that has no sector. *)
Definition finish (s : slabUpload) : option (error + list Sector) :=
  if sl_numUploaded s <? u64 (Z.of_nat (length (sl_shards s))) then
    let remaining := u64 (u64 (Z.of_nat (length (sl_shards s))) - sl_numUploaded s) in
    Some (inl (errSlabUpload (sl_numLaunched s) (sl_numUploaded s) remaining
                 (sl_numInflight s) (Z.of_nat (length (sl_candidates s)))
                 (Z.of_nat (size (sl_errs s))) (sl_errs s)))
  else
    sectors ← mapM (λ i, su_uploaded <$> (sl_sectors s !! i)) (seq 0 (length (sl_shards s)));
    Some (inr sectors).

(** ** The slab upload as a transition system

    [uploadShards] launches every request, starts the overdrive timer and then
    loops over the responses. The slab's mutex makes [receive], [launch],
    [canOverdrive] and [nextRequest] atomic, and the transitions below are
    these critical sections: the loop body is a [receive] and, for a failed
    non-overdrive request, a later [launch]; a timer tick is a [canOverdrive],
    then a [nextRequest], then a [launch]. The hosts' answers are events. *)

(** Where the timer goroutine stands. *)
Inductive timerPhase :=
| TimerIdle
| TimerChecked
| TimerPicked (req : option sectorUploadReq).

(** [sys_pending] holds the requests that an uploader has been given and has
    not answered or dropped yet, oldest first. [sys_relaunch] is the failed
    non-overdrive request that the loop is about to launch again.
    [sys_halted] is set when the loop is left by [done] or by [break].
    [sys_failed] and [sys_redundant] count the failed responses and the late
    duplicate successes received so far. *)
Record sys := mkSys {
  sys_slab : slabUpload;
  sys_pending : list sectorUploadReq;
  sys_relaunch : option sectorUploadReq;
  sys_timer : timerPhase;
  sys_halted : bool;
  sys_failed : Z;
  sys_redundant : Z
}.

Inductive event :=
| Respond (k : nat) (root : Hash256) (err : option string)
| Drop (k : nat)
| Requeue (k : nat)
| Relaunch (now : Z)
| TimerCheck (now : Z)
| TimerNext (order : list nat)
| TimerLaunch (now : Z).

(** An uploader serves its queue in order: the [k]-th pending request can be
    handled when no older pending request sits at the same host. *)
Definition head_of_host (pending : list sectorUploadReq) (k : nat) (req : sectorUploadReq) : bool :=
  forallb (λ r, negb (N.eqb (req_hk r) (req_hk req))) (take k pending).

(** [req.done()]: the sector's context is cancelled. *)
Definition req_done (s : slabUpload) (req : sectorUploadReq) : bool :=
  match sl_sectors s !! req_sector req with
  | Some sector => su_cancelled sector
  | None => false
  end.

(** The [break] of the relaunch in [uploadShards]: the loop is left when
    [launch] failed and the flag it returned is false. *)
Definition relaunch_breaks (r : launchResult) : bool :=
  match l_err r with
  | Some _ => negb (l_interrupt r)
  | None => false
  end.

(** [order] lists every key of the map once. *)
Definition visits_keys (order : list nat) (s : slabUpload) : bool :=
  bool_decide (NoDup order) && bool_decide (list_to_set order = dom (sl_sectors s)).

Definition exec (st : sys) (ev : event) : option sys :=
  let s := sys_slab st in
  match ev with
  | Respond k root err =>
      if sys_halted st || bool_decide (is_Some (sys_relaunch st)) || (inflight s =? 0)
      then None else
      req ← sys_pending st !! k;
      if negb (head_of_host (sys_pending st) k req) then None else
      sector ← sl_sectors s !! req_sector req;
      '(done, s') ← receive (mkResp req root err) s;
      Some (mkSys s' (delete k (sys_pending st))
              (if negb done && bool_decide (is_Some err) && negb (req_overdrive req)
               then Some req else None)
              (sys_timer st) done
              (sys_failed st + match err with Some _ => 1 | None => 0 end)
              (sys_redundant st + match err with
                                  | Some _ => 0
                                  | None => if isUploaded sector then 1 else 0
                                  end))
  | Drop k =>
      req ← sys_pending st !! k;
      if head_of_host (sys_pending st) k req && req_done s req then
        Some (mkSys s (delete k (sys_pending st)) (sys_relaunch st) (sys_timer st)
                (sys_halted st) (sys_failed st) (sys_redundant st))
      else None
  | Requeue k =>
      req ← sys_pending st !! k;
      if head_of_host (sys_pending st) k req && negb (req_done s req) then
        Some (mkSys s (delete k (sys_pending st) ++ [req]) (sys_relaunch st) (sys_timer st)
                (sys_halted st) (sys_failed st) (sys_redundant st))
      else None
  | Relaunch now =>
      req ← sys_relaunch st;
      let r := launch now (Some req) s in
      Some (mkSys (l_slab r) (sys_pending st ++ option_list (l_enqueued r)) None
              (sys_timer st) (relaunch_breaks r) (sys_failed st) (sys_redundant st))
  | TimerCheck now =>
      match sys_timer st with
      | TimerIdle =>
          if sl_overdriveTimeout s =? 0 then None
          else
            Some (mkSys s (sys_pending st) (sys_relaunch st)
                    (if canOverdrive now s then TimerChecked else TimerIdle)
                    (sys_halted st) (sys_failed st) (sys_redundant st))
      | _ => None
      end
  | TimerNext order =>
      match sys_timer st with
      | TimerChecked =>
          if visits_keys order s then
            Some (mkSys s (sys_pending st) (sys_relaunch st)
                    (TimerPicked (nextRequest order s))
                    (sys_halted st) (sys_failed st) (sys_redundant st))
          else None
      | _ => None
      end
  | TimerLaunch now =>
      match sys_timer st with
      | TimerPicked req =>
          let r := launch now req s in
          Some (mkSys (l_slab r) (sys_pending st ++ option_list (l_enqueued r))
                  (sys_relaunch st) TimerIdle
                  (sys_halted st) (sys_failed st) (sys_redundant st))
      | _ => None
      end
  end.

(** A run: the events are executed one after the other. *)
Fixpoint run (st : sys) (tr : list event) : option sys :=
  match tr with
  | [] => Some st
  | ev :: tr' => st' ← exec st ev; run st' tr'
  end.

(** The first loop of [uploadShards]: every request is launched in turn; the
    first failing launch ends the upload with its error. *)
Fixpoint launch_all (now : Z) (requests : list sectorUploadReq) (s : slabUpload)
    (pending : list sectorUploadReq) : error + slabUpload * list sectorUploadReq :=
  match requests with
  | [] => inr (s, pending)
  | req :: rest =>
      let r := launch now (Some req) s in
      match l_err r with
      | Some e => inl e
      | None => launch_all now rest (l_slab r) (pending ++ option_list (l_enqueued r))
      end
  end.

(** [uploadShards] up to the start of its response loop. *)
Definition uploadShards_start (now : Z) (u : upload) (shards : list (list Byte.byte))
    (candidates : list (uploader DP)) (mem : Z) (maxOverdrive overdriveTimeout : Z)
  : error + sys :=
  let '(slab, requests) := newSlabUpload now u shards candidates mem maxOverdrive overdriveTimeout in
  match launch_all now requests slab [] with
  | inl e => inl e
  | inr (s, pending) => inr (mkSys s pending None TimerIdle false 0 0)
  end.

End Slab.

Arguments slabUpload DP : clear implicits.
Arguments sys DP : clear implicits.
Arguments launchResult DP : clear implicits.
Arguments launch : simpl never.
Arguments receive : simpl never.
Arguments canOverdrive : simpl never.
Arguments nextRequest : simpl never.

(** The sector record that a successful response installs. *)
Definition installed (req : sectorUploadReq) (root : Hash256) (sector : sectorUpload)
  : sectorUpload :=
  mkSectorUpload None (su_index sector) (su_root sector)
    (mkSector {[req_hk req := [req_fcid req]]} (req_hk req) root) true.

(** A sector that [nextSector] may return: present, not uploaded, and with
    fewer than [MaxInt] overdrives. *)
Definition eligible {DP : Type} (s : slabUpload DP) (k : nat) : bool :=
  match sl_sectors s !! k with
  | Some sector =>
      negb (isUploaded sector)
      && (Z.of_nat (size (overdriving_of s (su_index sector))) <? MaxInt)
  | None => false
  end.

(** The slab's counters add up, modulo 2^64: every launched request is
    uploaded, in flight, failed or a late duplicate. *)
Definition accounted {DP : Type} (st : sys DP) : Prop :=
  let s := sys_slab st in
  sl_numLaunched s
  = u64 (sl_numUploaded s + sl_numInflight s + sys_failed st + sys_redundant st)
  ∧ 0 ≤ sl_numUploaded s ∧ 0 ≤ sl_numInflight s
  ∧ 0 ≤ sys_failed st ∧ 0 ≤ sys_redundant st.

(** The launches that are already decided but not made yet: the relaunch of
    a failed request, and the overdrive of a timer tick that has passed
    [canOverdrive]. *)
Definition pending_launches {DP : Type} (st : sys DP) : Z :=
  match sys_relaunch st with Some _ => 1 | None => 0 end
  + match sys_timer st with TimerIdle => 0 | _ => 1 end.

(** The bound on the requests in flight, with what the proof of its
    invariance needs. *)
Definition inflight_bounded {DP : Type} (st : sys DP) : Prop :=
  let s := sys_slab st in
  let N := Z.of_nat (length (sl_shards s)) in
  0 ≤ sl_numInflight s < 2 ^ 64
  ∧ 0 ≤ sl_numUploaded s ≤ N
  ∧ (sys_halted st = false → sl_numUploaded s < N ∨ N = 0)
  ∧ (is_Some (sys_relaunch st) → sys_halted st = false)
  ∧ sl_numInflight s + pending_launches st
    ≤ sl_maxOverdrive s + (N - sl_numUploaded s) + 1.

(** A host that reports success reports a root that is not the zero hash. *)
Definition honest (ev : event) : Prop :=
  match ev with
  | Respond _ root None => root ≠ zeroHash
  | _ => True
  end.

(** The sectors that are uploaded. *)
Definition uploaded_sectors {DP : Type} (s : slabUpload DP) : gmap nat sectorUpload :=
  filter (λ p, isUploaded p.2 = true) (sl_sectors s).

(** The sectors of a slab: one per shard index, each knowing its index, and
    [numUploaded] of them uploaded. *)
Definition sectors_wf {DP : Type} (s : slabUpload DP) : Prop :=
  dom (sl_sectors s) = set_seq 0 (length (sl_shards s))
  ∧ (∀ i sector, sl_sectors s !! i = Some sector → su_index sector = i)
  ∧ sl_numUploaded s = Z.of_nat (size (uploaded_sectors s)).

(** Every request that is pending, waiting for its relaunch or picked by the
    timer points to a sector of the slab, and the sectors are those of the
    shard indices, each knowing its index. *)
Definition points_to_sector {DP : Type} (s : slabUpload DP) (req : sectorUploadReq) : Prop :=
  is_Some (sl_sectors s !! req_sector req).

Definition requests_valid {DP : Type} (st : sys DP) : Prop :=
  let s := sys_slab st in
  dom (sl_sectors s) = set_seq 0 (length (sl_shards s))
  ∧ (∀ i sector, sl_sectors s !! i = Some sector → su_index sector = i)
  ∧ Forall (points_to_sector s) (sys_pending st)
  ∧ (∀ req, sys_relaunch st = Some req → points_to_sector s req)
  ∧ (∀ req, sys_timer st = TimerPicked (Some req) → points_to_sector s req).

(** The contracts left in [toKeep] once the loop of [refreshUploaders] has
    gone over [pool]: the contract of every uploader it met is gone. *)
Definition drop_keys {DP : Type} (pool : list (uploader DP)) (m : gmap N ContractMetadata)
  : gmap N ContractMetadata :=
  foldl (λ m u, delete (u_fcid u) m) m pool.

(** What a refresh does to an uploader that it keeps and does not renew. *)
Definition refreshed {DP : Type} `{!DataPointsAPI DP} (now bh : Z) (u : uploader DP)
  : uploader DP :=
  tryRecomputeStats now (updateBlockHeight bh u).

(** A request whose sector is still open: present, not cancelled and not
    uploaded. *)
Definition waiting {DP : Type} (s : slabUpload DP) (req : sectorUploadReq) : Prop :=
  ∃ sector, sl_sectors s !! req_sector req = Some sector
    ∧ su_cancelled sector = false ∧ isUploaded sector = false.

(** A slab on which nothing is overdriven: every pending request is a
    regular one for an open sector, no two of them are for the same sector or
    at the same host, and they are the requests counted as in flight. *)
Definition quiet {DP : Type} (s : slabUpload DP) (pending : list sectorUploadReq) : Prop :=
  sl_numOverdriving s = 0
  ∧ sl_overdriving s = ∅
  ∧ Forall (λ r, req_overdrive r = false ∧ req_hk r ∈ sl_used s) pending
  ∧ Forall (waiting s) pending
  ∧ NoDup (req_sector <$> pending)
  ∧ NoDup (req_hk <$> pending)
  ∧ sl_numInflight s = Z.of_nat (length pending)
  ∧ Z.of_nat (size (sl_sectors s)) < 2 ^ 64.

(** The states of an upload whose overdrive is switched off. *)
Definition no_overdrive {DP : Type} (st : sys DP) : Prop :=
  let s := sys_slab st in
  (sl_overdriveTimeout s = 0 ∨ sl_maxOverdrive s = 0)
  ∧ sys_timer st = TimerIdle
  ∧ sys_redundant st = 0
  ∧ quiet s (sys_pending st)
  ∧ (∀ r, sys_relaunch st = Some r →
       req_overdrive r = false ∧ waiting s r ∧ req_sector r ∉ req_sector <$> sys_pending st).

(** The state of an upload in which the hosts have answered the requests
    [P] of the first loop in order, with success and the roots [roots] so
    far, and nothing else has happened; [sectors0] are the sectors as
    [newSlabUpload] prepared them. *)
Definition answered_in_order {DP : Type} (P : list sectorUploadReq)
    (sectors0 : gmap nat sectorUpload) (roots : list Hash256) (st : sys DP) : Prop :=
  let s := sys_slab st in
  let k := length roots in
  let N := length P in
  sys_pending st = drop k P
  ∧ sys_relaunch st = None
  ∧ sys_halted st = bool_decide (0 < N ∧ k = N)%nat
  ∧ length (sl_shards s) = N
  ∧ sl_numUploaded s = Z.of_nat k
  ∧ sl_numInflight s = Z.of_nat N - Z.of_nat k
  ∧ sl_numLaunched s = Z.of_nat N
  ∧ dom (sl_sectors s) = dom sectors0
  ∧ (∀ i, (k ≤ i)%nat → sl_sectors s !! i = sectors0 !! i)
  ∧ (∀ i root req, roots !! i = Some root → P !! i = Some req →
       ∃ sector, sectors0 !! i = Some sector
         ∧ sl_sectors s !! i = Some (installed req root sector)).

(** ** The worker loop of an uploader *)

Section Worker.
Context {DP : Type} `{!DataPointsAPI DP}.

(** [isClosedStream(err)] is declared in a file that is not at hand. *)
Variable isClosedStream : option string → bool.

(** The requests of [reqs], enqueued one after the other. *)
Definition enqueue_all (reqs : list sectorUploadReq) (u : uploader DP) : uploader DP :=
  foldl (λ u req, (enqueue req u).2) u reqs.

(** What [rl.withRevision] returns for a request: the revision number is
    exhausted, or [u.execute] ran and failed or returned a root. Failures of
    the revision lock itself are failures as well. *)
Inductive execResult :=
| MaxRevisionReached
| ExecFailed (msg : string)
| ExecOk (root : Hash256).

(** What one round of the inner loop of [Start] does with the request it
    pops: nothing to pop, a request that is done and skipped, a request put
    back into the queue, or a response offered to the slab. [Responded]
    records the contract the sector was uploaded to. *)
Inductive workerStep :=
| NoWork
| Skipped (req : sectorUploadReq)
| Requeued (req : sectorUploadReq)
| Responded (fcid : FileContractID) (resp : sectorUploadResp).

(** One round of the inner loop of [u.Start]. [done_before] and [done_after]
    read the sector's context before and after the execution, [result] is
    what the host does with the request on the contract it is given, and
    [elapsed] is [time.Since(start)]. [None] is the panic of
    [trackSectorUpload]. *)
Definition Start_step (done_before done_after : sectorUploadReq → bool)
    (result : FileContractID → sectorUploadReq → execResult) (elapsed : Z)
    (u : uploader DP) : option (workerStep * uploader DP) :=
  match pop u with
  | (None, u1) => Some (NoWork, u1)
  | (Some req, u1) =>
      if done_before req then Some (Skipped req, u1)
      else
        let fcid := contractID u1 in
        match result fcid req with
        | MaxRevisionReached =>
            let '(req', u2) := enqueue req u1 in Some (Requeued req', u2)
        | ExecFailed msg =>
            let canceledOverdrive := done_after req && req_overdrive req in
            if negb canceledOverdrive && negb (isClosedStream (Some msg)) then
              u2 ← trackSectorUpload (Some msg) elapsed u1;
              Some (Responded fcid (mkResp req zeroHash (Some msg)), u2)
            else Some (Responded fcid (mkResp req zeroHash (Some msg)), u1)
        | ExecOk root =>
            if negb (isClosedStream None) then
              u2 ← trackSectorUpload None elapsed u1;
              Some (Responded fcid (mkResp req root None), u2)
            else Some (Responded fcid (mkResp req root None), u1)
        end
  end.

(** The inner loop of [u.Start]: rounds until the queue is found empty or a
    request is put back (both go back to waiting for the signal). *)
Fixpoint Start_loop (fuel : nat) (done_before done_after : sectorUploadReq → bool)
    (result : FileContractID → sectorUploadReq → execResult) (elapsed : Z)
    (u : uploader DP) (steps : list workerStep) : option (list workerStep * uploader DP) :=
  match fuel with
  | O => Some (steps, u)
  | S fuel' =>
      '(step, u') ← Start_step done_before done_after result elapsed u;
      match step with
      | NoWork => Some (steps, u')
      | Requeued _ => Some (steps ++ [step], u')
      | _ => Start_loop fuel' done_before done_after result elapsed u' (steps ++ [step])
      end
  end.

(** [trackSectorUpload] for a list of outcomes, oldest first. *)
Fixpoint track_all (outcomes : list (option string * Z)) (u : uploader DP)
  : option (uploader DP) :=
  match outcomes with
  | [] => Some u
  | (err, d) :: rest => u' ← trackSectorUpload err d u; track_all rest u'
  end.

End Worker.

(** What the worker loop makes of a request that it pops while its contract
    is [fcid]. *)
Definition served (done_before : sectorUploadReq → bool)
    (result : FileContractID → sectorUploadReq → execResult) (fcid : FileContractID)
    (step : workerStep) (req : sectorUploadReq) : Prop :=
  if done_before req then step = Skipped req
  else match result fcid req with
       | MaxRevisionReached => False
       | ExecFailed msg => step = Responded fcid (mkResp req zeroHash (Some msg))
       | ExecOk root => step = Responded fcid (mkResp req root None)
       end.

(** ** Other methods of the upload manager *)

Section ManagerViews.
Context {DP : Type} `{!DataPointsAPI DP}.

(** [sort.Slice] of the Go library, on a list of uploaders. *)
Variable sort_Slice :
  (uploader DP → uploader DP → bool) → list (uploader DP) → list (uploader DP).

(** [mgr.candidates(allowed)] *)
Definition candidates (allowed : gset N) (mgr : uploadManager DP) : list (uploader DP) :=
  sort_Slice (λ a b, PrimFloat.ltb (estimate a) (estimate b))
    (filter (λ u, u_hk u ∈ allowed) (mgr_uploaders mgr)).

(** [uploadManagerStats] *)
Record uploadManagerStats := mkStats {
  avgSlabUploadSpeedMBPS : float;
  avgOverdrivePct : float;
  healthyUploaders : Z;
  numUploaders : Z;
  uploadSpeedsMBPS : gmap N float
}.

(** [mgr.Stats()]. The constant is the [float64] nearest to 0.008. *)
Definition Stats (mgr : uploadManager DP) : uploadManagerStats :=
  let '(numHealthy, speeds) :=
    foldl (λ '(numHealthy, speeds) u,
             (if healthy u then u64 (numHealthy + 1) else numHealthy,
              <[u_hk u := PrimFloat.mul (stats_Average (u_statsSectorUploadSpeedBytesPerMS u))
                            0x1.0624dd2f1a9fcp-7%float]> speeds))
      (0, (∅ : gmap N float)) (mgr_uploaders mgr) in
  mkStats (PrimFloat.mul (stats_Average (mgr_statsSlabUploadSpeedBytesPerMS mgr)) 0x1.0624dd2f1a9fcp-7%float)
    (stats_Average (mgr_statsOverdrivePct mgr))
    numHealthy (u64 (Z.of_nat (size speeds))) speeds.

End ManagerViews.

Arguments uploadManagerStats : clear implicits.

(** ** [Upload]: cutting the input into slabs *)

(** The three results of a read of a whole buffer: [nil], [io.EOF] and
    [io.ErrUnexpectedEOF]. *)
Inductive readError := readNil | readEOF | readUnexpectedEOF.

(** [io.ReadFull(io.LimitReader(cr, size), data)] for a fresh buffer [data]
    of [size] zero bytes, on a reader that delivers the bytes [cr] and then
    ends. The result is the buffer, the number of bytes read, the error and
    what is left of the reader. A buffer of length zero is filled at once. *)
Definition ReadFull (size : Z) (cr : list Byte.byte)
  : list Byte.byte * Z * readError * list Byte.byte :=
  let n := Z.to_nat size in
  let got := take n cr in
  let data := got ++ replicate (n - length got) Byte.x00 in
  if size =? 0 then (data, 0, readNil, cr)
  else if (length got =? 0)%nat then (data, 0, readEOF, cr)
  else if (length got <? n)%nat then (data, Z.of_nat (length got), readUnexpectedEOF, drop n cr)
  else (data, Z.of_nat (length got), readNil, drop n cr).

(** A call [upload.uploadSlab(ctx, rs, data, length, slabIndex, ...)] that the
    reader loop of [Upload] starts. *)
Record slabTask := mkTask {
  task_data : list Byte.byte;
  task_length : Z;
  task_index : Z
}.

(** The bytes of the input that a task carries. *)
Definition payload (t : slabTask) : list Byte.byte :=
  take (Z.to_nat (task_length t)) (task_data t).

(** How the reader loop stands: it has sent the number of slabs to wait for,
    it is still reading, or [make] has panicked on a negative size. *)
Inductive producerEnd :=
| Announced (numSlabs : Z)
| StillReading
| MakePanics.

Record producerState := mkProducer {
  prod_tasks : list slabTask;
  prod_partial : option (list Byte.byte);
  prod_end : producerEnd
}.

(** The reader loop of [Upload], [fuel] rounds of it, when neither the
    contexts nor the memory manager interrupt it. [partialSlab = None] is the
    nil slice. *)
Fixpoint producer_loop (fuel : nat) (size : Z) (packing : bool) (cr : list Byte.byte)
    (slabIndex : Z) (partialSlab : option (list Byte.byte)) (tasks : list slabTask)
  : producerState :=
  match fuel with
  | O => mkProducer tasks partialSlab StillReading
  | S fuel' =>
      if size <? 0 then mkProducer tasks partialSlab MakePanics
      else
        let '(data, length, err, cr') := ReadFull size cr in
        match err with
        | readEOF =>
            let numSlabs :=
              if bool_decide (is_Some partialSlab) && (0 <? slabIndex)
              then int64 (slabIndex - 1) else slabIndex in
            mkProducer tasks partialSlab (Announced numSlabs)
        | readUnexpectedEOF =>
            if packing then
              producer_loop fuel' size packing cr' (int64 (slabIndex + 1))
                (Some (take (Z.to_nat length) data)) tasks
            else
              producer_loop fuel' size packing cr' (int64 (slabIndex + 1)) partialSlab
                (tasks ++ [mkTask data length slabIndex])
        | readNil =>
            producer_loop fuel' size packing cr' (int64 (slabIndex + 1)) partialSlab
              (tasks ++ [mkTask data length slabIndex])
        end
  end.

(** The size of a slab's data, [int64(up.rs.MinShards) * rhpv2.SectorSize]. *)
Definition slab_size (minShards : Z) : Z := int64 (minShards * SectorSize).

(** [object.SlabSlice], and the one that [uploadSlab] puts into its response:
    [Length: uint32(length)]. *)
Record SlabSlice := mkSlice {
  slice_MinShards : Z;
  slice_Shards : list Sector;
  slice_Offset : Z;
  slice_Length : Z
}.

Definition uploadSlab_slice (minShards : Z) (t : slabTask) (shards : list Sector) : SlabSlice :=
  mkSlice (minShards mod 2 ^ 8) shards 0 (task_length t mod 2 ^ 32).

(** ** [MigrateShards]: merging the uploaded sectors into the slab *)

(** The contract [fcid] is recorded under the host [hk]. *)
Definition has_contract (contracts : gmap N (list FileContractID)) (hk : PublicKey)
    (fcid : FileContractID) : Prop :=
  ∃ fcids, contracts !! hk = Some fcids ∧ fcid ∈ fcids.

Section Migrate.

(** The order in which Go's [range] visits the entries of
    [uploaded[i].Contracts]. *)
Variable range_order : gmap N (list FileContractID) → list (N * list FileContractID).

(** [knownContracts]: every contract recorded for the shard, under any host. *)
Definition knownContracts (shard : Sector) : gset N :=
  ⋃ ((λ entry : N * list FileContractID, list_to_set entry.2 : gset N)
       <$> map_to_list (Contracts shard)).

(** The inner loop over the contracts [fcids] of one host [hk]. *)
Definition merge_contracts (known : gset N) (contracts : gmap N (list FileContractID))
    (hk : PublicKey) (fcids : list FileContractID) : gmap N (list FileContractID) :=
  foldl (λ m fcid,
           if bool_decide (fcid ∈ known) then m
           else <[hk := default [] (m !! hk) ++ [fcid]]> m)
    contracts fcids.

(** The body of the loop of [MigrateShards] for one shard. *)
Definition merge_sector (shard uploaded : Sector) : Sector :=
  let known := knownContracts shard in
  mkSector
    (foldl (λ m entry, merge_contracts known m entry.1 entry.2) (Contracts shard)
       (range_order (Contracts uploaded)))
    (LatestHost uploaded) (Root shard).

(** The loop of [MigrateShards] over [shardIndices], from position [i] on.
    [None] is the panic of an index out of range, of [s.Shards[si]] or of
    [uploaded[i]]. *)
Fixpoint MigrateShards_merge (shards : list Sector) (shardIndices : list Z)
    (uploaded : list Sector) (i : nat) : option (list Sector) :=
  match shardIndices with
  | [] => Some shards
  | si :: rest =>
      if si <? 0 then None
      else
        shard ← shards !! Z.to_nat si;
        up ← uploaded !! i;
        MigrateShards_merge (<[Z.to_nat si := merge_sector shard up]> shards) rest uploaded (S i)
  end.

End Migrate.

(** ** Concrete scenarios

    The scenarios run the code above on small inputs. They need an
    implementation of the statistics interface and of the Merkle root; the
    ones below are the simplest: a data set that reports the P90 it was built
    with, and a root function that gives every shard the root 1. *)

Record fixedStats := mkFixed { fixed_p90 : float }.

#[export] Instance fixedStats_api : DataPointsAPI fixedStats := {|
  stats_Default := mkFixed 0%float;
  stats_NoDecay := mkFixed 0%float;
  stats_P90 := fixed_p90;
  stats_Average := fixed_p90;
  stats_Track := λ _ d, d;
  stats_Recompute := λ d, d
|}.

Definition constRoot (shard : list Byte.byte) : Hash256 := 1%N.

(** The uploader of host [hk], serving contract [100 + hk] at block height 7. *)
Definition test_contract (hk : N) : ContractMetadata :=
  mkContract (100 + hk)%N hk "host" 1000 zeroFCID.

Definition test_uploader (hk : N) : uploader fixedStats :=
  newUploader (test_contract hk) 7.

Definition test_upload : upload := mkUpload 9%N ∅ 1.

(** A slab of [n] (empty) shards on the hosts [hks], started at time 0 with
    an overdrive timeout of 1000 ns. *)
Definition test_start (n : nat) (hks : list N) (maxOverdrive : Z) : option (sys fixedStats) :=
  match uploadShards_start constRoot 0 test_upload (replicate n []) (map test_uploader hks)
          (Z.of_nat n * SectorSize) maxOverdrive 1000 with
  | inr st => Some st
  | inl _ => None
  end.

Definition test_run (n : nat) (hks : list N) (maxOverdrive : Z) (tr : list event)
  : option (sys fixedStats) :=
  st ← test_start n hks maxOverdrive; run st tr.

(** One tick of the overdrive timer, served without interruption. *)
Definition tick (now : Z) (order : list nat) : list event :=
  [TimerCheck now; TimerNext order; TimerLaunch now].

(** Two shards on three hosts; the timer overdrives sector 0 on host 3; host 1
    answers sector 0 with the zero root and no error; then host 3 answers
    sector 0 with root 77. *)
Definition trace_zero_root_first : list event :=
  tick 2000 [1; 0]%nat ++ [Respond 0 zeroHash None].

Definition trace_zero_root : list event :=
  trace_zero_root_first ++ [Respond 1 77%N None].

(** One shard on one host, answered with the zero root and no error. *)
Definition trace_zero_root_single : list event := [Respond 0 zeroHash None].

(** Two shards on three hosts; the timer overdrives sector 0 on host 3; host 1
    uploads sector 0; the timer overdrives sector 1 on host 3, which is free
    again; then host 3 answers its first request, the overdrive of sector 0,
    with success. *)
Definition trace_duplicate_first : list event :=
  tick 2000 [1; 0]%nat ++ [Respond 0 5%N None].

Definition trace_duplicate_mid : list event := tick 4000 [0; 1]%nat.

Definition trace_duplicate : list event :=
  trace_duplicate_first ++ trace_duplicate_mid ++ [Respond 1 5%N None].

(** Two shards on three hosts; the timer overdrives sector 0 on host 3; host 1
    fails sector 0 and the loop tries to launch the request again. *)
Definition trace_relaunch_covered : list event :=
  tick 2000 [1; 0]%nat ++ [Respond 0 zeroHash (Some "host error"); Relaunch 2500].

(** Two shards on two hosts, no overdrive; host 1 fails sector 0 and the loop
    tries to launch the request again. *)
Definition trace_relaunch_uncovered : list event :=
  [Respond 0 zeroHash (Some "host error"); Relaunch 500].

(** Two shards on five hosts, [maxOverdrive = 3]. Three ticks overdrive
    sector 1 on hosts 3, 4 and 5; host 1 fails sector 0 and finds no free
    host; host 2 uploads sector 1, which frees hosts 3, 4 and 5; the next tick
    overdrives sector 0 on host 3. *)
Definition trace_overdrive_cap : list event :=
  tick 2000 [0; 1]%nat ++ tick 4000 [0; 1]%nat ++ tick 6000 [0; 1]%nat
  ++ [Respond 0 zeroHash (Some "host error"); Relaunch 6500; Respond 0 77%N None]
  ++ tick 9000 [0; 1]%nat.

(** One shard on five hosts, [maxOverdrive = 2]. Two ticks overdrive the
    sector on hosts 2 and 3; host 1 fails; before the loop launches the
    request again the timer overdrives the sector on host 4; the relaunch then
    goes to host 5. *)
Definition trace_inflight_race : list event :=
  tick 2000 [0]%nat ++ tick 4000 [0]%nat
  ++ [Respond 0 zeroHash (Some "host error")]
  ++ tick 6000 [0]%nat ++ [Relaunch 6001].

(** A slab state for [nextRequest]: after the first overdrive of sector 0
    (two shards, three hosts), sector 0 has one overdrive and sector 1 none. *)
Definition state_one_overdrive : option (slabUpload fixedStats) :=
  sys_slab <$> test_run 2 [1; 2; 3]%N 3 (tick 2000 [1; 0]%nat).

(** A pool with one uploader on contract 1, and a contract list in which
    contract 2 renews contract 1. *)
Definition renewal_contract : ContractMetadata := mkContract 2%N 50%N "host" 2000 1%N.

Definition pool_before_renewal : uploadManager fixedStats :=
  mkManager 3 1000 (mkFixed 0%float) (mkFixed 0%float)
    [newUploader (mkContract 1%N 50%N "host" 1000 zeroFCID) 7].

Definition empty_manager : uploadManager fixedStats :=
  mkManager 3 1000 (mkFixed 0%float) (mkFixed 0%float) [].

Definition never_done (r : sectorUploadReq) : bool := false.

(** An uploader whose latency estimator reports a P90 of half a millisecond. *)
Definition half_ms_uploader : uploader fixedStats :=
  mkUploader 1%N "host" 7 1000 101%N (mkHost 101%N 1%N "host") [] 0 0
    (mkFixed 0.5%float) (mkFixed 0%float).

(** The specification's formula for [estimate]:
    [(queue_length + 1) * max(p90, 1)]. *)
Definition float_max (x y : float) : float := if PrimFloat.ltb x y then y else x.

Definition estimate_spec {DP : Type} `{!DataPointsAPI DP} (u : uploader DP) : float :=
  PrimFloat.mul (float64_of_int (Z.of_nat (length (u_queue u)) + 1))
    (float_max (stats_P90 (u_statsSectorUploadEstimateInMS u)) 1%float).

(** The slab of two shards on three hosts as [newSlabUpload] builds it at
    time 0. *)
Definition fresh_slab : slabUpload fixedStats :=
  fst (newSlabUpload constRoot 0 test_upload [[]; []] (map test_uploader [1; 2; 3]%N)
         (2 * SectorSize) 3 1000).

Definition is_inl {A B : Type} (x : A + B) : bool :=
  match x with inl _ => true | inr _ => false end.

(** The state a scenario ends in (an idle system when the run is not
    possible). *)
Definition idle_sys : sys fixedStats :=
  mkSys fresh_slab [] None TimerIdle true 0 0.

Definition the_sys (o : option (sys fixedStats)) : sys fixedStats := default idle_sys o.

(** Two shards on three hosts, both uploaded at the first attempt. *)
Definition trace_happy : list event := [Respond 0 11%N None; Respond 0 12%N None].

(** The roots of the list that [finish] returns, if it returns one. *)
Definition finish_roots {DP : Type} (s : slabUpload DP) : option (list Hash256) :=
  match finish s with
  | Some (inr sectors) => Some (map Root sectors)
  | _ => None
  end.

(** An insertion sort, to stand for [sort.Slice] in the scenarios:
    [insert_back] puts an element behind a sorted slice, given back to front,
    and moves it forward while it is less than its predecessor. *)
Fixpoint insert_back {A : Type} (less : A → A → bool) (x : A) (sorted_rev : list A) : list A :=
  match sorted_rev with
  | [] => [x]
  | y :: rest => if less x y then y :: insert_back less x rest else x :: y :: rest
  end.

Definition insertionSort {A : Type} (less : A → A → bool) (l : list A) : list A :=
  rev (foldl (λ sorted_rev x, insert_back less x sorted_rev) [] l).

(** No stream is closed. *)
Definition never_closed (err : option string) : bool := false.

(** Every execution uploads the sector and reports the root 5. *)
Definition always_uploads (fcid : FileContractID) (req : sectorUploadReq) : execResult :=
  ExecOk 5%N.

(** Host 1 with two requests in its queue. *)
Definition busy_uploader : uploader fixedStats :=
  enqueue_all [mkReq 1 false 0 9%N zeroFCID 0%N; mkReq 1 false 1 9%N zeroFCID 0%N]
    (test_uploader 1).

(** The uploader of contract 1 at host 50. *)
Definition old_uploader : uploader fixedStats :=
  newUploader (mkContract 1%N 50%N "host" 1000 zeroFCID) 7.

(** A pool with one uploader at each of the hosts 1, 2 and 3. *)
Definition three_uploaders : uploadManager fixedStats :=
  mkManager 3 1000 (mkFixed 0%float) (mkFixed 0%float) (map test_uploader [1; 2; 3]%N).

(** Two shards on three hosts without overdrive; host 1 fails sector 0, the
    request goes to host 3, and the hosts 2 and 3 succeed. *)
Definition trace_retry : list event :=
  [Respond 0 zeroHash (Some "host error"); Relaunch 500;
   Respond 0 12%N None; Respond 0 11%N None].

(** Ten bytes of input. *)
Definition ten_bytes : list Byte.byte :=
  [Byte.x01; Byte.x02; Byte.x03; Byte.x04; Byte.x05;
   Byte.x06; Byte.x07; Byte.x08; Byte.x09; Byte.x0a].

(** A slab of three shards, and the two sectors of a migration of its shards
    2 and 0. *)
Definition slab_shards : list Sector :=
  [mkSector {[1%N := [101%N]]} 1%N 71%N;
   mkSector {[2%N := [102%N]]} 2%N 72%N;
   mkSector {[3%N := [103%N]]} 3%N 73%N].

Definition migrated_sectors : list Sector :=
  [mkSector {[4%N := [104%N]]} 4%N 73%N;
   mkSector {[1%N := [101%N; 105%N]]} 1%N 71%N].

(** * Properties *)

(** ** Machine arithmetic *)

Lemma u64_range z : 0 ≤ u64 z < 2 ^ 64.
Proof. unfold u64. apply Z.mod_pos_bound. lia. Qed.

Lemma u64_small z : 0 ≤ z < 2 ^ 64 → u64 z = z.
Proof. intros. unfold u64. apply Z.mod_small. assumption. Qed.

Lemma u64_le z : 0 ≤ z → u64 z ≤ z.
Proof. intros. unfold u64. apply Z.mod_le; lia. Qed.

Lemma u64_add_l a b : u64 (u64 a + b) = u64 (a + b).
Proof. unfold u64. apply Zplus_mod_idemp_l. Qed.

Lemma u64_add_r a b : u64 (a + u64 b) = u64 (a + b).
Proof. unfold u64. apply Zplus_mod_idemp_r. Qed.

Lemma u64_sub_l a b : u64 (u64 a - b) = u64 (a - b).
Proof. unfold u64. apply Zminus_mod_idemp_l. Qed.

(** Goals about wrapped counters, by the euclidean division equations. *)
Ltac u64_lia :=
  unfold u64 in *; change (2 ^ 64) with 18446744073709551616 in *;
  Z.to_euclidean_division_equations; lia.

Lemma Milliseconds_zero d : - 1000000 < d < 1000000 → Milliseconds d = 0.
Proof.
  intros Hd. unfold Milliseconds. apply Z.quot_small_iff; lia.
Qed.

(** ** Uploader *)

Lemma float_zero_below_one p :
  PrimFloat.eqb p 0%float = true → PrimFloat.ltb p 1%float = true.
Proof.
  rewrite FloatAxioms.eqb_spec, FloatAxioms.ltb_spec.
  replace (Prim2SF 0) with (S754_zero false) by (vm_compute; reflexivity).
  replace (Prim2SF 1) with (S754_finite false 4503599627370496 (-52))
    by (vm_compute; reflexivity).
  destruct (Prim2SF p) as [s | s | | s m e].
  - intros _. destruct s; reflexivity.
  - destruct s; intros H; discriminate H.
  - intros H; discriminate H.
  - destruct s; intros H; discriminate H.
Qed.

(** C7 (as the code has it). [estimate] multiplies the number of queued
    requests plus one by the P90 estimate, where only a P90 of exactly zero
    is replaced by 1; for an uploader whose estimator reports zero the
    estimate is the queue length plus one (times 1); and the result is the
    specification's [(queue_length + 1) * max(p90, 1)] whenever the P90 is
    zero or is not below 1. *)
Theorem estimate_formula {DP : Type} `{!DataPointsAPI DP} (u : uploader DP) :
  let p90 := stats_P90 (u_statsSectorUploadEstimateInMS u) in
  let n := float64_of_int (Z.of_nat (length (u_queue u)) + 1) in
  estimate u = PrimFloat.mul n (if PrimFloat.eqb p90 0%float then 1%float else p90)
  ∧ (PrimFloat.eqb p90 0%float = true → estimate u = PrimFloat.mul n 1%float)
  ∧ (PrimFloat.eqb p90 0%float = true ∨ PrimFloat.ltb p90 1%float = false →
     estimate u = estimate_spec u).
Proof.
  intros p90 n. unfold estimate, estimate_spec, float_max. fold p90 n.
  split; [reflexivity | split].
  - intros ->. reflexivity.
  - intros [Hz | Hge].
    + rewrite Hz, (float_zero_below_one _ Hz). reflexivity.
    + rewrite Hge. destruct (PrimFloat.eqb p90 0) eqn:Hz; [| reflexivity].
      rewrite (float_zero_below_one _ Hz) in Hge. discriminate.
Qed.

(** With an empty queue and a P90 of zero the estimate is 1 = 0 + 1, and it
    agrees with the specification's formula. *)
Lemma estimate_formula_fresh :
  estimate (test_uploader 1%N) = PrimFloat.mul 1%float 1%float
  ∧ estimate (test_uploader 1%N) = estimate_spec (test_uploader 1%N).
Proof.
  pose proof (estimate_formula (test_uploader 1%N)) as H. cbv zeta in H.
  destruct H as (_ & Hfresh & Hspec).
  split; [apply Hfresh; reflexivity | apply Hspec; left; reflexivity].
Defined.

(** C7 (counterexample). An uploader whose estimator reports a P90 of 0.5 ms
    and whose queue is empty: the code's estimate is 0.5, the specification's
    formula gives 1. *)
Lemma estimate_below_one_ms :
  estimate half_ms_uploader = 0.5%float
  ∧ estimate_spec half_ms_uploader = 1%float
  ∧ estimate half_ms_uploader ≠ estimate_spec half_ms_uploader.
Proof.
  split; [reflexivity | split; [reflexivity |]].
  intros H.
  assert (PrimFloat.eqb (estimate half_ms_uploader) (estimate_spec half_ms_uploader) = true) as Hb
    by (rewrite <- H; reflexivity).
  vm_compute in Hb. discriminate.
Qed.

Lemma Stop_loop_drains (is_done : sectorUploadReq → bool) {DP : Type} `{!DataPointsAPI DP}
    (fuel : nat) (u : uploader DP) (failed : list sectorUploadReq) :
  (length (u_queue u) < fuel)%nat →
  Stop_loop fuel is_done u failed
  = (failed ++ filter (λ r, is_done r = false) (u_queue u), set_queue [] u).
Proof.
  revert u failed. induction fuel as [| fuel IH]; intros u failed Hlt; [lia |].
  destruct u as [hk addr bh eh fcid host queue cf lr se ss]. simpl in *.
  unfold pop. simpl. destruct queue as [| r queue]; simpl.
  - rewrite app_nil_r. reflexivity.
  - unfold set_queue at 1. simpl.
    rewrite IH by (simpl in *; lia). simpl. unfold set_queue. simpl.
    rewrite filter_cons. destruct (is_done r) eqn:Hr.
    + rewrite decide_False by discriminate. reflexivity.
    + rewrite decide_True by reflexivity. rewrite <- app_assoc. reflexivity.
Qed.

(** [Stop] leaves the queue empty and fails exactly the queued requests that
    are not done, in queue order; nothing else of the uploader changes. *)
Theorem Stop_drains_queue {DP : Type} `{!DataPointsAPI DP}
    (is_done : sectorUploadReq → bool) (u : uploader DP) :
  Stop is_done u = (filter (λ r, is_done r = false) (u_queue u), set_queue [] u)
  ∧ u_queue (snd (Stop is_done u)) = [].
Proof.
  assert (Stop is_done u
          = (filter (λ r, is_done r = false) (u_queue u), set_queue [] u)) as Heq.
  { unfold Stop. apply (Stop_loop_drains is_done (S (length (u_queue u))) u []).
    apply Nat.lt_succ_diag_r. }
  split; [assumption |]. rewrite Heq. reflexivity.
Qed.

(** C10 (the divisions can fail). A successful upload measured at less than a
    millisecond makes [trackSectorUpload] divide by zero, and [uploadSpeed]
    divides by zero when less than a millisecond has passed since the slab
    was created. *)
Theorem division_by_zero_below_one_millisecond {DP : Type} `{!DataPointsAPI DP}
    (u : uploader DP) (s : slabUpload DP) (d now : Z) :
  0 ≤ d < 1000000 →
  0 ≤ now - sl_created s < 1000000 →
  trackSectorUpload None d u = None ∧ uploadSpeed now s = None.
Proof.
  intros Hd Hnow. split.
  - unfold trackSectorUpload. rewrite Milliseconds_zero by lia. reflexivity.
  - unfold uploadSpeed, time_Since, time_Sub, maxDuration, minDuration.
    rewrite Milliseconds_zero by lia. reflexivity.
Qed.

(** A sector uploaded in half a millisecond, and the speed of a slab asked
    for 0.3 ms after its creation. *)
Lemma division_by_zero_below_one_millisecond_at_500us :
  trackSectorUpload None 500000 (test_uploader 1%N) = None
  ∧ uploadSpeed 300000 fresh_slab = None.
Proof.
  apply (division_by_zero_below_one_millisecond (test_uploader 1%N) fresh_slab 500000 300000).
  - lia.
  - simpl. lia.
Defined.

(** ** Upload manager *)

(** C3 (as the code has it). With fewer contracts than shards [newUpload]
    fails with [errNotEnoughContracts] and hands out no upload, but only
    after [refreshUploaders] has run: the pool it leaves and the uploaders it
    stopped and started are those of [refreshUploaders] on the same
    arguments. *)
Theorem newUpload_not_enough_contracts {DP : Type} `{!DataPointsAPI DP}
    (now : Z) (is_done : sectorUploadReq → bool) (order : list N) (fresh_id : UploadID)
    (totalShards : Z) (contracts : list ContractMetadata) (bh lockPriority : Z)
    (mgr : uploadManager DP) :
  Z.of_nat (length contracts) < totalShards →
  newUpload now is_done order fresh_id totalShards contracts bh lockPriority mgr
  = (inl (errNotEnoughContracts (Z.of_nat (length contracts)) totalShards),
     fst (refreshUploaders now is_done order contracts bh mgr),
     snd (refreshUploaders now is_done order contracts bh mgr)).
Proof.
  intros Hlt. unfold newUpload.
  destruct (refreshUploaders now is_done order contracts bh mgr) as [mgr' eff].
  apply Z.ltb_lt in Hlt. rewrite Hlt. reflexivity.
Qed.

(** Three contracts for four shards. *)
Lemma newUpload_not_enough_contracts_3_of_4 :
  newUpload 10 never_done [101; 102; 103]%N 5%N 4
    [test_contract 1; test_contract 2; test_contract 3] 8 1 empty_manager
  = (inl (errNotEnoughContracts 3 4),
     fst (refreshUploaders 10 never_done [101; 102; 103]%N
            [test_contract 1; test_contract 2; test_contract 3] 8 empty_manager),
     snd (refreshUploaders 10 never_done [101; 102; 103]%N
            [test_contract 1; test_contract 2; test_contract 3] 8 empty_manager)).
Proof.
  apply (newUpload_not_enough_contracts 10 never_done [101; 102; 103]%N 5%N 4
           [test_contract 1; test_contract 2; test_contract 3] 8 1 empty_manager).
  simpl. lia.
Defined.

(** C3 (counterexample). Three contracts for four shards on a manager without
    uploaders: the call fails, and the pool, empty before, holds three
    started uploaders afterwards. *)
Lemma newUpload_failure_changes_pool :
  let '(res, mgr', eff) :=
    newUpload 10 never_done [101; 102; 103]%N 5%N 4
      [test_contract 1; test_contract 2; test_contract 3] 8 1 empty_manager in
  res = inl (errNotEnoughContracts 3 4)
  ∧ mgr_uploaders empty_manager = []
  ∧ map u_fcid (mgr_uploaders mgr') = [101; 102; 103]%N
  ∧ map u_fcid (eff_started eff) = [101; 102; 103]%N
  ∧ mgr_uploaders mgr' ≠ mgr_uploaders empty_manager.
Proof.
  vm_compute. repeat split. discriminate.
Qed.

(** C9 (the failing input). A pool with one uploader on contract 1 and a
    contract list in which contract 2 renews contract 1. The first refresh
    renews the uploader and also starts a second uploader for contract 2; the
    second refresh, on the same arguments, stops that second uploader. *)
Theorem refreshUploaders_renewal_not_idempotent :
  let '(mgr1, eff1) :=
    refreshUploaders 10 never_done [2%N] [renewal_contract] 8 pool_before_renewal in
  let '(mgr2, eff2) :=
    refreshUploaders 10 never_done [2%N] [renewal_contract] 8 mgr1 in
  map u_fcid (mgr_uploaders pool_before_renewal) = [1%N]
  ∧ map u_fcid (mgr_uploaders mgr1) = [2; 2]%N
  ∧ map u_fcid (eff_started eff1) = [2%N]
  ∧ map u_fcid (mgr_uploaders mgr2) = [2%N]
  ∧ map (λ p, u_fcid (fst p)) (eff_stopped eff2) = [2%N]
  ∧ mgr_uploaders mgr2 ≠ mgr_uploaders mgr1.
Proof.
  vm_compute. repeat split. discriminate.
Qed.

(** *** A second refresh without renewals *)

Section Refresh.
Context {DP : Type} `{!DataPointsAPI DP}.
Implicit Types (u : uploader DP) (pool kept : list (uploader DP)).
Implicit Types (toKeep : gmap N ContractMetadata).

Lemma refreshed_fcid now bh u : u_fcid (refreshed now bh u) = u_fcid u.
Proof. unfold refreshed, tryRecomputeStats. destruct (_ <? _); reflexivity. Qed.

Lemma refreshed_bh now bh u : u_bh (refreshed now bh u) = bh.
Proof. unfold refreshed, tryRecomputeStats. destruct (_ <? _); reflexivity. Qed.

Lemma refreshed_same_height now u : refreshed now (u_bh u) u = tryRecomputeStats now u.
Proof. unfold refreshed. destruct u; reflexivity. Qed.

Lemma build_renewedTo_none (contracts : list ContractMetadata) :
  Forall (λ c, c_RenewedFrom c = zeroFCID) contracts → build_renewedTo contracts = ∅.
Proof.
  unfold build_renewedTo. generalize (∅ : gmap N ContractMetadata).
  induction contracts as [| c rest IH]; intros m HF; simpl; [reflexivity |].
  apply Forall_cons in HF as [Hc HF]. rewrite decide_True by assumption. apply IH. assumption.
Qed.

Lemma build_toKeep_ID (contracts : list ContractMetadata) k c :
  build_toKeep contracts !! k = Some c → c_ID c = k.
Proof.
  unfold build_toKeep.
  assert (∀ m : gmap N ContractMetadata,
            (∀ k c, m !! k = Some c → c_ID c = k) →
            ∀ k c, foldl (λ m c, <[c_ID c := c]> m) m contracts !! k = Some c → c_ID c = k)
    as Hgen.
  { induction contracts as [| c0 rest IH]; intros m Hm k0 c1; simpl; [apply Hm |].
    apply IH. intros k1 c2 Hl. destruct (decide (c_ID c0 = k1)) as [<- | Hne].
    - rewrite lookup_insert_eq in Hl. injection Hl as <-. reflexivity.
    - rewrite lookup_insert_ne in Hl by assumption. apply Hm. assumption. }
  apply Hgen. intros k0 c0 Hl. rewrite lookup_empty in Hl. discriminate.
Qed.

Lemma drop_keys_lookup pool toKeep k :
  drop_keys pool toKeep !! k
  = if decide (k ∈ u_fcid <$> pool) then None else toKeep !! k.
Proof.
  revert toKeep. induction pool as [| u rest IH]; intros toKeep.
  - destruct (decide (k ∈ u_fcid <$> [])) as [Hin | _]; [| reflexivity].
    apply elem_of_nil in Hin. contradiction.
  - change (drop_keys (u :: rest) toKeep) with (drop_keys rest (delete (u_fcid u) toKeep)).
    rewrite IH. rewrite fmap_cons.
    destruct (decide (k ∈ u_fcid <$> rest)) as [Hin | Hnin];
      destruct (decide (k ∈ u_fcid u :: (u_fcid <$> rest))) as [Hin' | Hnin'];
      try reflexivity.
    + exfalso. apply Hnin'. apply elem_of_cons. right. assumption.
    + apply elem_of_cons in Hin' as [-> | Hin']; [apply lookup_delete_eq | contradiction].
    + apply lookup_delete_ne. intros <-. apply Hnin'. apply elem_of_cons. left. reflexivity.
Qed.

(** The loop over a pool whose uploaders have distinct contracts that are all
    in [toKeep], when no contract renews another: every uploader is kept. *)
Lemma refresh_loop_keeps now is_done bh pool toKeep kept stopped :
  NoDup (u_fcid <$> pool) →
  Forall (λ u, is_Some (toKeep !! u_fcid u)) pool →
  refresh_loop now is_done bh ∅ pool toKeep kept stopped
  = (drop_keys pool toKeep, kept ++ (refreshed now bh <$> pool), stopped).
Proof.
  revert toKeep kept. induction pool as [| u rest IH]; intros toKeep kept Hnd HF.
  - simpl. rewrite app_nil_r. reflexivity.
  - rewrite fmap_cons in Hnd. apply NoDup_cons in Hnd as [Hnin Hnd].
    apply Forall_cons in HF as [Hu HF].
    cbn [refresh_loop]. unfold contractID. rewrite lookup_empty.
    rewrite (bool_decide_eq_true_2 _ Hu). cbn [orb negb].
    rewrite IH; [| assumption |].
    + rewrite fmap_cons, <- app_assoc. reflexivity.
    + apply Forall_forall. intros u' Hu'.
      rewrite lookup_delete_ne; [eapply Forall_forall in HF; eassumption |].
      intros Heq. apply Hnin. rewrite Heq. apply list_elem_of_fmap. eauto.
Qed.

Lemma elem_of_fcids_snoc kept u (a : FileContractID) :
  a ∈ u_fcid <$> (kept ++ [u]) ↔ a ∈ u_fcid <$> kept ∨ a = u_fcid u.
Proof.
  rewrite fmap_app, elem_of_app, fmap_cons, fmap_nil, list_elem_of_singleton. reflexivity.
Qed.

(** The loop over a pool whose uploaders have distinct contracts, when no
    contract renews another: what it keeps. *)
Lemma refresh_loop_first now is_done bh pool toKeep kept stopped toKeep' kept' stopped' :
  NoDup (u_fcid <$> pool) →
  refresh_loop now is_done bh ∅ pool toKeep kept stopped = (toKeep', kept', stopped') →
  toKeep' = drop_keys pool toKeep
  ∧ (∀ a, a ∈ u_fcid <$> kept'
          ↔ a ∈ u_fcid <$> kept ∨ (a ∈ u_fcid <$> pool ∧ is_Some (toKeep !! a)))
  ∧ (NoDup (u_fcid <$> kept) → (∀ a, a ∈ u_fcid <$> kept → a ∉ u_fcid <$> pool) →
     NoDup (u_fcid <$> kept'))
  ∧ (Forall (λ u, u_bh u = bh) kept → Forall (λ u, u_bh u = bh) kept').
Proof.
  revert toKeep kept stopped.
  induction pool as [| u rest IH]; intros toKeep kept stopped Hnd Hloop.
  - simpl in Hloop. injection Hloop as <- <- <-.
    split; [reflexivity |]. split; [| split; intros; assumption].
    intros a. rewrite fmap_nil, elem_of_nil. tauto.
  - rewrite fmap_cons in Hnd. apply NoDup_cons in Hnd as [Hnin Hnd].
    cbn [refresh_loop] in Hloop. unfold contractID in Hloop. rewrite lookup_empty in Hloop.
    destruct (toKeep !! u_fcid u) as [c |] eqn:Hkeep.
    + rewrite bool_decide_eq_true_2 in Hloop by eauto. cbn [orb negb] in Hloop.
      fold (refreshed now bh u) in Hloop.
      pose proof (refreshed_fcid now bh u) as Hfc. pose proof (refreshed_bh now bh u) as Hbh.
      apply IH in Hloop as (H1 & H2 & H3 & H4); [| assumption].
      split; [exact H1 |]. split; [| split].
      * intros a. rewrite H2, elem_of_fcids_snoc, Hfc, fmap_cons, elem_of_cons.
        rewrite lookup_delete_is_Some. split.
        -- intros [[Hk | ->] | [Hr [Hne Hs]]]; [tauto | right; split; [tauto | eauto] | tauto].
        -- intros [Hk | [[-> | Hr] Hs]]; [tauto | tauto |].
           right. split; [assumption |]. split; [| assumption]. intros <-. contradiction.
      * intros Hndk Hdisj. apply H3.
        -- rewrite fmap_app. apply NoDup_app. split; [assumption |]. split.
           ++ intros a Ha. rewrite fmap_cons, fmap_nil, list_elem_of_singleton, Hfc.
              intros ->. apply (Hdisj _ Ha). rewrite fmap_cons. apply elem_of_cons. tauto.
           ++ rewrite fmap_cons, fmap_nil. apply NoDup_singleton.
        -- intros a. rewrite elem_of_fcids_snoc, Hfc.
           intros [Ha | ->]; [| assumption].
           intros Hr. apply (Hdisj _ Ha). rewrite fmap_cons. apply elem_of_cons. tauto.
      * intros Hall. apply H4. apply Forall_app. split; [assumption |].
        constructor; [assumption | constructor].
    + rewrite bool_decide_eq_false_2 in Hloop by (intros [? ?]; discriminate).
      cbn [orb negb] in Hloop. destruct (Stop is_done u) as [failed u'].
      apply IH in Hloop as (H1 & H2 & H3 & H4); [| assumption].
      split; [| split; [| split]].
      * rewrite H1. change (drop_keys (u :: rest) toKeep)
          with (drop_keys rest (delete (u_fcid u) toKeep)).
        rewrite (delete_id toKeep (u_fcid u)) by assumption. reflexivity.
      * intros a. rewrite H2, fmap_cons, elem_of_cons. split; [tauto |].
        intros [Hk | [[-> | Hr] Hs]]; [tauto | | tauto].
        rewrite Hkeep in Hs. destruct Hs as [? ?]. discriminate.
      * intros Hndk Hdisj. apply H3; [assumption |].
        intros a Ha Hr. apply (Hdisj _ Ha). rewrite fmap_cons. apply elem_of_cons. tauto.
      * assumption.
Qed.

Lemma range_map_ids (order : list N) toKeep :
  (∀ k c, toKeep !! k = Some c → c_ID c = k) →
  NoDup order →
  NoDup (c_ID <$> range_map order toKeep)
  ∧ ∀ a, a ∈ c_ID <$> range_map order toKeep ↔ a ∈ order ∧ is_Some (toKeep !! a).
Proof.
  intros Hid. unfold range_map. induction order as [| k rest IH]; intros Hnd.
  - simpl. split; [constructor |]. intros a. rewrite !elem_of_nil. tauto.
  - apply NoDup_cons in Hnd as [Hnin Hnd]. destruct (IH Hnd) as [IH1 IH2].
    simpl. destruct (toKeep !! k) as [c |] eqn:Hk.
    + rewrite fmap_cons, (Hid _ _ Hk). split.
      * apply NoDup_cons. split; [| assumption]. rewrite IH2. tauto.
      * intros a. rewrite !elem_of_cons, IH2. split.
        -- intros [-> | [Hr Hs]]; [split; [tauto | eauto] | tauto].
        -- intros [[-> | Hr] Hs]; tauto.
    + split; [assumption |]. intros a. rewrite elem_of_cons, IH2. split; [tauto |].
      intros [[Ha | Hr] [c Hc]]; [exfalso; subst; congruence | eauto].
Qed.

Lemma range_map_nothing (order : list N) toKeep :
  (∀ k, toKeep !! k = None) → range_map order toKeep = [].
Proof.
  intros Hnone. unfold range_map. induction order as [| k rest IH]; [reflexivity |].
  simpl. rewrite Hnone. assumption.
Qed.

Lemma fresh_fcids bh (cs : list ContractMetadata) :
  u_fcid <$> ((λ c, newUploader (DP := DP) c bh) <$> cs) = c_ID <$> cs.
Proof.
  induction cs as [| c rest IH]; [reflexivity |]. rewrite !fmap_cons, IH. reflexivity.
Qed.

(** When no contract of the list renews another, the pool's uploaders have
    distinct contracts, and the first refresh visited every contract that
    lacked an uploader: an immediate second refresh with the same contracts
    and block height stops no uploader and starts none, and its pool holds
    the uploaders of the first, each only passed through the rate-limited
    recomputation of its statistics. *)
Theorem refreshUploaders_again_without_renewals
    (now now' : Z) (is_done : sectorUploadReq → bool) (order order' : list N)
    (contracts : list ContractMetadata) (bh : Z) (mgr : uploadManager DP) :
  Forall (λ c, c_RenewedFrom c = zeroFCID) contracts →
  NoDup (u_fcid <$> mgr_uploaders mgr) →
  NoDup order →
  (∀ k, is_Some (build_toKeep contracts !! k) → k ∈ order) →
  let mgr1 := fst (refreshUploaders now is_done order contracts bh mgr) in
  let r2 := refreshUploaders now' is_done order' contracts bh mgr1 in
  eff_stopped (snd r2) = []
  ∧ eff_started (snd r2) = []
  ∧ mgr_uploaders (fst r2) = tryRecomputeStats now' <$> mgr_uploaders mgr1.
Proof.
  intros Hren Hndp Hndo Hcover mgr1 r2. unfold r2, mgr1, refreshUploaders.
  rewrite (build_renewedTo_none _ Hren).
  set (K := build_toKeep contracts) in *.
  destruct (refresh_loop now is_done bh ∅ (mgr_uploaders mgr) K [] [])
    as [[toKeep1 kept1] stopped1] eqn:H1.
  apply refresh_loop_first in H1 as (Ht & Hmem & Hnd & Hbh); [| assumption].
  cbn [fst mgr_uploaders set_uploaders].
  set (fresh1 := (λ c, newUploader c bh) <$> range_map order toKeep1).
  assert (∀ k, toKeep1 !! k
               = if decide (k ∈ u_fcid <$> mgr_uploaders mgr) then None else K !! k) as Hlk
    by (intros k; rewrite Ht; apply drop_keys_lookup).
  assert (∀ k c, toKeep1 !! k = Some c → c_ID c = k) as Hid.
  { intros k c. rewrite Hlk. destruct (decide _); [discriminate |]. apply build_toKeep_ID. }
  destruct (range_map_ids order toKeep1 Hid Hndo) as [Hfnd Hfmem].
  assert (u_fcid <$> fresh1 = c_ID <$> range_map order toKeep1) as Hff
    by apply fresh_fcids.
  assert (∀ a, a ∈ u_fcid <$> kept1 ↔ a ∈ u_fcid <$> mgr_uploaders mgr ∧ is_Some (K !! a))
    as Hkmem.
  { intros a. rewrite Hmem, fmap_nil, elem_of_nil. tauto. }
  assert (NoDup (u_fcid <$> (kept1 ++ fresh1))) as Hnd1.
  { rewrite fmap_app. apply NoDup_app. split; [| split].
    - apply Hnd; [constructor |]. intros a Ha. apply elem_of_nil in Ha. contradiction.
    - intros a Ha. rewrite Hff, Hfmem. intros [_ Hs]. rewrite Hlk in Hs.
      apply Hkmem in Ha as [Ha _]. rewrite decide_True in Hs by assumption.
      destruct Hs. discriminate.
    - rewrite Hff. assumption. }
  assert (Forall (λ u, is_Some (K !! u_fcid u)) (kept1 ++ fresh1)) as Hall.
  { apply Forall_forall. intros u Hu.
    assert (u_fcid u ∈ u_fcid <$> (kept1 ++ fresh1)) as Hin
      by (apply list_elem_of_fmap; eauto).
    rewrite fmap_app, elem_of_app, Hkmem, Hff, Hfmem in Hin.
    destruct Hin as [[_ Hs] | [_ Hs]]; [assumption |].
    rewrite Hlk in Hs. destruct (decide _); [destruct Hs; discriminate | assumption]. }
  assert (∀ k, drop_keys (kept1 ++ fresh1) K !! k = None) as Hgone.
  { intros k. rewrite drop_keys_lookup. destruct (decide _) as [_ | Hnin]; [reflexivity |].
    destruct (K !! k) as [c |] eqn:Hk; [exfalso | reflexivity]. apply Hnin.
    rewrite fmap_app, elem_of_app, Hkmem, Hff, Hfmem, Hlk.
    destruct (decide (k ∈ u_fcid <$> mgr_uploaders mgr)) as [Hin | Hout].
    - left. split; [assumption |]. rewrite Hk. eauto.
    - right. split; [apply Hcover; rewrite Hk; eauto |]. rewrite Hk. eauto. }
  assert (Forall (λ u, u_bh u = bh) (kept1 ++ fresh1)) as Hheight.
  { apply Forall_app. split; [apply Hbh; constructor |].
    apply Forall_forall. intros u Hu. unfold fresh1 in Hu.
    apply list_elem_of_fmap in Hu as (c & -> & _). reflexivity. }
  rewrite (refresh_loop_keeps now' is_done bh (kept1 ++ fresh1) K [] [] Hnd1 Hall).
  rewrite (range_map_nothing order' _ Hgone).
  cbn [fst snd eff_stopped eff_started mgr_uploaders set_uploaders].
  split; [reflexivity |]. split; [reflexivity |].
  rewrite fmap_nil, app_nil_r, app_nil_l.
  apply Forall_fmap_ext_1. eapply Forall_impl; [exact Hheight |].
  intros u Hu. simpl in Hu. rewrite <- Hu. apply refreshed_same_height.
Qed.

End Refresh.

(** Three contracts on a manager without uploaders, refreshed twice. *)
Lemma refreshUploaders_again_three_contracts :
  let cs := [test_contract 1; test_contract 2; test_contract 3] in
  let mgr1 := fst (refreshUploaders 10 never_done [101; 102; 103]%N cs 8 empty_manager) in
  let r2 := refreshUploaders 11 never_done [103; 102; 101]%N cs 8 mgr1 in
  eff_stopped (snd r2) = []
  ∧ eff_started (snd r2) = []
  ∧ mgr_uploaders (fst r2) = tryRecomputeStats 11 <$> mgr_uploaders mgr1.
Proof.
  intros cs.
  apply (refreshUploaders_again_without_renewals 10 11 never_done
           [101; 102; 103]%N [103; 102; 101]%N cs 8 empty_manager).
  - repeat constructor.
  - constructor.
  - apply (bool_decide_unpack _). vm_compute. exact I.
  - intros k Hk. apply (elem_of_dom (D := gset N)) in Hk.
    assert (dom (build_toKeep cs) ⊆ (list_to_set [101; 102; 103]%N : gset N)) as Hsub
      by (apply (bool_decide_unpack _); vm_compute; exact I).
    apply Hsub, elem_of_list_to_set in Hk. exact Hk.
Defined.

(** ** Slab upload: single operations *)

Section SlabFacts.
Context {DP : Type} `{!DataPointsAPI DP}.
Implicit Types (s : slabUpload DP) (req : sectorUploadReq).

Lemma enqueue_candidate_length used req (cands : list (uploader DP)) req' cands' :
  enqueue_candidate used req cands = Some (req', cands') → length cands' = length cands.
Proof.
  revert req' cands'. induction cands as [| u rest IH]; intros req' cands' H; simpl in H.
  - discriminate.
  - destruct (bool_decide (u_hk u ∈ used)).
    + destruct (enqueue_candidate used req rest) as [[r c] |] eqn:E; simpl in H; [| discriminate].
      injection H as <- <-. simpl. f_equal. eapply IH. reflexivity.
    + injection H as <- <-. reflexivity.
Qed.

Lemma enqueue_candidate_overdrive used req (cands : list (uploader DP)) req' cands' :
  enqueue_candidate used req cands = Some (req', cands') →
  req_overdrive req' = req_overdrive req ∧ req_sector req' = req_sector req.
Proof.
  revert req' cands'. induction cands as [| u rest IH]; intros req' cands' H; simpl in H.
  - discriminate.
  - destruct (bool_decide (u_hk u ∈ used)).
    + destruct (enqueue_candidate used req rest) as [[r c] |] eqn:E; simpl in H; [| discriminate].
      injection H as <- <-. eapply IH. reflexivity.
    + injection H as <- <-. split; reflexivity.
Qed.

(** No candidate is free exactly when every candidate's host is in [used]. *)
Lemma enqueue_candidate_None used req (cands : list (uploader DP)) :
  enqueue_candidate used req cands = None ↔ Forall (λ u, u_hk u ∈ used) cands.
Proof.
  induction cands as [| u rest IH]; simpl.
  - split; [constructor | reflexivity].
  - destruct (bool_decide (u_hk u ∈ used)) eqn:Hu.
    + apply bool_decide_eq_true in Hu.
      destruct (enqueue_candidate used req rest) as [[r c] |]; simpl.
      * split; [discriminate |]. intros HF. apply Forall_cons in HF as [_ HF].
        apply IH in HF. discriminate.
      * split; [| reflexivity]. intros _. constructor; [assumption | apply IH; reflexivity].
    + apply bool_decide_eq_false in Hu. destruct (enqueue req u) as [req' u'].
      split; [discriminate |].
      intros HF. apply Forall_cons in HF as [Hin _]. contradiction.
Qed.

(** What a launch does to the slab: nothing when it fails, and otherwise it
    only counts the request, marks the host and records an overdrive. *)
Lemma launch_frame now (oreq : option sectorUploadReq) s :
  let r := launch now oreq s in
  sl_shards (l_slab r) = sl_shards s
  ∧ sl_sectors (l_slab r) = sl_sectors s
  ∧ sl_numUploaded (l_slab r) = sl_numUploaded s
  ∧ sl_maxOverdrive (l_slab r) = sl_maxOverdrive s
  ∧ sl_overdriveTimeout (l_slab r) = sl_overdriveTimeout s
  ∧ sl_errs (l_slab r) = sl_errs s
  ∧ length (sl_candidates (l_slab r)) = length (sl_candidates s).
Proof.
  unfold launch. destruct oreq as [req |]; simpl; [| repeat split].
  destruct (enqueue_candidate (sl_used s) req (sl_candidates s)) as [[req' c'] |] eqn:E;
    simpl; [| repeat split].
  apply enqueue_candidate_length in E.
  destruct (req_overdrive req'); simpl; repeat split; assumption.
Qed.

Lemma launch_counters now (oreq : option sectorUploadReq) s :
  let r := launch now oreq s in
  (l_enqueued r = None ∧ l_slab r = s)
  ∨ (∃ req', l_enqueued r = Some req' ∧ l_err r = None
       ∧ sl_numInflight (l_slab r) = u64 (sl_numInflight s + 1)
       ∧ sl_numLaunched (l_slab r) = u64 (sl_numLaunched s + 1)).
Proof.
  unfold launch. destruct oreq as [req |]; simpl; [| left; split; reflexivity].
  destruct (enqueue_candidate (sl_used s) req (sl_candidates s)) as [[req' c'] |] eqn:E;
    simpl; [| left; split; reflexivity].
  right. exists req'. destruct (req_overdrive req'); simpl; repeat split.
Qed.

(** A launch that finds every candidate used: the error is
    [errNoCandidateUploader], the slab is untouched, and the flag returned is
    true exactly for a non-overdrive request whose sector has an empty
    overdriving set. *)
Lemma launch_no_candidate now req s :
  Forall (λ u, u_hk u ∈ sl_used s) (sl_candidates s) →
  launch now (Some req) s
  = mkLaunch (negb (req_overdrive req)
              && (Z.of_nat (size (overdriving_of s (sector_index s req))) =? 0))
      (Some errNoCandidateUploader) None s.
Proof.
  intros HF. apply (enqueue_candidate_None _ req) in HF. unfold launch. rewrite HF. reflexivity.
Qed.

(** The loop's reading of that flag: the relaunch leaves the loop exactly
    when the flag is false. *)
Lemma relaunch_no_candidate now req (st : sys DP) :
  sys_relaunch st = Some req →
  Forall (λ u, u_hk u ∈ sl_used (sys_slab st)) (sl_candidates (sys_slab st)) →
  ∃ st', exec st (Relaunch now) = Some st'
    ∧ sys_slab st' = sys_slab st
    ∧ sys_halted st' = negb (l_interrupt (launch now (Some req) (sys_slab st))).
Proof.
  intros Hreq HF.
  pose proof (launch_no_candidate now req _ HF) as Hl.
  eexists. split; [unfold exec; rewrite Hreq; reflexivity |].
  cbn [sys_slab sys_halted]. unfold relaunch_breaks. rewrite Hl. split; reflexivity.
Qed.

(** What [launch] returns when every candidate's host is in [used]: the
    error [errNoCandidateUploader], an untouched slab, and a flag that is true
    exactly for a non-overdrive request whose sector has no overdrive
    recorded. *)
Theorem launch_interrupt_flag now req s :
  Forall (λ u, u_hk u ∈ sl_used s) (sl_candidates s) →
  let r := launch now (Some req) s in
  l_err r = Some errNoCandidateUploader
  ∧ l_enqueued r = None
  ∧ l_slab r = s
  ∧ (l_interrupt r = true
     ↔ req_overdrive req = false ∧ overdriving_of s (sector_index s req) = ∅).
Proof.
  intros HF r. unfold r. rewrite (launch_no_candidate now req s HF). simpl.
  split; [reflexivity |]. split; [reflexivity |]. split; [reflexivity |]. split.
  - intros Hflag. apply andb_true_iff in Hflag as [Hov Hsize].
    apply negb_true_iff in Hov. apply Z.eqb_eq in Hsize. split; [assumption |].
    apply leibniz_equiv, size_empty_iff. lia.
  - intros [-> ->]. rewrite size_empty. reflexivity.
Qed.

(** The candidate search, when it finds a candidate: the candidates before it
    are all used, it is free, and it alone changes, by the request that
    [enqueue] decorates and appends to its queue. *)
Lemma enqueue_candidate_split used req (cands : list (uploader DP)) req' cands' :
  enqueue_candidate used req cands = Some (req', cands') →
  ∃ pre c post,
    cands = pre ++ c :: post
    ∧ Forall (λ v, u_hk v ∈ used) pre
    ∧ u_hk c ∉ used
    ∧ req' = mkReq (req_lockPriority req) (req_overdrive req) (req_sector req)
               (req_uploadID req) (u_fcid c) (u_hk c)
    ∧ cands' = pre ++ set_queue (u_queue c ++ [req']) c :: post.
Proof.
  revert req' cands'. induction cands as [| u rest IH]; intros req' cands' H; simpl in H.
  - discriminate.
  - destruct (bool_decide (u_hk u ∈ used)) eqn:Hu.
    + apply bool_decide_eq_true in Hu.
      destruct (enqueue_candidate used req rest) as [[r c] |] eqn:E; simpl in H; [| discriminate].
      injection H as <- <-.
      destruct (IH _ _ eq_refl) as (pre & c0 & post & -> & Hpre & Hfree & Hreq & ->).
      exists (u :: pre), c0, post. split; [reflexivity |].
      split; [constructor; assumption |]. split; [assumption |].
      split; [assumption | reflexivity].
    + apply bool_decide_eq_false in Hu. injection H as <- <-.
      exists [], u, rest. split; [reflexivity |]. split; [constructor |].
      split; [assumption |]. split; reflexivity.
Qed.

(** A launch that finds a candidate hands the request to the first candidate
    whose host is not in [used]: the request, decorated with that uploader's
    contract and host, is appended to that uploader's queue and to no other;
    the host joins [used]; the request is counted as launched and as in
    flight; an overdrive request is recorded in the overdrive fields and a
    regular one leaves them alone; no error is reported. *)
Theorem launch_counts_request now req s :
  ¬ Forall (λ u, u_hk u ∈ sl_used s) (sl_candidates s) →
  let r := launch now (Some req) s in
  l_err r = None
  ∧ l_interrupt r = false
  ∧ (∃ req' pre c post,
       l_enqueued r = Some req'
       ∧ req_overdrive req' = req_overdrive req ∧ req_sector req' = req_sector req
       ∧ sl_used (l_slab r) = {[req_hk req']} ∪ sl_used s
       ∧ sl_candidates s = pre ++ c :: post
       ∧ Forall (λ v, u_hk v ∈ sl_used s) pre
       ∧ (u_hk c ∉ sl_used s)
       ∧ req' = mkReq (req_lockPriority req) (req_overdrive req) (req_sector req)
                  (req_uploadID req) (u_fcid c) (u_hk c)
       ∧ sl_candidates (l_slab r) = pre ++ set_queue (u_queue c ++ [req']) c :: post
       ∧ (if req_overdrive req
          then sl_numOverdriving (l_slab r) = u64 (sl_numOverdriving s + 1)
               ∧ sl_lastOverdrive (l_slab r) = now
               ∧ sl_overdriving (l_slab r)
                 = <[sector_index s req' :=
                       {[u_hk c]} ∪ overdriving_of s (sector_index s req')]> (sl_overdriving s)
          else sl_numOverdriving (l_slab r) = sl_numOverdriving s
               ∧ sl_lastOverdrive (l_slab r) = sl_lastOverdrive s
               ∧ sl_overdriving (l_slab r) = sl_overdriving s))
  ∧ sl_numLaunched (l_slab r) = u64 (sl_numLaunched s + 1)
  ∧ sl_numInflight (l_slab r) = u64 (sl_numInflight s + 1)
  ∧ sl_numUploaded (l_slab r) = sl_numUploaded s.
Proof.
  intros HF r. unfold r, launch.
  destruct (enqueue_candidate (sl_used s) req (sl_candidates s)) as [[req' c'] |] eqn:E.
  - destruct (enqueue_candidate_split _ _ _ _ _ E) as (pre & c & post & Hc & Hpre & Hfree & Hreq & Hc').
    assert (req_overdrive req' = req_overdrive req ∧ req_sector req' = req_sector req
            ∧ req_hk req' = u_hk c) as (Ho & Hs & Hhk) by (rewrite Hreq; repeat split).
    rewrite Ho. destruct (req_overdrive req) eqn:Hov; cbn [l_err l_interrupt l_enqueued l_slab
      sl_used sl_candidates sl_numOverdriving sl_lastOverdrive sl_overdriving sl_numLaunched
      sl_numInflight sl_numUploaded];
      (split; [reflexivity |]); (split; [reflexivity |]);
      (split; [| repeat split]);
      exists req', pre, c, post; rewrite Hhk;
      (split; [reflexivity |]); (split; [exact Ho |]);
      (split; [assumption |]); (split; [reflexivity |]); (split; [assumption |]);
      (split; [assumption |]); (split; [assumption |]); (split; [assumption |]);
      (split; [assumption |]); repeat split.
  - apply enqueue_candidate_None in E. contradiction.
Qed.

End SlabFacts.

(** Two shards on three hosts, all used after the first overdrive: the failed
    request of sector 0, which has an overdrive, gets the flag false. *)
Lemma launch_interrupt_flag_all_used :
  let st := the_sys (test_run 2 [1; 2; 3]%N 3 (removelast trace_relaunch_covered)) in
  let r := launch 2500 (Some (mkReq 1 false 0 9%N 101%N 1%N)) (sys_slab st) in
  l_err r = Some errNoCandidateUploader
  ∧ l_enqueued r = None
  ∧ l_slab r = sys_slab st
  ∧ (l_interrupt r = true
     ↔ req_overdrive (mkReq 1 false 0 9%N 101%N 1%N) = false
       ∧ overdriving_of (sys_slab st)
           (sector_index (sys_slab st) (mkReq 1 false 0 9%N 101%N 1%N)) = ∅).
Proof.
  intros st.
  apply (launch_interrupt_flag 2500 (mkReq 1 false 0 9%N 101%N 1%N) (sys_slab st)).
  apply (bool_decide_unpack _). vm_compute. exact I.
Defined.

(** The first launch on a fresh slab goes to host 1 and into its queue. *)
Lemma launch_counts_request_fresh :
  let req := mkReq 1 false 0 9%N zeroFCID 0%N in
  let r := launch 0 (Some req) fresh_slab in
  l_err r = None
  ∧ l_interrupt r = false
  ∧ (∃ req' pre c post,
       l_enqueued r = Some req'
       ∧ req_overdrive req' = req_overdrive req ∧ req_sector req' = req_sector req
       ∧ sl_used (l_slab r) = {[req_hk req']} ∪ sl_used fresh_slab
       ∧ sl_candidates fresh_slab = pre ++ c :: post
       ∧ Forall (λ v, u_hk v ∈ sl_used fresh_slab) pre
       ∧ (u_hk c ∉ sl_used fresh_slab)
       ∧ req' = mkReq (req_lockPriority req) (req_overdrive req) (req_sector req)
                  (req_uploadID req) (u_fcid c) (u_hk c)
       ∧ sl_candidates (l_slab r) = pre ++ set_queue (u_queue c ++ [req']) c :: post
       ∧ (if req_overdrive req
          then sl_numOverdriving (l_slab r) = u64 (sl_numOverdriving fresh_slab + 1)
               ∧ sl_lastOverdrive (l_slab r) = 0
               ∧ sl_overdriving (l_slab r)
                 = <[sector_index fresh_slab req' :=
                       {[u_hk c]} ∪ overdriving_of fresh_slab (sector_index fresh_slab req')]>
                     (sl_overdriving fresh_slab)
          else sl_numOverdriving (l_slab r) = sl_numOverdriving fresh_slab
               ∧ sl_lastOverdrive (l_slab r) = sl_lastOverdrive fresh_slab
               ∧ sl_overdriving (l_slab r) = sl_overdriving fresh_slab))
  ∧ sl_numLaunched (l_slab r) = u64 (sl_numLaunched fresh_slab + 1)
  ∧ sl_numInflight (l_slab r) = u64 (sl_numInflight fresh_slab + 1)
  ∧ sl_numUploaded (l_slab r) = sl_numUploaded fresh_slab.
Proof.
  intros req.
  apply (launch_counts_request 0 req fresh_slab).
  apply (bool_decide_unpack _). vm_compute. exact I.
Defined.

(** ** [nextRequest] *)

Section NextRequest.
Context {DP : Type} `{!DataPointsAPI DP}.
Implicit Types (s : slabUpload DP).

Lemma nextSector_snoc order k s :
  nextSector (order ++ [k]) s = if eligible s k then Some k else nextSector order s.
Proof.
  unfold nextSector, eligible. rewrite foldl_snoc.
  destruct (sl_sectors s !! k) as [sector |]; reflexivity.
Qed.

(** The loop keeps the last eligible key it visits, whatever the numbers of
    overdrives. *)
Lemma nextSector_last order s :
  nextSector order s = last (filter (λ k, eligible s k = true) order).
Proof.
  induction order as [| k order IH] using rev_ind; [reflexivity |].
  rewrite nextSector_snoc, filter_app, IH. simpl.
  rewrite filter_cons, filter_nil.
  destruct (decide (eligible s k = true)) as [-> | Hne].
  - rewrite last_snoc. reflexivity.
  - apply not_true_is_false in Hne. rewrite Hne, app_nil_r. reflexivity.
Qed.

(** The parts of [nextRequest] that hold whatever the order: a request it
    returns is an overdrive request for a sector that is not uploaded, and it
    returns none only when every sector it visited is uploaded (or has
    [MaxInt] overdrives). *)
Theorem nextRequest_sound order s :
  match nextRequest order s with
  | Some req =>
      req_overdrive req = true
      ∧ req_sector req ∈ order
      ∧ ∃ sector, sl_sectors s !! req_sector req = Some sector ∧ isUploaded sector = false
  | None =>
      ∀ k sector, k ∈ order → sl_sectors s !! k = Some sector →
        Z.of_nat (size (overdriving_of s (su_index sector))) < MaxInt →
        isUploaded sector = true
  end.
Proof.
  unfold nextRequest. rewrite nextSector_last.
  destruct (last (filter (λ k, eligible s k = true) order)) as [k |] eqn:Hlast.
  - apply last_Some_elem_of, list_elem_of_filter in Hlast as [Hel Hin]. simpl.
    split; [reflexivity |]. split; [assumption |].
    unfold eligible in Hel. destruct (sl_sectors s !! k) as [sector |]; [| discriminate].
    exists sector. split; [reflexivity |].
    apply andb_true_iff in Hel as [Hup _]. apply negb_true_iff in Hup. assumption.
  - apply last_None in Hlast. intros k sector Hin Hs Hlt.
    destruct (isUploaded sector) eqn:Hup; [reflexivity | exfalso].
    assert (k ∈ filter (λ k, eligible s k = true) order) as Hf.
    { apply list_elem_of_filter. split; [| assumption].
      unfold eligible. rewrite Hs, Hup. simpl. apply Z.ltb_lt. assumption. }
    rewrite Hlast in Hf. apply elem_of_nil in Hf. assumption.
Qed.

End NextRequest.

(** C4 (the failing input). Sectors 0 and 1 are both not uploaded, sector 0
    has one overdrive and sector 1 has none. When the runtime visits the
    sectors in the order 1, 0, [nextRequest] returns an overdrive request for
    sector 0, which does not have the fewest overdrives. *)
Theorem nextRequest_ignores_overdrive_counts :
  match state_one_overdrive with
  | Some s =>
      (isUploaded <$> sl_sectors s !! 0%nat) = Some false
      ∧ (isUploaded <$> sl_sectors s !! 1%nat) = Some false
      ∧ size (overdriving_of s 0) = 1%nat
      ∧ size (overdriving_of s 1) = 0%nat
      ∧ visits_keys [1; 0]%nat s = true
      ∧ (req_sector <$> nextRequest [1; 0]%nat s) = Some 0%nat
      ∧ (req_overdrive <$> nextRequest [1; 0]%nat s) = Some true
  | None => False
  end.
Proof. vm_compute. repeat split. Qed.

(** ** The relaunch after a failed response *)

(** C6 (the failing inputs). In the first run the failed request of sector 0
    finds no free host while an overdrive of sector 0 is in flight: [launch]
    returns [errNoCandidateUploader] with the flag false, and the loop of
    [uploadShards] is left, so that [finish] reports the slab as failed. In
    the second run no overdrive exists: [launch] returns the flag true, and
    the loop goes on. *)
Theorem relaunch_break_is_inverted :
  match test_run 2 [1; 2; 3]%N 3 (removelast trace_relaunch_covered),
        test_run 2 [1; 2; 3]%N 3 trace_relaunch_covered,
        test_run 2 [1; 2]%N 3 (removelast trace_relaunch_uncovered),
        test_run 2 [1; 2]%N 3 trace_relaunch_uncovered with
  | Some c, Some c', Some n, Some n' =>
      (req_overdrive <$> sys_relaunch c) = Some false
      ∧ (req_sector <$> sys_relaunch c) = Some 0%nat
      ∧ map (λ r, (req_overdrive r, req_sector r)) (sys_pending c)
        = [(false, 1%nat); (true, 0%nat)]
      ∧ l_err (launch 2500 (sys_relaunch c) (sys_slab c)) = Some errNoCandidateUploader
      ∧ l_interrupt (launch 2500 (sys_relaunch c) (sys_slab c)) = false
      ∧ sys_halted c = false ∧ sys_halted c' = true
      ∧ (is_inl <$> finish (sys_slab c')) = Some true
      ∧ (req_overdrive <$> sys_relaunch n) = Some false
      ∧ map (λ r, (req_overdrive r, req_sector r)) (sys_pending n) = [(false, 1%nat)]
      ∧ l_err (launch 500 (sys_relaunch n) (sys_slab n)) = Some errNoCandidateUploader
      ∧ l_interrupt (launch 500 (sys_relaunch n) (sys_slab n)) = true
      ∧ sys_halted n = false ∧ sys_halted n' = false
      ∧ inflight (sys_slab n') = 1
  | _, _, _, _ => False
  end.
Proof. vm_compute. repeat split. Qed.

(** ** [receive] *)

Section Receive.
Context {DP : Type} `{!DataPointsAPI DP}.
Implicit Types (s : slabUpload DP) (st : sys DP) (req : sectorUploadReq).

(** The three outcomes of [receive]. *)
Lemma receive_cases resp s done s' :
  receive resp s = Some (done, s') →
  ∃ sector,
    sl_sectors s !! req_sector (resp_req resp) = Some sector
    ∧ length (sl_shards s') = length (sl_shards s)
    ∧ sl_maxOverdrive s' = sl_maxOverdrive s
    ∧ sl_overdriveTimeout s' = sl_overdriveTimeout s
    ∧ sl_numLaunched s' = sl_numLaunched s
    ∧ sl_numInflight s' = u64 (sl_numInflight s - 1)
    ∧ ((is_Some (resp_err resp) ∧ done = false
        ∧ sl_sectors s' = sl_sectors s ∧ sl_numUploaded s' = sl_numUploaded s)
       ∨ (resp_err resp = None ∧ isUploaded sector = true ∧ done = false
          ∧ sl_sectors s' = sl_sectors s ∧ sl_numUploaded s' = sl_numUploaded s)
       ∨ (resp_err resp = None ∧ isUploaded sector = false
          ∧ (su_index sector < length (sl_shards s))%nat
          ∧ sl_sectors s'
            = <[req_sector (resp_req resp) := installed (resp_req resp) (resp_root resp) sector]>
                (sl_sectors s)
          ∧ sl_numUploaded s' = u64 (sl_numUploaded s + 1)
          ∧ done = (sl_numUploaded s' =? u64 (Z.of_nat (length (sl_shards s)))))).
Proof.
  unfold receive. intros H.
  destruct (sl_sectors s !! req_sector (resp_req resp)) as [sector |] eqn:Hsec;
    simpl in H; [| discriminate].
  exists sector. split; [reflexivity |].
  destruct (resp_err resp) as [e |] eqn:He.
  - injection H as <- <-. simpl. repeat split. left. repeat split. eauto.
  - destruct (isUploaded sector) eqn:Hup.
    + injection H as <- <-. simpl. repeat split. right. left. repeat split.
    + destruct (bool_decide (su_index sector < length (sl_shards s))%nat) eqn:Hlt;
        [| discriminate].
      apply bool_decide_eq_true in Hlt.
      injection H as <- <-. simpl. rewrite length_insert. repeat split.
      right. right. repeat split. assumption.
Qed.

(** A successful response for a sector that is not uploaded installs
    [{root, host, [contract]}] and counts the sector. *)
Lemma receive_install req root s sector :
  sl_sectors s !! req_sector req = Some sector →
  isUploaded sector = false →
  (su_index sector < length (sl_shards s))%nat →
  ∃ done s', receive (mkResp req root None) s = Some (done, s')
    ∧ sl_sectors s' !! req_sector req = Some (installed req root sector)
    ∧ sl_numUploaded s' = u64 (sl_numUploaded s + 1).
Proof.
  intros Hsec Hup Hlt. unfold receive. simpl. rewrite Hsec. simpl. rewrite Hup.
  rewrite bool_decide_eq_true_2 by assumption.
  eexists _, _. split; [reflexivity |]. simpl. split; [| reflexivity].
  apply lookup_insert_eq.
Qed.

(** A successful response for a sector that is uploaded changes neither the
    sectors nor the number of uploaded sectors. *)
Lemma receive_redundant req root s sector :
  sl_sectors s !! req_sector req = Some sector →
  isUploaded sector = true →
  ∃ s', receive (mkResp req root None) s = Some (false, s')
    ∧ sl_sectors s' = sl_sectors s
    ∧ sl_numUploaded s' = sl_numUploaded s.
Proof.
  intros Hsec Hup. unfold receive. simpl. rewrite Hsec. simpl. rewrite Hup.
  eexists. split; [reflexivity |]. split; reflexivity.
Qed.

Lemma receive_keeps_uploaded resp s done s' i sector :
  receive resp s = Some (done, s') →
  sl_sectors s !! i = Some sector →
  isUploaded sector = true →
  sl_sectors s' !! i = Some sector.
Proof.
  intros Hr Hi Hup. apply receive_cases in Hr as (sec & Hsec & _ & _ & _ & _ & _ & Hc).
  destruct Hc as [(_ & _ & -> & _) | [(_ & _ & _ & -> & _) | (_ & Hnot & _ & -> & _)]];
    try assumption.
  destruct (decide (req_sector (resp_req resp) = i)) as [<- | Hne].
  - rewrite Hsec in Hi. injection Hi as ->. congruence.
  - rewrite lookup_insert_ne by assumption. assumption.
Qed.

(** No transition changes the record of an uploaded sector. *)
Lemma exec_keeps_uploaded st ev st' i sector :
  exec st ev = Some st' →
  sl_sectors (sys_slab st) !! i = Some sector →
  isUploaded sector = true →
  sl_sectors (sys_slab st') !! i = Some sector.
Proof.
  intros Hex Hi Hup. destruct ev as [k root err | k | k | now | now | order | now];
    unfold exec in Hex.
  - destruct (sys_halted st || bool_decide (is_Some (sys_relaunch st))
              || (inflight (sys_slab st) =? 0)); [discriminate |].
    destruct (sys_pending st !! k) as [req |]; simpl in Hex; [| discriminate].
    destruct (negb (head_of_host (sys_pending st) k req)); [discriminate |].
    destruct (sl_sectors (sys_slab st) !! req_sector req) as [sec |]; simpl in Hex;
      [| discriminate].
    destruct (receive (mkResp req root err) (sys_slab st)) as [[done s'] |] eqn:Hr;
      simpl in Hex; [| discriminate].
    injection Hex as <-. simpl. eapply receive_keeps_uploaded; eassumption.
  - destruct (sys_pending st !! k) as [req |]; simpl in Hex; [| discriminate].
    destruct (head_of_host (sys_pending st) k req && req_done (sys_slab st) req);
      [| discriminate].
    injection Hex as <-. assumption.
  - destruct (sys_pending st !! k) as [req |]; simpl in Hex; [| discriminate].
    destruct (head_of_host (sys_pending st) k req && negb (req_done (sys_slab st) req));
      [| discriminate].
    injection Hex as <-. assumption.
  - destruct (sys_relaunch st) as [req |]; simpl in Hex; [| discriminate].
    injection Hex as <-. cbn [sys_slab].
    pose proof (launch_frame now (Some req) (sys_slab st)) as (_ & -> & _). assumption.
  - destruct (sys_timer st); try discriminate.
    destruct (sl_overdriveTimeout (sys_slab st) =? 0); [discriminate |].
    injection Hex as <-. assumption.
  - destruct (sys_timer st); try discriminate.
    destruct (visits_keys order (sys_slab st)); [| discriminate].
    injection Hex as <-. assumption.
  - destruct (sys_timer st) as [| | oreq]; try discriminate.
    injection Hex as <-. cbn [sys_slab].
    pose proof (launch_frame now oreq (sys_slab st)) as (_ & -> & _). assumption.
Qed.

Lemma run_keeps_uploaded tr st st' i sector :
  run st tr = Some st' →
  sl_sectors (sys_slab st) !! i = Some sector →
  isUploaded sector = true →
  sl_sectors (sys_slab st') !! i = Some sector.
Proof.
  revert st. induction tr as [| ev tr IH]; intros st Hrun Hi Hup; simpl in Hrun.
  - injection Hrun as <-. assumption.
  - destruct (exec st ev) as [st1 |] eqn:Hex; simpl in Hrun; [| discriminate].
    eapply IH; [eassumption | | assumption].
    eapply exec_keeps_uploaded; eassumption.
Qed.

(** What a [Respond] transition is made of. *)
Lemma exec_Respond st k root err st' :
  exec st (Respond k root err) = Some st' →
  ∃ req sector done s',
    sys_halted st = false ∧ sys_relaunch st = None ∧ inflight (sys_slab st) ≠ 0
    ∧ sys_pending st !! k = Some req
    ∧ sl_sectors (sys_slab st) !! req_sector req = Some sector
    ∧ receive (mkResp req root err) (sys_slab st) = Some (done, s')
    ∧ st' = mkSys s' (delete k (sys_pending st))
              (if negb done && bool_decide (is_Some err) && negb (req_overdrive req)
               then Some req else None)
              (sys_timer st) done
              (sys_failed st + match err with Some _ => 1 | None => 0 end)
              (sys_redundant st + match err with
                                  | Some _ => 0
                                  | None => if isUploaded sector then 1 else 0
                                  end).
Proof.
  unfold exec. intros Hex.
  destruct (sys_halted st) eqn:Hh; [discriminate |].
  destruct (sys_relaunch st) as [r |] eqn:Hrl; [discriminate |].
  simpl in Hex.
  destruct (inflight (sys_slab st) =? 0) eqn:Hin; [discriminate |].
  destruct (sys_pending st !! k) as [req |]; simpl in Hex; [| discriminate].
  destruct (negb (head_of_host (sys_pending st) k req)); [discriminate |].
  destruct (sl_sectors (sys_slab st) !! req_sector req) as [sec |] eqn:Hsec; simpl in Hex;
    [| discriminate].
  destruct (receive (mkResp req root err) (sys_slab st)) as [[done s'] |] eqn:Hr;
    simpl in Hex; [| discriminate].
  injection Hex as <-. exists req, sec, done, s'.
  apply Z.eqb_neq in Hin. repeat split; assumption.
Qed.

(** C1. A successful response with a non-zero root (a Merkle root) for
    a sector that is not uploaded installs [{root, host, [contract]}] from
    that response and increments [numUploaded]; from then on no run changes
    the sector's record, and a later successful response for the same sector
    changes neither the sectors nor [numUploaded]. *)
Theorem first_success_wins (st st1 st2 st3 : sys DP) (tr : list event)
    (k k' : nat) (root root' : Hash256) (req req' : sectorUploadReq) (sector : sectorUpload) :
  sys_pending st !! k = Some req →
  sl_sectors (sys_slab st) !! req_sector req = Some sector →
  isUploaded sector = false →
  root ≠ zeroHash →
  exec st (Respond k root None) = Some st1 →
  run st1 tr = Some st2 →
  sys_pending st2 !! k' = Some req' →
  req_sector req' = req_sector req →
  exec st2 (Respond k' root' None) = Some st3 →
  (su_uploaded <$> sl_sectors (sys_slab st1) !! req_sector req)
    = Some (mkSector {[req_hk req := [req_fcid req]]} (req_hk req) root)
  ∧ sl_numUploaded (sys_slab st1) = u64 (sl_numUploaded (sys_slab st) + 1)
  ∧ sl_sectors (sys_slab st2) !! req_sector req = sl_sectors (sys_slab st1) !! req_sector req
  ∧ sl_sectors (sys_slab st3) = sl_sectors (sys_slab st2)
  ∧ sl_numUploaded (sys_slab st3) = sl_numUploaded (sys_slab st2).
Proof.
  intros Hk Hsec Hup Hroot Hex1 Hrun Hk' Hsame Hex3.
  apply exec_Respond in Hex1 as (r & sec & done & s' & _ & _ & _ & Hr & Hs & Hrecv & ->).
  rewrite Hk in Hr. injection Hr as <-. rewrite Hsec in Hs. injection Hs as <-.
  apply receive_cases in Hrecv as (sec & Hsec' & Hlen & _ & _ & _ & _ & Hc). simpl in *.
  rewrite Hsec in Hsec'. injection Hsec' as <-.
  destruct Hc as [([e He] & _) | [(_ & Hup' & _) | (_ & _ & Hlt & Hins & Hnum & _)]];
    [discriminate | congruence |].
  assert (sl_sectors s' !! req_sector req = Some (installed req root sector)) as Hinst
    by (rewrite Hins; apply lookup_insert_eq).
  assert (isUploaded (installed req root sector) = true) as Hup1.
  { unfold isUploaded, installed. simpl. apply negb_true_iff, N.eqb_neq. assumption. }
  pose proof (run_keeps_uploaded tr _ _ _ _ Hrun Hinst Hup1) as Hst2.
  apply exec_Respond in Hex3 as (r & sec & done' & s3 & _ & _ & _ & Hr & Hs & Hrecv & ->).
  rewrite Hk' in Hr. injection Hr as <-. rewrite Hsame, Hst2 in Hs. injection Hs as <-.
  rewrite <- Hsame in Hst2.
  destruct (receive_redundant req' root' _ _ Hst2 Hup1) as (s3' & Hrecv' & Hsecs & Hn).
  rewrite Hrecv' in Hrecv. injection Hrecv as <- <-. simpl.
  rewrite Hsame in Hst2.
  repeat split; try assumption.
  - rewrite Hinst. reflexivity.
  - rewrite Hst2, Hinst. reflexivity.
Qed.

End Receive.

(** Two shards on three hosts: host 1 uploads sector 0 with root 5; after
    another tick of the timer the overdrive of sector 0 on host 3 succeeds as
    well. *)
Lemma first_success_wins_duplicate :
  let st := the_sys (test_run 2 [1; 2; 3]%N 3 (tick 2000 [1; 0]%nat)) in
  let st1 := the_sys (test_run 2 [1; 2; 3]%N 3 trace_duplicate_first) in
  let st2 := the_sys (test_run 2 [1; 2; 3]%N 3 (trace_duplicate_first ++ trace_duplicate_mid)) in
  let st3 := the_sys (test_run 2 [1; 2; 3]%N 3 trace_duplicate) in
  (su_uploaded <$> sl_sectors (sys_slab st1) !! 0%nat)
    = Some (mkSector {[1%N := [101%N]]} 1%N 5%N)
  ∧ sl_numUploaded (sys_slab st1) = u64 (sl_numUploaded (sys_slab st) + 1)
  ∧ sl_sectors (sys_slab st2) !! 0%nat = sl_sectors (sys_slab st1) !! 0%nat
  ∧ sl_sectors (sys_slab st3) = sl_sectors (sys_slab st2)
  ∧ sl_numUploaded (sys_slab st3) = sl_numUploaded (sys_slab st2).
Proof.
  intros st st1 st2 st3.
  apply (first_success_wins st st1 st2 st3 trace_duplicate_mid 0 1 5%N 5%N
           (mkReq 1 false 0 9%N 101%N 1%N) (mkReq 1 true 0 9%N 103%N 3%N)
           (mkSectorUpload (Some []) 0 1%N zeroSector false));
    try (vm_compute; reflexivity).
  vm_compute. discriminate.
Defined.

(** Why the root above is taken non-zero: [receive] reads the zero root as
    the mark of a sector that is not uploaded. Were a success to carry the
    zero root, which no Merkle root of a sector is expected to be, the record
    it installs would not count as uploaded, and a second success for the
    sector would replace it and count the sector again. *)
Lemma later_success_after_zero_root :
  match test_run 2 [1; 2; 3]%N 3 trace_zero_root_first,
        test_run 2 [1; 2; 3]%N 3 trace_zero_root with
  | Some st1, Some st2 =>
      (LatestHost ∘ su_uploaded <$> sl_sectors (sys_slab st1) !! 0%nat) = Some 1%N
      ∧ sl_numUploaded (sys_slab st1) = 1
      ∧ (LatestHost ∘ su_uploaded <$> sl_sectors (sys_slab st2) !! 0%nat) = Some 3%N
      ∧ (Root ∘ su_uploaded <$> sl_sectors (sys_slab st2) !! 0%nat) = Some 77%N
      ∧ sl_numUploaded (sys_slab st2) = 2
      ∧ sl_sectors (sys_slab st2) ≠ sl_sectors (sys_slab st1)
  | _, _ => False
  end.
Proof.
  vm_compute. repeat split. intros H. discriminate.
Qed.

(** ** Runs of the slab upload *)

Section Runs.
Context {DP : Type} `{!DataPointsAPI DP}.
Variable SectorRoot : list Byte.byte → Hash256.
Implicit Types (s : slabUpload DP) (st : sys DP) (req : sectorUploadReq).

(** The transitions, case by case. *)
Lemma exec_cases st ev st' :
  exec st ev = Some st' →
  (∃ k root err, ev = Respond k root err)
  ∨ (sys_slab st' = sys_slab st ∧ sys_relaunch st' = sys_relaunch st
     ∧ sys_timer st' = sys_timer st ∧ sys_halted st' = sys_halted st
     ∧ sys_failed st' = sys_failed st ∧ sys_redundant st' = sys_redundant st)
  ∨ (∃ now req, ev = Relaunch now ∧ sys_relaunch st = Some req
       ∧ st' = mkSys (l_slab (launch now (Some req) (sys_slab st)))
                 (sys_pending st ++ option_list (l_enqueued (launch now (Some req) (sys_slab st))))
                 None (sys_timer st) (relaunch_breaks (launch now (Some req) (sys_slab st)))
                 (sys_failed st) (sys_redundant st))
  ∨ (∃ now, ev = TimerCheck now ∧ sys_timer st = TimerIdle
       ∧ sl_overdriveTimeout (sys_slab st) ≠ 0
       ∧ st' = mkSys (sys_slab st) (sys_pending st) (sys_relaunch st)
                 (if canOverdrive now (sys_slab st) then TimerChecked else TimerIdle)
                 (sys_halted st) (sys_failed st) (sys_redundant st))
  ∨ (∃ order, ev = TimerNext order ∧ sys_timer st = TimerChecked
       ∧ st' = mkSys (sys_slab st) (sys_pending st) (sys_relaunch st)
                 (TimerPicked (nextRequest order (sys_slab st)))
                 (sys_halted st) (sys_failed st) (sys_redundant st))
  ∨ (∃ now oreq, ev = TimerLaunch now ∧ sys_timer st = TimerPicked oreq
       ∧ st' = mkSys (l_slab (launch now oreq (sys_slab st)))
                 (sys_pending st ++ option_list (l_enqueued (launch now oreq (sys_slab st))))
                 (sys_relaunch st) TimerIdle
                 (sys_halted st) (sys_failed st) (sys_redundant st)).
Proof.
  intros Hex. destruct ev as [k root err | k | k | now | now | order | now];
    unfold exec in Hex.
  - left. eauto.
  - right. left.
    destruct (sys_pending st !! k) as [req |]; simpl in Hex; [| discriminate].
    destruct (head_of_host (sys_pending st) k req && req_done (sys_slab st) req);
      [| discriminate].
    injection Hex as <-. repeat split.
  - right. left.
    destruct (sys_pending st !! k) as [req |]; simpl in Hex; [| discriminate].
    destruct (head_of_host (sys_pending st) k req && negb (req_done (sys_slab st) req));
      [| discriminate].
    injection Hex as <-. repeat split.
  - right. right. left.
    destruct (sys_relaunch st) as [req |] eqn:Hrl; simpl in Hex; [| discriminate].
    injection Hex as <-. eauto.
  - right. right. right. left.
    destruct (sys_timer st) eqn:Ht; try discriminate.
    destruct (sl_overdriveTimeout (sys_slab st) =? 0) eqn:Hz; [discriminate |].
    injection Hex as <-. apply Z.eqb_neq in Hz. eauto.
  - right. right. right. right. left.
    destruct (sys_timer st) eqn:Ht; try discriminate.
    destruct (visits_keys order (sys_slab st)); [| discriminate].
    injection Hex as <-. eauto.
  - right. right. right. right. right.
    destruct (sys_timer st) as [| | oreq] eqn:Ht; try discriminate.
    injection Hex as <-. eauto.
Qed.

(** A property that every transition preserves holds along every run. *)
Lemma run_invariant (P : sys DP → Prop) :
  (∀ st ev st', P st → exec st ev = Some st' → P st') →
  ∀ tr st st', P st → run st tr = Some st' → P st'.
Proof.
  intros Hstep tr. induction tr as [| ev tr IH]; intros st st' HP Hrun; simpl in Hrun.
  - injection Hrun as <-. assumption.
  - destruct (exec st ev) as [st1 |] eqn:Hex; simpl in Hrun; [| discriminate].
    eapply IH; [| eassumption]. eapply Hstep; eassumption.
Qed.

(** *** The counters add up *)

Lemma launch_accounted now oreq s c :
  sl_numLaunched s = u64 (sl_numUploaded s + sl_numInflight s + c) →
  0 ≤ sl_numInflight s →
  sl_numLaunched (l_slab (launch now oreq s))
  = u64 (sl_numUploaded (l_slab (launch now oreq s))
         + sl_numInflight (l_slab (launch now oreq s)) + c)
  ∧ 0 ≤ sl_numInflight (l_slab (launch now oreq s)).
Proof.
  intros Hacc Hin.
  pose proof (launch_frame now oreq s) as (_ & _ & HU & _).
  destruct (launch_counters now oreq s) as [(_ & ->) | (req' & _ & _ & HI & HL)];
    [split; assumption |].
  rewrite HU, HI, HL, Hacc. split; u64_lia.
Qed.

Lemma exec_accounted st ev st' : accounted st → exec st ev = Some st' → accounted st'.
Proof.
  intros (Hacc & HU & HI & HF & HR) Hex. unfold accounted.
  destruct (exec_cases _ _ _ Hex) as
    [(k & root & err & ->) | [(Hs & _ & _ & _ & Hf & Hr) |
     [(now & req & -> & Hrl & ->) | [(now & -> & _ & _ & ->) |
     [(order & -> & _ & ->) | (now & oreq & -> & _ & ->)]]]]];
    cbn [sys_slab sys_failed sys_redundant]; try (repeat split; assumption).
  - apply exec_Respond in Hex as (req & sector & done & s' & _ & _ & _ & _ & Hsec & Hr & ->).
    apply receive_cases in Hr as (sec & Hsec' & _ & _ & _ & HL & HI' & Hc).
    cbn [sys_slab sys_failed sys_redundant resp_req resp_err] in *.
    rewrite Hsec in Hsec'. injection Hsec' as <-.
    rewrite HL, HI', Hacc.
    destruct Hc as [([e ->] & _ & _ & ->) | [(-> & -> & _ & _ & ->) | (-> & -> & _ & _ & -> & _)]];
      repeat split; u64_lia.
  - rewrite Hs, Hf, Hr. repeat split; assumption.
  - pose proof (launch_frame now (Some req) (sys_slab st)) as (_ & _ & HU' & _).
    destruct (launch_accounted now (Some req) (sys_slab st) (sys_failed st + sys_redundant st))
      as [HL HI']; [rewrite Hacc; f_equal; lia | assumption |].
    rewrite HL, HU'. repeat split; try assumption. f_equal. lia.
  - pose proof (launch_frame now oreq (sys_slab st)) as (_ & _ & HU' & _).
    destruct (launch_accounted now oreq (sys_slab st) (sys_failed st + sys_redundant st))
      as [HL HI']; [rewrite Hacc; f_equal; lia | assumption |].
    rewrite HL, HU'. repeat split; try assumption. f_equal. lia.
Qed.

Lemma launch_all_accounted now requests s pending s' pending' :
  launch_all now requests s pending = inr (s', pending') →
  sl_numLaunched s = u64 (sl_numUploaded s + sl_numInflight s + 0) →
  0 ≤ sl_numInflight s →
  sl_numLaunched s' = u64 (sl_numUploaded s' + sl_numInflight s' + 0)
  ∧ 0 ≤ sl_numInflight s' ∧ sl_numUploaded s' = sl_numUploaded s.
Proof.
  revert s pending. induction requests as [| req rest IH]; intros s pending Hall Hacc HI;
    simpl in Hall.
  - injection Hall as <- <-. repeat split; assumption.
  - destruct (l_err (launch now (Some req) s)) eqn:He; [discriminate |].
    destruct (launch_accounted now (Some req) s 0 Hacc HI) as [HL HI'].
    pose proof (launch_frame now (Some req) s) as (_ & _ & HU & _).
    destruct (IH _ _ Hall HL HI') as (H1 & H2 & H3).
    repeat split; try assumption. congruence.
Qed.

Lemma start_accounted now u shards candidates mem maxOverdrive overdriveTimeout st0 :
  uploadShards_start SectorRoot now u shards candidates mem maxOverdrive overdriveTimeout
  = inr st0 →
  accounted st0.
Proof.
  unfold uploadShards_start, newSlabUpload. intros Hst.
  destruct (prepare_sectors SectorRoot (up_lockPriority u) (up_id u) 0 shards)
    as [sectors requests].
  destruct (launch_all _ _ _ _) as [e | [s pending]] eqn:Hall; [discriminate |].
  injection Hst as <-.
  apply launch_all_accounted in Hall as (HL & HI & HU); [| reflexivity | simpl; lia].
  unfold accounted. simpl in *. rewrite HU.
  repeat split; try lia. rewrite HL, HU. f_equal. lia.
Qed.

(** C8 (as the code has it). In every state that [uploadShards] reaches,
    [numLaunched] is the sum, modulo 2^64, of [numUploaded], [numInflight],
    the number of failed responses and the number of late duplicate
    successes; it is that sum itself when the sum is below 2^64. *)
Theorem launched_accounting now u shards candidates mem maxOverdrive overdriveTimeout
    (st0 st : sys DP) (tr : list event) :
  uploadShards_start SectorRoot now u shards candidates mem maxOverdrive overdriveTimeout
  = inr st0 →
  run st0 tr = Some st →
  let s := sys_slab st in
  sl_numLaunched s
  = u64 (sl_numUploaded s + sl_numInflight s + sys_failed st + sys_redundant st)
  ∧ (sl_numUploaded s + sl_numInflight s + sys_failed st + sys_redundant st < 2 ^ 64 →
     sl_numLaunched s
     = sl_numUploaded s + sl_numInflight s + sys_failed st + sys_redundant st).
Proof.
  intros Hst Hrun s.
  assert (accounted st) as (Hacc & HU & HI & HF & HR).
  { eapply (run_invariant accounted); [apply exec_accounted | | eassumption].
    eapply start_accounted. eassumption. }
  split; [assumption |]. intros Hlt. fold s in Hacc, HU, HI.
  rewrite Hacc. apply u64_small. lia.
Qed.

(** *** The bound on the requests in flight *)

Lemma canOverdrive_true now s :
  canOverdrive now s = true →
  let remaining := u64 (u64 (Z.of_nat (length (sl_shards s))) - sl_numUploaded s) in
  remaining < sl_maxOverdrive s ∧ u64 (sl_numInflight s - remaining) < sl_maxOverdrive s.
Proof.
  unfold canOverdrive. cbv zeta.
  set (remaining := u64 (u64 (Z.of_nat (length (sl_shards s))) - sl_numUploaded s)).
  intros H.
  destruct (sl_maxOverdrive s <=? remaining) eqn:H1; [discriminate |].
  destruct (time_Since now (sl_lastOverdrive s) <? sl_overdriveTimeout s); [discriminate |].
  destruct (sl_maxOverdrive s <=? u64 (sl_numInflight s - remaining)) eqn:H2; [discriminate |].
  apply Z.leb_gt in H1, H2. split; assumption.
Qed.

Lemma launch_inflight now oreq s :
  0 ≤ sl_numInflight s →
  0 ≤ sl_numInflight (l_slab (launch now oreq s)) < 2 ^ 64 ∨ l_slab (launch now oreq s) = s.
Proof.
  intros HI. destruct (launch_counters now oreq s) as [(_ & ->) | (req' & _ & _ & -> & _)];
    [right; reflexivity | left; apply u64_range].
Qed.

Lemma launch_inflight_le now oreq s :
  0 ≤ sl_numInflight s →
  sl_numInflight (l_slab (launch now oreq s)) ≤ sl_numInflight s + 1.
Proof.
  intros HI. destruct (launch_counters now oreq s) as [(_ & ->) | (req' & _ & _ & -> & _)];
    [lia |]. apply u64_le. lia.
Qed.

Lemma launch_bounded now oreq s :
  0 ≤ sl_numInflight s < 2 ^ 64 →
  0 ≤ sl_numInflight (l_slab (launch now oreq s)) < 2 ^ 64
  ∧ sl_numInflight (l_slab (launch now oreq s)) ≤ sl_numInflight s + 1.
Proof.
  intros HI. split; [| apply launch_inflight_le; lia].
  destruct (launch_inflight now oreq s) as [H | ->]; [lia | assumption | assumption].
Qed.

Lemma exec_inflight_bounded st ev st' :
  0 ≤ sl_maxOverdrive (sys_slab st) →
  Z.of_nat (length (sl_shards (sys_slab st))) < 2 ^ 64 →
  inflight_bounded st → exec st ev = Some st' → inflight_bounded st'.
Proof.
  intros Hk HN (HI & HU & Hhalt & Hrl & Hb) Hex. unfold inflight_bounded, pending_launches in *.
  destruct (exec_cases _ _ _ Hex) as
    [(k & root & err & ->) | [(Hs & Hr & Ht & Hh & _ & _) |
     [(now & req & -> & Hreq & ->) | [(now & -> & Htm & _ & ->) |
     [(order & -> & Htm & ->) | (now & oreq & -> & Htm & ->)]]]]];
    cbn [sys_slab sys_relaunch sys_timer sys_halted] in *.
  - apply exec_Respond in Hex as (req & sector & done & s' & Hh & Hnone & Hin & _ & Hsec & Hr & ->).
    apply receive_cases in Hr as (sec & Hsec' & Hlen & Hk' & _ & _ & HI' & Hc).
    cbn [sys_slab sys_relaunch sys_timer sys_halted resp_req resp_err] in *.
    rewrite Hsec in Hsec'. injection Hsec' as <-.
    rewrite Hnone in Hb. unfold inflight in Hin.
    specialize (Hhalt Hh). rewrite Hlen, Hk', HI'.
    assert (u64 (sl_numInflight (sys_slab st) - 1) = sl_numInflight (sys_slab st) - 1) as ->
      by (apply u64_small; lia).
    destruct Hc as [(_ & -> & _ & ->) | [(-> & _ & -> & _ & ->) | (-> & _ & Hlt & _ & HU' & ->)]].
    + split; [lia |]. split; [lia |]. split; [intros _; assumption |].
      split; [intros _; reflexivity |].
      destruct (_ && _); lia.
    + replace (bool_decide (is_Some (@None string))) with false by reflexivity.
      rewrite andb_false_r. cbn [andb].
      split; [lia |]. split; [lia |]. split; [intros _; assumption |].
      split; [intros [? ?]; discriminate | lia].
    + assert (u64 (sl_numUploaded (sys_slab st) + 1) = sl_numUploaded (sys_slab st) + 1) as Hu
        by (apply u64_small; lia).
      rewrite HU', Hu. rewrite (u64_small (Z.of_nat _)) by lia.
      replace (bool_decide (is_Some (@None string))) with false by reflexivity.
      rewrite andb_false_r. cbn [andb].
      split; [lia |]. split; [lia |].
      split; [intros Hd; apply Z.eqb_neq in Hd; lia |].
      split; [intros [? ?]; discriminate | lia].
  - rewrite Hs, Hr, Ht, Hh. repeat split; try lia; assumption.
  - pose proof (launch_frame now (Some req) (sys_slab st)) as (-> & _ & -> & -> & _).
    pose proof (launch_bounded now (Some req) (sys_slab st) HI) as [HI1 HI2].
    rewrite Hreq in Hb. specialize (Hrl (ltac:(rewrite Hreq; eauto))).
    specialize (Hhalt Hrl).
    repeat split; try lia; try (intros; assumption). intros [? ?]; discriminate.
  - rewrite Htm in Hb.
    destruct (canOverdrive now (sys_slab st)) eqn:Hc;
      [| repeat split; try lia; assumption].
    apply canOverdrive_true in Hc as [Hc1 Hc2]. cbv zeta in *.
    rewrite (u64_small (Z.of_nat _)) in Hc1, Hc2 by lia.
    rewrite (u64_small (_ - _)) in Hc1, Hc2 by lia.
    repeat split; try lia; try assumption.
    destruct (sys_relaunch st);
      destruct (Z_lt_le_dec (sl_numInflight (sys_slab st))
                  (Z.of_nat (length (sl_shards (sys_slab st))) - sl_numUploaded (sys_slab st)));
      try lia; rewrite u64_small in Hc2 by lia; lia.
  - rewrite Htm in Hb. repeat split; try lia; assumption.
  - pose proof (launch_frame now oreq (sys_slab st)) as (-> & _ & -> & -> & _).
    pose proof (launch_bounded now oreq (sys_slab st) HI) as [HI1 HI2].
    rewrite Htm in Hb. repeat split; try lia; assumption.
Qed.

Lemma exec_params st ev st' :
  exec st ev = Some st' →
  sl_maxOverdrive (sys_slab st') = sl_maxOverdrive (sys_slab st)
  ∧ length (sl_shards (sys_slab st')) = length (sl_shards (sys_slab st)).
Proof.
  intros Hex.
  destruct (exec_cases _ _ _ Hex) as
    [(k & root & err & ->) | [(-> & _) |
     [(now & req & -> & _ & ->) | [(now & -> & _ & _ & ->) |
     [(order & -> & _ & ->) | (now & oreq & -> & _ & ->)]]]]];
    cbn [sys_slab]; try (split; reflexivity).
  - apply exec_Respond in Hex as (req & sector & done & s' & _ & _ & _ & _ & _ & Hr & ->).
    apply receive_cases in Hr as (sec & _ & Hlen & Hk & _). cbn [sys_slab].
    split; assumption.
  - pose proof (launch_frame now (Some req) (sys_slab st)) as (-> & _ & _ & -> & _).
    split; reflexivity.
  - pose proof (launch_frame now oreq (sys_slab st)) as (-> & _ & _ & -> & _).
    split; reflexivity.
Qed.

Lemma prepare_sectors_requests lockPriority uploadID sI shards :
  length (snd (prepare_sectors SectorRoot lockPriority uploadID sI shards)) = length shards.
Proof.
  revert sI. induction shards as [| shard rest IH]; intros sI; simpl; [reflexivity |].
  specialize (IH (S sI)).
  destruct (prepare_sectors SectorRoot lockPriority uploadID (S sI) rest) as [sectors requests].
  simpl in *. f_equal. assumption.
Qed.

Lemma launch_all_frame now requests s pending s' pending' :
  launch_all now requests s pending = inr (s', pending') →
  0 ≤ sl_numInflight s < 2 ^ 64 →
  0 ≤ sl_numInflight s' < 2 ^ 64
  ∧ sl_numInflight s' ≤ sl_numInflight s + Z.of_nat (length requests)
  ∧ sl_shards s' = sl_shards s
  ∧ sl_sectors s' = sl_sectors s
  ∧ sl_numUploaded s' = sl_numUploaded s
  ∧ sl_maxOverdrive s' = sl_maxOverdrive s.
Proof.
  revert s pending. induction requests as [| req rest IH]; intros s pending Hall HI;
    simpl in Hall.
  - injection Hall as <- <-. repeat split; lia.
  - destruct (l_err (launch now (Some req) s)) eqn:He; [discriminate |].
    pose proof (launch_bounded now (Some req) s HI) as [HI1 HI2].
    pose proof (launch_frame now (Some req) s) as (Hsh & Hse & HU & Hk & _).
    destruct (IH _ _ Hall HI1) as (H1 & H2 & H3 & H4 & H5 & H6).
    rewrite H3, H4, H5, H6, Hsh, Hse, HU, Hk.
    repeat split; try lia. simpl length. lia.
Qed.

(** The state in which the response loop starts. *)
Lemma start_state now u shards candidates mem maxOverdrive overdriveTimeout st0 :
  uploadShards_start SectorRoot now u shards candidates mem maxOverdrive overdriveTimeout
  = inr st0 →
  sl_shards (sys_slab st0) = shards
  ∧ sl_sectors (sys_slab st0)
    = fst (prepare_sectors SectorRoot (up_lockPriority u) (up_id u) 0 shards)
  ∧ sl_numUploaded (sys_slab st0) = 0
  ∧ sl_maxOverdrive (sys_slab st0) = maxOverdrive
  ∧ 0 ≤ sl_numInflight (sys_slab st0) < 2 ^ 64
  ∧ sl_numInflight (sys_slab st0) ≤ Z.of_nat (length shards)
  ∧ sys_relaunch st0 = None ∧ sys_timer st0 = TimerIdle ∧ sys_halted st0 = false.
Proof.
  unfold uploadShards_start, newSlabUpload. intros Hst.
  pose proof (prepare_sectors_requests (up_lockPriority u) (up_id u) 0 shards) as Hlen.
  destruct (prepare_sectors SectorRoot (up_lockPriority u) (up_id u) 0 shards)
    as [sectors requests].
  destruct (launch_all _ _ _ _) as [e | [s pending]] eqn:Hall; [discriminate |].
  injection Hst as <-.
  apply launch_all_frame in Hall as (H1 & H2 & H3 & H4 & H5 & H6); [| simpl; lia].
  simpl in *. rewrite Hlen in H2. repeat split; try assumption; lia.
Qed.

(** C5 (as the code has it). In every state that [uploadShards] reaches,
    the number of requests in flight, plus one for a failed request that
    waits for its relaunch, plus one for a timer tick that has passed
    [canOverdrive] and has not launched yet, is at most
    [maxOverdrive + (total_shards - numUploaded) + 1]. *)
Theorem inflight_bound now u shards candidates mem maxOverdrive overdriveTimeout
    (st0 st : sys DP) (tr : list event) :
  uploadShards_start SectorRoot now u shards candidates mem maxOverdrive overdriveTimeout
  = inr st0 →
  run st0 tr = Some st →
  0 ≤ maxOverdrive →
  Z.of_nat (length shards) < 2 ^ 64 →
  let s := sys_slab st in
  0 ≤ pending_launches st
  ∧ 0 ≤ sl_numUploaded s ≤ Z.of_nat (length shards)
  ∧ sl_numInflight s + pending_launches st
    ≤ maxOverdrive + (Z.of_nat (length shards) - sl_numUploaded s) + 1.
Proof.
  intros Hst Hrun Hk HN s.
  apply start_state in Hst as (Hsh & _ & HU & Hk0 & HI & HI' & Hrl & Htm & Hh).
  assert (sl_maxOverdrive (sys_slab st) = maxOverdrive
          ∧ length (sl_shards (sys_slab st)) = length shards
          ∧ inflight_bounded st) as (Hk' & Hlen & (_ & HU' & _ & _ & Hb)).
  { eapply (run_invariant (λ st, sl_maxOverdrive (sys_slab st) = maxOverdrive
                                 ∧ length (sl_shards (sys_slab st)) = length shards
                                 ∧ inflight_bounded st)); [| | eassumption].
    - intros st1 ev st2 (H1 & H2 & H3) Hex.
      destruct (exec_params _ _ _ Hex) as [H4 H5].
      split; [congruence |]. split; [congruence |].
      eapply exec_inflight_bounded; [| | eassumption | eassumption]; [lia | ].
      rewrite H2. assumption.
    - split; [assumption |]. split; [congruence |].
      unfold inflight_bounded, pending_launches. rewrite Hsh, HU, Hk0, Hrl, Htm, Hh.
      repeat split; lia. }
  fold s in Hk', Hlen, HU', Hb. rewrite Hk', Hlen in Hb. rewrite Hlen in HU'.
  split; [| split; assumption].
  unfold pending_launches. destruct (sys_relaunch st); destruct (sys_timer st); lia.
Qed.

(** *** The result of [finish] *)

Lemma run_invariant_on (Q : event → Prop) (P : sys DP → Prop) :
  (∀ st ev st', P st → Q ev → exec st ev = Some st' → P st') →
  ∀ tr st st', Forall Q tr → P st → run st tr = Some st' → P st'.
Proof.
  intros Hstep tr. induction tr as [| ev tr IH]; intros st st' HQ HP Hrun; simpl in Hrun.
  - injection Hrun as <-. assumption.
  - destruct (exec st ev) as [st1 |] eqn:Hex; simpl in Hrun; [| discriminate].
    apply Forall_cons in HQ as [Hev HQ].
    eapply IH; [eassumption | | eassumption]. eapply Hstep; eassumption.
Qed.

Lemma prepare_sectors_spec lockPriority uploadID sI shards :
  let sectors := fst (prepare_sectors SectorRoot lockPriority uploadID sI shards) in
  dom sectors = set_seq sI (length shards)
  ∧ (∀ i sector, sectors !! i = Some sector →
       su_index sector = i ∧ isUploaded sector = false).
Proof.
  revert sI. induction shards as [| shard rest IH]; intros sI; simpl.
  - split; [apply dom_empty_L |]. intros i sector Hi. rewrite lookup_empty in Hi. discriminate.
  - specialize (IH (S sI)).
    destruct (prepare_sectors SectorRoot lockPriority uploadID (S sI) rest) as [sectors requests].
    simpl in *. destruct IH as [Hdom Hall]. split.
    + rewrite dom_insert_L, Hdom. reflexivity.
    + intros i sector Hi. destruct (decide (sI = i)) as [<- | Hne].
      * rewrite lookup_insert_eq in Hi. injection Hi as <-. split; reflexivity.
      * rewrite lookup_insert_ne in Hi by assumption. apply Hall. assumption.
Qed.

Lemma uploaded_sectors_size_le s :
  (size (uploaded_sectors s) ≤ size (sl_sectors s))%nat.
Proof. apply map_subseteq_size, map_filter_subseteq. Qed.

Lemma sectors_wf_size s :
  sectors_wf s → size (sl_sectors s) = length (sl_shards s).
Proof.
  intros (Hdom & _). rewrite <- (size_dom (D := gset nat)), Hdom. apply size_set_seq.
Qed.

Lemma start_sectors_wf now u shards candidates mem maxOverdrive overdriveTimeout st0 :
  uploadShards_start SectorRoot now u shards candidates mem maxOverdrive overdriveTimeout
  = inr st0 →
  sectors_wf (sys_slab st0).
Proof.
  intros Hst. apply start_state in Hst as (Hsh & Hse & HU & _).
  pose proof (prepare_sectors_spec (up_lockPriority u) (up_id u) 0 shards) as [Hdom Hall].
  cbv zeta in *. unfold sectors_wf, uploaded_sectors. rewrite Hsh, Hse, HU.
  split; [assumption |]. split; [intros i sector Hi; apply (Hall i sector Hi) |].
  replace (filter _ _) with (∅ : gmap nat sectorUpload); [reflexivity |].
  symmetry. apply map_eq. intros i. rewrite lookup_empty.
  apply map_lookup_filter_None. right. intros sector Hi Hup. simpl in Hup.
  destruct (Hall i sector Hi) as [_ Hnot]. congruence.
Qed.

Lemma exec_sectors_wf st ev st' :
  Z.of_nat (length (sl_shards (sys_slab st))) < 2 ^ 64 →
  sectors_wf (sys_slab st) → honest ev → exec st ev = Some st' → sectors_wf (sys_slab st').
Proof.
  intros HN Hwf Hhon Hex.
  destruct (exec_cases _ _ _ Hex) as
    [(k & root & err & ->) | [(-> & _) |
     [(now & req & -> & _ & ->) | [(now & -> & _ & _ & ->) |
     [(order & -> & _ & ->) | (now & oreq & -> & _ & ->)]]]]];
    cbn [sys_slab]; try assumption.
  - apply exec_Respond in Hex as (req & sector & done & s' & _ & _ & _ & _ & Hsec & Hr & ->).
    apply receive_cases in Hr as (sec & Hsec' & Hlen & _ & _ & _ & _ & Hc).
    cbn [sys_slab resp_req resp_err resp_root] in *.
    rewrite Hsec in Hsec'. injection Hsec' as <-.
    pose proof (sectors_wf_size _ Hwf) as Hsize.
    pose proof (uploaded_sectors_size_le (sys_slab st)) as Hle.
    destruct Hwf as (Hdom & Hidx & HU). unfold sectors_wf, uploaded_sectors in *.
    rewrite Hlen.
    destruct Hc as [(_ & _ & -> & ->) | [(_ & _ & _ & -> & ->) | (-> & Hnot & Hlt & -> & -> & _)]];
      [repeat split; assumption | repeat split; assumption |].
    assert (isUploaded (installed req root sector) = true) as Hup.
    { unfold isUploaded, installed. simpl. apply negb_true_iff, N.eqb_neq. exact Hhon. }
    assert (filter (λ p : nat * sectorUpload, isUploaded p.2 = true) (sl_sectors (sys_slab st))
            !! req_sector req = None) as Hnone.
    { apply map_lookup_filter_None. right. intros x Hx. simpl.
      rewrite Hsec in Hx. injection Hx as <-. congruence. }
    split; [| split].
    + rewrite dom_insert_lookup_L by eauto. assumption.
    + intros i sec Hi. destruct (decide (req_sector req = i)) as [<- | Hne].
      * rewrite lookup_insert_eq in Hi. injection Hi as <-. simpl. eapply Hidx. eassumption.
      * rewrite lookup_insert_ne in Hi by assumption. eapply Hidx. eassumption.
    + rewrite map_filter_insert_True by exact Hup.
      rewrite map_size_insert_None by assumption.
      assert (size (filter (λ p : nat * sectorUpload, isUploaded p.2 = true)
                      (sl_sectors (sys_slab st)))
              < size (sl_sectors (sys_slab st)))%nat as Hlt'.
      { apply map_subset_size. split; [apply map_filter_subseteq |].
        intros Hsub. rewrite map_subseteq_spec in Hsub.
        specialize (Hsub _ _ Hsec). rewrite Hnone in Hsub. discriminate. }
      rewrite HU. rewrite u64_small by lia. lia.
  - pose proof (launch_frame now (Some req) (sys_slab st)) as (Hsh & Hse & HU & _).
    unfold sectors_wf, uploaded_sectors in *. rewrite Hsh, Hse, HU. assumption.
  - pose proof (launch_frame now oreq (sys_slab st)) as (Hsh & Hse & HU & _).
    unfold sectors_wf, uploaded_sectors in *. rewrite Hsh, Hse, HU. assumption.
Qed.

(** [finish] on a well-formed slab. *)
Lemma finish_wf s :
  sectors_wf s →
  Z.of_nat (length (sl_shards s)) < 2 ^ 64 →
  let N := Z.of_nat (length (sl_shards s)) in
  0 ≤ sl_numUploaded s ≤ N
  ∧ (sl_numUploaded s = N →
     ∃ sectors,
       finish s = Some (inr sectors)
       ∧ length sectors = length (sl_shards s)
       ∧ ∀ i, (i < length (sl_shards s))%nat →
           ∃ sector, sl_sectors s !! i = Some sector
             ∧ su_index sector = i
             ∧ sectors !! i = Some (su_uploaded sector)
             ∧ Root (su_uploaded sector) ≠ zeroHash)
  ∧ (sl_numUploaded s ≠ N →
     finish s
     = Some (inl (errSlabUpload (sl_numLaunched s) (sl_numUploaded s) (N - sl_numUploaded s)
                    (sl_numInflight s) (Z.of_nat (length (sl_candidates s)))
                    (Z.of_nat (size (sl_errs s))) (sl_errs s)))).
Proof.
  intros Hwf HN N.
  pose proof (sectors_wf_size _ Hwf) as Hsize.
  pose proof (uploaded_sectors_size_le s) as Hle.
  destruct Hwf as (Hdom & Hidx & HU).
  assert (0 ≤ sl_numUploaded s ≤ N) as Hrange by (unfold N; lia).
  split; [assumption |]. unfold finish. fold N. rewrite (u64_small N) by (unfold N; lia).
  split.
  - intros Heq. rewrite Heq, Z.ltb_irrefl.
    assert (uploaded_sectors s = sl_sectors s) as Hall.
    { apply map_subseteq_size_eq; [apply map_filter_subseteq |]. unfold N in Heq. lia. }
    assert (∀ i, (i < length (sl_shards s))%nat →
              ∃ sector, sl_sectors s !! i = Some sector ∧ su_index sector = i
                        ∧ Root (su_uploaded sector) ≠ zeroHash) as Hsec.
    { intros i Hi.
      assert (i ∈ dom (sl_sectors s)) as Hin
        by (rewrite Hdom; apply elem_of_set_seq; lia).
      apply elem_of_dom in Hin as [sector Hs]. exists sector.
      split; [assumption |]. split; [eapply Hidx; eassumption |].
      assert (uploaded_sectors s !! i = Some sector) as Hf by (rewrite Hall; assumption).
      apply map_lookup_filter_Some in Hf as [_ Hup]. simpl in Hup.
      unfold isUploaded in Hup. apply negb_true_iff, N.eqb_neq in Hup. assumption. }
    destruct (mapM (λ i, su_uploaded <$> sl_sectors s !! i) (seq 0 (length (sl_shards s))))
      as [sectors |] eqn:Hm.
    + exists sectors. split; [reflexivity |].
      apply mapM_Some in Hm.
      pose proof (Forall2_length _ _ _ Hm) as Hl. rewrite length_seq in Hl.
      split; [congruence |].
      intros i Hi. destruct (Hsec i Hi) as (sector & Hs & Hix & Hroot).
      exists sector. repeat split; try assumption.
      assert (seq 0 (length (sl_shards s)) !! i = Some i) as Hseq
        by (apply lookup_seq; split; [reflexivity | assumption]).
      destruct (Forall2_lookup_l _ _ _ _ _ Hm Hseq) as (y & Hy & Hfy).
      rewrite Hs in Hfy. simpl in Hfy. congruence.
    + exfalso.
      assert (is_Some (mapM (λ i, su_uploaded <$> sl_sectors s !! i)
                         (seq 0 (length (sl_shards s))))) as [x Hx]; [| congruence].
      apply mapM_is_Some. apply Forall_forall. intros i Hi.
      apply elem_of_seq in Hi. destruct (Hsec i) as (sector & Hs & _); [lia |].
      simpl. rewrite Hs. eauto.
  - intros Hne. assert ((sl_numUploaded s <? N) = true) as -> by (apply Z.ltb_lt; lia).
    rewrite (u64_small (N - _)) by (unfold N in *; lia). reflexivity.
Qed.

(** *** [receive] does not panic *)

Lemma launch_enqueued_sector now oreq s req' :
  l_enqueued (launch now oreq s) = Some req' →
  ∃ req, oreq = Some req ∧ req_sector req' = req_sector req.
Proof.
  unfold launch. destruct oreq as [req |]; [| discriminate].
  destruct (enqueue_candidate (sl_used s) req (sl_candidates s)) as [[r c] |] eqn:E;
    [| discriminate].
  apply enqueue_candidate_overdrive in E as [_ Hs].
  destruct (req_overdrive r); simpl; intros [= <-]; eauto.
Qed.

Lemma launch_pending_valid now oreq s pending :
  Forall (points_to_sector s) pending →
  (∀ req, oreq = Some req → points_to_sector s req) →
  Forall (points_to_sector (l_slab (launch now oreq s)))
    (pending ++ option_list (l_enqueued (launch now oreq s))).
Proof.
  intros Hp Hreq.
  pose proof (launch_frame now oreq s) as (_ & Hse & _).
  unfold points_to_sector in *. rewrite Hse.
  apply Forall_app. split; [assumption |].
  destruct (l_enqueued (launch now oreq s)) as [req' |] eqn:He; simpl; [| constructor].
  apply launch_enqueued_sector in He as (req & -> & Heq).
  constructor; [| constructor]. rewrite Heq. apply Hreq. reflexivity.
Qed.

Lemma nextRequest_points_to_sector order s req :
  nextRequest order s = Some req → points_to_sector s req.
Proof.
  unfold nextRequest, points_to_sector. rewrite nextSector_last.
  destruct (last (filter (λ k, eligible s k = true) order)) as [k |] eqn:Hlast;
    [| discriminate].
  intros [= <-]. simpl.
  apply last_Some_elem_of, list_elem_of_filter in Hlast as [Hel _].
  unfold eligible in Hel. destruct (sl_sectors s !! k); [eauto | discriminate].
Qed.

Lemma exec_requests_valid st ev st' :
  requests_valid st → exec st ev = Some st' → requests_valid st'.
Proof.
  intros (Hdom & Hidx & Hp & Hrl & Htm) Hex. unfold requests_valid.
  destruct ev as [k root err | k | k | now | now | order | now].
  - apply exec_Respond in Hex as (req & sector & done & s' & _ & _ & _ & Hk & Hsec & Hr & ->).
    apply receive_cases in Hr as (sec & Hsec' & Hlen & _ & _ & _ & _ & Hc).
    cbn [sys_slab sys_pending sys_relaunch sys_timer resp_req resp_err resp_root] in *.
    rewrite Hsec in Hsec'. injection Hsec' as <-.
    assert (dom (sl_sectors s') = dom (sl_sectors (sys_slab st))
            ∧ (∀ i sec, sl_sectors s' !! i = Some sec → su_index sec = i)) as [Hdom' Hidx'].
    { destruct Hc as [(_ & _ & -> & _) | [(_ & _ & _ & -> & _) | (_ & _ & _ & -> & _)]];
        try (split; [reflexivity | assumption]).
      split; [apply dom_insert_lookup_L; eauto |].
      intros i sec Hi. destruct (decide (req_sector req = i)) as [<- | Hne].
      - rewrite lookup_insert_eq in Hi. injection Hi as <-. simpl. eapply Hidx. eassumption.
      - rewrite lookup_insert_ne in Hi by assumption. eapply Hidx. eassumption. }
    assert (∀ r, points_to_sector (sys_slab st) r → points_to_sector s' r) as Hmono.
    { unfold points_to_sector. intros r Hr.
      apply elem_of_dom. rewrite Hdom'. apply elem_of_dom. assumption. }
    rewrite Hdom', Hlen. split; [assumption |]. split; [assumption |]. split; [| split].
    + eapply Forall_impl; [| exact Hmono]. apply Forall_delete. assumption.
    + intros r Hr. destruct (_ && _); [| discriminate]. injection Hr as <-.
      apply Hmono. unfold points_to_sector. eauto.
    + intros r Hr. apply Hmono, Htm. assumption.
  - unfold exec in Hex.
    destruct (sys_pending st !! k) as [req |]; simpl in Hex; [| discriminate].
    destruct (_ && _); [| discriminate]. injection Hex as <-.
    cbn [sys_slab sys_pending sys_relaunch sys_timer].
    repeat split; try assumption. apply Forall_delete. assumption.
  - unfold exec in Hex.
    destruct (sys_pending st !! k) as [req |] eqn:Hk; simpl in Hex; [| discriminate].
    destruct (_ && _); [| discriminate]. injection Hex as <-.
    cbn [sys_slab sys_pending sys_relaunch sys_timer].
    repeat split; try assumption. apply Forall_app. split; [apply Forall_delete; assumption |].
    constructor; [| constructor]. eapply Forall_lookup_1; eassumption.
  - unfold exec in Hex. destruct (sys_relaunch st) as [req |] eqn:Hreq; simpl in Hex;
      [| discriminate]. injection Hex as <-.
    cbn [sys_slab sys_pending sys_relaunch sys_timer].
    pose proof (launch_frame now (Some req) (sys_slab st)) as (Hsh & Hse & _).
    pose proof (launch_pending_valid now (Some req) (sys_slab st) (sys_pending st) Hp) as Hv.
    unfold points_to_sector in *. rewrite Hsh, Hse in *.
    split; [assumption |]. split; [assumption |]. split; [| split].
    + apply Hv. intros r [= <-]. apply Hrl. reflexivity.
    + intros r [=].
    + assumption.
  - unfold exec in Hex. destruct (sys_timer st) eqn:Ht; try discriminate.
    destruct (sl_overdriveTimeout (sys_slab st) =? 0); [discriminate |].
    injection Hex as <-. cbn [sys_slab sys_pending sys_relaunch sys_timer].
    repeat split; try assumption. intros r Hr. destruct (canOverdrive _ _); discriminate.
  - unfold exec in Hex. destruct (sys_timer st) eqn:Ht; try discriminate.
    destruct (visits_keys order (sys_slab st)); [| discriminate].
    injection Hex as <-. cbn [sys_slab sys_pending sys_relaunch sys_timer].
    repeat split; try assumption. intros r [= Hr].
    eapply nextRequest_points_to_sector. eassumption.
  - unfold exec in Hex. destruct (sys_timer st) as [| | oreq] eqn:Ht; try discriminate.
    injection Hex as <-. cbn [sys_slab sys_pending sys_relaunch sys_timer].
    pose proof (launch_frame now oreq (sys_slab st)) as (Hsh & Hse & _).
    pose proof (launch_pending_valid now oreq (sys_slab st) (sys_pending st) Hp) as Hv.
    unfold points_to_sector in *. rewrite Hsh, Hse in *.
    split; [assumption |]. split; [assumption |]. split; [| split].
    + apply Hv. intros r ->. apply Htm. reflexivity.
    + assumption.
    + intros r [=].
Qed.

Lemma prepare_sectors_valid lockPriority uploadID sI shards :
  Forall (λ req, is_Some (fst (prepare_sectors SectorRoot lockPriority uploadID sI shards)
                          !! req_sector req))
    (snd (prepare_sectors SectorRoot lockPriority uploadID sI shards)).
Proof.
  revert sI. induction shards as [| shard rest IH]; intros sI; simpl; [constructor |].
  specialize (IH (S sI)).
  destruct (prepare_sectors SectorRoot lockPriority uploadID (S sI) rest) as [sectors requests].
  simpl in *. constructor.
  - simpl. rewrite lookup_insert_eq. eauto.
  - eapply Forall_impl; [exact IH |]. intros req Hreq. simpl in *.
    apply lookup_insert_is_Some'. right. assumption.
Qed.

Lemma launch_all_valid now requests s pending s' pending' :
  launch_all now requests s pending = inr (s', pending') →
  Forall (points_to_sector s) pending →
  Forall (points_to_sector s) requests →
  Forall (points_to_sector s') pending'.
Proof.
  revert s pending. induction requests as [| req rest IH]; intros s pending Hall Hp Hr;
    simpl in Hall.
  - injection Hall as <- <-. assumption.
  - destruct (l_err (launch now (Some req) s)) eqn:He; [discriminate |].
    apply Forall_cons in Hr as [Hreq Hrest].
    pose proof (launch_frame now (Some req) s) as (_ & Hse & _).
    eapply IH; [eassumption | |].
    + apply launch_pending_valid; [assumption |]. intros r [= <-]. assumption.
    + unfold points_to_sector in *. rewrite Hse. assumption.
Qed.

Lemma start_requests_valid now u shards candidates mem maxOverdrive overdriveTimeout st0 :
  uploadShards_start SectorRoot now u shards candidates mem maxOverdrive overdriveTimeout
  = inr st0 →
  requests_valid st0.
Proof.
  intros Hst. pose proof (start_sectors_wf _ _ _ _ _ _ _ _ Hst) as (Hdom & Hidx & _).
  unfold requests_valid. split; [assumption |]. split; [assumption |].
  unfold uploadShards_start, newSlabUpload in Hst.
  pose proof (prepare_sectors_valid (up_lockPriority u) (up_id u) 0 shards) as Hv.
  destruct (prepare_sectors SectorRoot (up_lockPriority u) (up_id u) 0 shards)
    as [sectors requests].
  destruct (launch_all _ _ _ _) as [e | [s pending]] eqn:Hall; [discriminate |].
  injection Hst as <-. cbn [sys_slab sys_pending sys_relaunch sys_timer].
  split; [| split; intros r [=]].
  eapply launch_all_valid; [eassumption | constructor | exact Hv].
Qed.

(** A transition keeps [numUploaded] within the number of shards: the loop
    is left with the response that uploads the last sector. *)
Lemma exec_uploaded_bounded st ev st' :
  Z.of_nat (length (sl_shards (sys_slab st))) < 2 ^ 64 →
  (let N := Z.of_nat (length (sl_shards (sys_slab st))) in
   0 ≤ sl_numUploaded (sys_slab st) ≤ N
   ∧ (sys_halted st = false → sl_numUploaded (sys_slab st) < N ∨ N = 0)
   ∧ (is_Some (sys_relaunch st) → sys_halted st = false)) →
  exec st ev = Some st' →
  let N := Z.of_nat (length (sl_shards (sys_slab st'))) in
  0 ≤ sl_numUploaded (sys_slab st') ≤ N
  ∧ (sys_halted st' = false → sl_numUploaded (sys_slab st') < N ∨ N = 0)
  ∧ (is_Some (sys_relaunch st') → sys_halted st' = false).
Proof.
  intros HN (HU & Hh & Hrl) Hex. cbv zeta in *.
  destruct (exec_cases _ _ _ Hex) as
    [(k & root & err & ->) | [(Hs & Hr & _ & Hh' & _) |
     [(now & req & _ & Hreq & ->) | [(now & _ & _ & _ & ->) |
     [(order & _ & _ & ->) | (now & oreq & _ & _ & ->)]]]]];
    cbn [sys_slab sys_halted sys_relaunch].
  - apply exec_Respond in Hex
      as (req & sector & done & s' & Hh0 & _ & _ & _ & _ & Hrc & ->).
    apply receive_cases in Hrc as (sec & _ & Hlen & _ & _ & _ & _ & Hc).
    cbn [sys_slab sys_halted sys_relaunch resp_req resp_err resp_root] in *.
    rewrite Hlen. specialize (Hh Hh0).
    assert (is_Some (if negb done && bool_decide (is_Some err) && negb (req_overdrive req)
                     then Some req else None) → done = false) as Hthird.
    { destruct done; [| reflexivity]. cbn. intros [x Hx]. discriminate. }
    split; [| split; [| exact Hthird]].
    + destruct Hc as [(_ & _ & _ & HU') | [(_ & _ & _ & _ & HU') | (_ & _ & Hlt & _ & HU' & _)]];
        rewrite HU'; [assumption | assumption |].
      rewrite u64_small by lia. lia.
    + intros Hd.
      destruct Hc as [(_ & _ & _ & HU') | [(_ & _ & _ & _ & HU') | (_ & _ & Hlt & _ & HU' & Hdone)]];
        [rewrite HU'; assumption | rewrite HU'; assumption |].
      rewrite HU' in Hdone |- *. rewrite Hd in Hdone. symmetry in Hdone.
      rewrite !u64_small in Hdone by lia. rewrite u64_small by lia.
      apply Z.eqb_neq in Hdone. lia.
  - rewrite Hs, Hr, Hh'. split; [assumption |]. split; assumption.
  - pose proof (launch_frame now (Some req) (sys_slab st)) as (Hsh & _ & HU' & _).
    rewrite Hsh, HU'. split; [assumption |].
    split; [| intros [x Hx]; discriminate].
    intros _. apply Hh, Hrl. rewrite Hreq. eauto.
  - split; [assumption |]. split; assumption.
  - split; [assumption |]. split; assumption.
  - pose proof (launch_frame now oreq (sys_slab st)) as (Hsh & _ & HU' & _).
    rewrite Hsh, HU'. split; [assumption |]. split; assumption.
Qed.

(** [finish] on a slab that has a sector for every shard index. *)
Lemma finish_valid s :
  dom (sl_sectors s) = set_seq 0 (length (sl_shards s)) →
  (∀ i sector, sl_sectors s !! i = Some sector → su_index sector = i) →
  Z.of_nat (length (sl_shards s)) < 2 ^ 64 →
  0 ≤ sl_numUploaded s ≤ Z.of_nat (length (sl_shards s)) →
  let N := Z.of_nat (length (sl_shards s)) in
  (sl_numUploaded s = N →
   ∃ sectors,
     finish s = Some (inr sectors)
     ∧ length sectors = length (sl_shards s)
     ∧ ∀ i, (i < length (sl_shards s))%nat →
         ∃ sector, sl_sectors s !! i = Some sector
           ∧ su_index sector = i
           ∧ sectors !! i = Some (su_uploaded sector))
  ∧ (sl_numUploaded s ≠ N →
     finish s
     = Some (inl (errSlabUpload (sl_numLaunched s) (sl_numUploaded s) (N - sl_numUploaded s)
                    (sl_numInflight s) (Z.of_nat (length (sl_candidates s)))
                    (Z.of_nat (size (sl_errs s))) (sl_errs s)))).
Proof.
  intros Hdom Hidx HN HU N. unfold finish. fold N. rewrite (u64_small N) by (unfold N; lia).
  split.
  - intros Heq. rewrite Heq, Z.ltb_irrefl.
    assert (∀ i, (i < length (sl_shards s))%nat →
              ∃ sector, sl_sectors s !! i = Some sector ∧ su_index sector = i) as Hsec.
    { intros i Hi.
      assert (i ∈ dom (sl_sectors s)) as Hin
        by (rewrite Hdom; apply elem_of_set_seq; lia).
      apply elem_of_dom in Hin as [sector Hs]. exists sector.
      split; [assumption | eapply Hidx; eassumption]. }
    destruct (mapM (λ i, su_uploaded <$> sl_sectors s !! i) (seq 0 (length (sl_shards s))))
      as [sectors |] eqn:Hm.
    + exists sectors. split; [reflexivity |].
      apply mapM_Some in Hm.
      pose proof (Forall2_length _ _ _ Hm) as Hl. rewrite length_seq in Hl.
      split; [congruence |].
      intros i Hi. destruct (Hsec i Hi) as (sector & Hs & Hix).
      exists sector. repeat split; try assumption.
      assert (seq 0 (length (sl_shards s)) !! i = Some i) as Hseq
        by (apply lookup_seq; split; [reflexivity | assumption]).
      destruct (Forall2_lookup_l _ _ _ _ _ Hm Hseq) as (y & Hy & Hfy).
      rewrite Hs in Hfy. simpl in Hfy. congruence.
    + exfalso.
      assert (is_Some (mapM (λ i, su_uploaded <$> sl_sectors s !! i)
                         (seq 0 (length (sl_shards s))))) as [x Hx]; [| congruence].
      apply mapM_is_Some. apply Forall_forall. intros i Hi.
      apply elem_of_seq in Hi. destruct (Hsec i) as (sector & Hs & _); [lia |].
      simpl. rewrite Hs. eauto.
  - intros Hne. assert ((sl_numUploaded s <? N) = true) as -> by (apply Z.ltb_lt; lia).
    rewrite (u64_small (N - _)) by (unfold N in *; lia). reflexivity.
Qed.

(** C2. In every state that [uploadShards] reaches: [numUploaded] is at most
    the number of shards; when it equals the number of shards, [finish]
    returns the list of that length whose position [i] holds the uploaded
    record of the sector with index [i]; when it is smaller, [finish] returns
    no list but the error made of the launched, uploaded, remaining, inflight
    and candidate counters and the per-host error set. When every successful
    response carried a non-zero root, as a Merkle root is, every root of the
    list is non-zero. *)
Theorem finish_result now u shards candidates mem maxOverdrive overdriveTimeout
    (st0 st : sys DP) (tr : list event) :
  uploadShards_start SectorRoot now u shards candidates mem maxOverdrive overdriveTimeout
  = inr st0 →
  run st0 tr = Some st →
  Z.of_nat (length shards) < 2 ^ 63 →
  let s := sys_slab st in
  let N := Z.of_nat (length shards) in
  0 ≤ sl_numUploaded s ≤ N
  ∧ (sl_numUploaded s = N →
     ∃ sectors,
       finish s = Some (inr sectors)
       ∧ length sectors = length shards
       ∧ ∀ i, (i < length shards)%nat →
           ∃ sector, sl_sectors s !! i = Some sector
             ∧ su_index sector = i
             ∧ sectors !! i = Some (su_uploaded sector)
             ∧ (Forall honest tr → Root (su_uploaded sector) ≠ zeroHash))
  ∧ (sl_numUploaded s ≠ N →
     finish s
     = Some (inl (errSlabUpload (sl_numLaunched s) (sl_numUploaded s) (N - sl_numUploaded s)
                    (sl_numInflight s) (Z.of_nat (length (sl_candidates s)))
                    (Z.of_nat (size (sl_errs s))) (sl_errs s)))).
Proof.
  intros Hst Hrun HN s N.
  pose proof (start_sectors_wf _ _ _ _ _ _ _ _ Hst) as Hwf0.
  pose proof (start_requests_valid _ _ _ _ _ _ _ _ Hst) as Hval0.
  apply start_state in Hst as (Hsh & _ & HU0 & _ & _ & _ & Hrl0 & _ & Hh0).
  assert (length (sl_shards (sys_slab st)) = length shards
          ∧ requests_valid st
          ∧ (0 ≤ sl_numUploaded (sys_slab st) ≤ Z.of_nat (length (sl_shards (sys_slab st)))
             ∧ (sys_halted st = false →
                sl_numUploaded (sys_slab st) < Z.of_nat (length (sl_shards (sys_slab st)))
                ∨ Z.of_nat (length (sl_shards (sys_slab st))) = 0)
             ∧ (is_Some (sys_relaunch st) → sys_halted st = false)))
    as (Hlen & (Hdom & Hidx & _) & (HU & _)).
  { eapply (run_invariant
              (λ st, length (sl_shards (sys_slab st)) = length shards
                     ∧ requests_valid st
                     ∧ (0 ≤ sl_numUploaded (sys_slab st)
                        ≤ Z.of_nat (length (sl_shards (sys_slab st)))
                        ∧ (sys_halted st = false →
                           sl_numUploaded (sys_slab st)
                           < Z.of_nat (length (sl_shards (sys_slab st)))
                           ∨ Z.of_nat (length (sl_shards (sys_slab st))) = 0)
                        ∧ (is_Some (sys_relaunch st) → sys_halted st = false))));
      [| | eassumption].
    - intros st1 ev st2 (H1 & H2 & H3) Hex.
      destruct (exec_params _ _ _ Hex) as [_ H4]. split; [congruence |].
      split; [eapply exec_requests_valid; eassumption |].
      apply (exec_uploaded_bounded st1 ev st2); [rewrite H1; lia | exact H3 | exact Hex].
    - split; [congruence |]. split; [assumption |].
      rewrite Hsh, HU0, Hrl0, Hh0. split; [lia |].
      split; [intros _; lia | intros _; reflexivity]. }
  fold s in Hlen, Hdom, Hidx, HU.
  pose proof (finish_valid s Hdom Hidx ltac:(rewrite Hlen; lia) HU) as Hfin.
  cbv zeta in Hfin. rewrite Hlen in Hfin, HU. fold N in Hfin, HU.
  destruct Hfin as [Hlist Herr].
  split; [assumption |]. split; [| assumption].
  intros Heq. destruct (Hlist Heq) as (sectors & Hf & Hl & Hpos).
  exists sectors. split; [assumption |]. split; [assumption |].
  intros i Hi. destruct (Hpos i Hi) as (sector & Hs & Hix & Hsi).
  exists sector. split; [assumption |]. split; [assumption |]. split; [assumption |].
  intros Hhon.
  assert (sectors_wf s) as Hwf.
  { assert (length (sl_shards (sys_slab st)) = length shards ∧ sectors_wf (sys_slab st))
      as [_ Hwf].
    { eapply (run_invariant_on honest
                (λ st, length (sl_shards (sys_slab st)) = length shards
                       ∧ sectors_wf (sys_slab st))); [| eassumption | | eassumption].
      - intros st1 ev st2 [H1 H2] Hev Hex.
        destruct (exec_params _ _ _ Hex) as [_ H3]. split; [congruence |].
        eapply exec_sectors_wf; [| eassumption | eassumption | eassumption].
        rewrite H1. lia.
      - split; [congruence | assumption]. }
    exact Hwf. }
  pose proof (finish_wf s Hwf ltac:(rewrite Hlen; lia)) as (_ & Hroots & _).
  cbv zeta in Hroots. rewrite Hlen in Hroots. fold N in Hroots.
  destruct (Hroots Heq) as (sectors' & _ & _ & Hpos').
  destruct (Hpos' i Hi) as (sector' & Hs' & _ & _ & Hroot).
  rewrite Hs in Hs'. injection Hs' as <-. assumption.
Qed.

(** In every state that [uploadShards] reaches, [receive] handles whatever
    answer comes for a pending request: the request points to a sector of
    the slab and the sector's index is within the shards. *)
Theorem receive_never_panics now u shards candidates mem maxOverdrive overdriveTimeout
    (st0 st : sys DP) (tr : list event) (k : nat) (req : sectorUploadReq)
    (root : Hash256) (err : option string) :
  uploadShards_start SectorRoot now u shards candidates mem maxOverdrive overdriveTimeout
  = inr st0 →
  run st0 tr = Some st →
  sys_pending st !! k = Some req →
  is_Some (receive (mkResp req root err) (sys_slab st)).
Proof.
  intros Hst Hrun Hk.
  assert (requests_valid st) as (Hdom & Hidx & Hp & _).
  { eapply (run_invariant requests_valid); [apply exec_requests_valid | | eassumption].
    eapply start_requests_valid. eassumption. }
  pose proof (Forall_lookup_1 _ _ _ _ Hp Hk) as [sector Hsec].
  assert (su_index sector < length (sl_shards (sys_slab st)))%nat as Hlt.
  { rewrite (Hidx _ _ Hsec).
    assert (req_sector req ∈ dom (sl_sectors (sys_slab st))) as Hin
      by (apply elem_of_dom; eauto).
    rewrite Hdom in Hin. apply elem_of_set_seq in Hin. lia. }
  unfold receive. cbn [resp_req resp_err resp_root]. rewrite Hsec. simpl.
  destruct err; [eauto |]. destruct (isUploaded sector); [eauto |].
  rewrite bool_decide_eq_true_2 by assumption. eauto.
Qed.

End Runs.

(** The last answer of [trace_duplicate] is handled. *)
Lemma receive_never_panics_duplicate :
  is_Some (receive (mkResp (mkReq 1 true 0 9%N 103%N 3%N) 5%N None)
             (sys_slab (the_sys (test_run 2 [1; 2; 3]%N 3
                                   (trace_duplicate_first ++ trace_duplicate_mid))))).
Proof.
  apply (receive_never_panics constRoot 0 test_upload (replicate 2 [])
           (map test_uploader [1; 2; 3]%N) (2 * SectorSize) 3 1000
           (the_sys (test_start 2 [1; 2; 3]%N 3))
           (the_sys (test_run 2 [1; 2; 3]%N 3 (trace_duplicate_first ++ trace_duplicate_mid)))
           (trace_duplicate_first ++ trace_duplicate_mid) 1);
    vm_compute; reflexivity.
Defined.

(** The run of [trace_duplicate]: four requests were launched, one sector is
    uploaded, two requests are in flight and one success was a duplicate. *)
Lemma launched_accounting_duplicate :
  let st := the_sys (test_run 2 [1; 2; 3]%N 3 trace_duplicate) in
  let s := sys_slab st in
  sl_numLaunched s
  = u64 (sl_numUploaded s + sl_numInflight s + sys_failed st + sys_redundant st)
  ∧ (sl_numUploaded s + sl_numInflight s + sys_failed st + sys_redundant st < 2 ^ 64 →
     sl_numLaunched s
     = sl_numUploaded s + sl_numInflight s + sys_failed st + sys_redundant st).
Proof.
  intros st.
  apply (launched_accounting constRoot 0 test_upload (replicate 2 [])
           (map test_uploader [1; 2; 3]%N) (2 * SectorSize) 3 1000
           (the_sys (test_start 2 [1; 2; 3]%N 3)) st trace_duplicate);
    vm_compute; reflexivity.
Defined.

(** C8 (counterexample). In the run of [trace_duplicate] host 1 uploads
    sector 0 and the overdrive of sector 0 on host 3 succeeds afterwards: four
    requests were launched, but the uploaded, in-flight and failed ones add up
    to three. *)
Lemma launched_not_accounted_after_duplicate :
  match test_run 2 [1; 2; 3]%N 3 trace_duplicate with
  | Some st =>
      sl_numLaunched (sys_slab st) = 4
      ∧ sl_numUploaded (sys_slab st) = 1
      ∧ sl_numInflight (sys_slab st) = 2
      ∧ sys_failed st = 0
      ∧ sys_redundant st = 1
      ∧ sl_numLaunched (sys_slab st)
        ≠ sl_numUploaded (sys_slab st) + sl_numInflight (sys_slab st) + sys_failed st
  | None => False
  end.
Proof.
  vm_compute. repeat split. discriminate.
Qed.

(** The run of [trace_inflight_race] reaches the bound: four requests in
    flight with [maxOverdrive = 2] and one sector left. *)
Lemma inflight_bound_race :
  let st := the_sys (test_run 1 [1; 2; 3; 4; 5]%N 2 trace_inflight_race) in
  let s := sys_slab st in
  0 ≤ pending_launches st
  ∧ 0 ≤ sl_numUploaded s ≤ Z.of_nat (length (replicate 1 (@nil Byte.byte)))
  ∧ sl_numInflight s + pending_launches st
    ≤ 2 + (Z.of_nat (length (replicate 1 (@nil Byte.byte))) - sl_numUploaded s) + 1.
Proof.
  intros st.
  apply (inflight_bound constRoot 0 test_upload (replicate 1 [])
           (map test_uploader [1; 2; 3; 4; 5]%N) (Z.of_nat 1 * SectorSize) 2 1000
           (the_sys (test_start 1 [1; 2; 3; 4; 5]%N 2)) st trace_inflight_race);
    try (vm_compute; reflexivity); simpl; lia.
Defined.

(** C5 (counterexample). With an overdrive timeout of 1000 ns: the run of
    [trace_overdrive_cap] has four overdrives in flight with
    [maxOverdrive = 3], and the run of [trace_inflight_race] has four
    requests in flight with [maxOverdrive = 2] and one sector left. *)
Lemma overdrive_cap_exceeded :
  match test_run 2 [1; 2; 3; 4; 5]%N 3 trace_overdrive_cap,
        test_run 1 [1; 2; 3; 4; 5]%N 2 trace_inflight_race with
  | Some a, Some b =>
      sl_overdriveTimeout (sys_slab a) = 1000
      ∧ sl_maxOverdrive (sys_slab a) = 3
      ∧ sl_numOverdriving (sys_slab a) = 4
      ∧ map req_overdrive (sys_pending a) = [true; true; true; true]
      ∧ sl_overdriveTimeout (sys_slab b) = 1000
      ∧ sl_maxOverdrive (sys_slab b) = 2
      ∧ Z.of_nat (length (sl_shards (sys_slab b))) - sl_numUploaded (sys_slab b) = 1
      ∧ sl_numInflight (sys_slab b) = 4
      ∧ sl_numOverdriving (sys_slab b) = 3
      ∧ ¬ (sl_numOverdriving (sys_slab a) ≤ sl_maxOverdrive (sys_slab a))
      ∧ ¬ (sl_numInflight (sys_slab b)
           ≤ sl_maxOverdrive (sys_slab b)
             + (Z.of_nat (length (sl_shards (sys_slab b))) - sl_numUploaded (sys_slab b)))
  | _, _ => False
  end.
Proof.
  vm_compute. repeat split; intros H; apply H; reflexivity.
Qed.

(** Two shards, both uploaded at the first attempt. *)
Lemma finish_result_happy :
  let st := the_sys (test_run 2 [1; 2; 3]%N 3 trace_happy) in
  let s := sys_slab st in
  let N := Z.of_nat (length (replicate 2 (@nil Byte.byte))) in
  0 ≤ sl_numUploaded s ≤ N
  ∧ (sl_numUploaded s = N →
     ∃ sectors,
       finish s = Some (inr sectors)
       ∧ length sectors = length (replicate 2 (@nil Byte.byte))
       ∧ ∀ i, (i < length (replicate 2 (@nil Byte.byte)))%nat →
           ∃ sector, sl_sectors s !! i = Some sector
             ∧ su_index sector = i
             ∧ sectors !! i = Some (su_uploaded sector)
             ∧ Root (su_uploaded sector) ≠ zeroHash)
  ∧ (sl_numUploaded s ≠ N →
     finish s
     = Some (inl (errSlabUpload (sl_numLaunched s) (sl_numUploaded s) (N - sl_numUploaded s)
                    (sl_numInflight s) (Z.of_nat (length (sl_candidates s)))
                    (Z.of_nat (size (sl_errs s))) (sl_errs s)))).
Proof.
  intros st s N.
  destruct (finish_result constRoot 0 test_upload (replicate 2 [])
              (map test_uploader [1; 2; 3]%N) (2 * SectorSize) 3 1000
              (the_sys (test_start 2 [1; 2; 3]%N 3)) st trace_happy)
    as (Hbound & Hlist & Herr).
  - vm_compute. reflexivity.
  - vm_compute. reflexivity.
  - simpl. lia.
  - split; [exact Hbound |]. split; [| exact Herr].
    intros Heq. destruct (Hlist Heq) as (sectors & Hf & Hl & Hpos).
    exists sectors. split; [exact Hf |]. split; [exact Hl |].
    intros i Hi. destruct (Hpos i Hi) as (sector & Hs & Hix & Hsi & Hroot).
    exists sector. split; [exact Hs |]. split; [exact Hix |]. split; [exact Hsi |].
    apply Hroot. repeat constructor; discriminate.
Defined.

(** Why the roots of the list are non-zero only for successes with a
    non-zero root: [finish] copies the records as they are. One shard, were it
    answered with success and the zero root, gives a list whose only root is
    zero; two shards, were sector 0 answered first with the zero root and then
    again by its overdrive, give [numUploaded = 2] and a list whose second
    record was never installed. *)
Lemma finish_returns_zero_root :
  match test_run 1 [1]%N 3 trace_zero_root_single,
        test_run 2 [1; 2; 3]%N 3 trace_zero_root with
  | Some a, Some b =>
      sl_numUploaded (sys_slab a) = 1
      ∧ finish_roots (sys_slab a) = Some [zeroHash]
      ∧ sl_numUploaded (sys_slab b) = 2
      ∧ finish_roots (sys_slab b) = Some [77%N; zeroHash]
      ∧ (isUploaded <$> sl_sectors (sys_slab b) !! 1%nat) = Some false
  | _, _ => False
  end.
Proof.
  vm_compute. repeat split.
Qed.

(** * Further properties *)

(** ** The first loop of [uploadShards] *)

Section InitialLaunch.
Context {DP : Type} `{!DataPointsAPI DP}.
Variable SectorRoot : list Byte.byte → Hash256.
Implicit Types (s : slabUpload DP) (req : sectorUploadReq) (c : uploader DP).

(** The candidate search stops at the first uploader whose host is free. *)
Lemma enqueue_candidate_at used req (pre : list (uploader DP)) c post :
  Forall (λ v, u_hk v ∈ used) pre → u_hk c ∉ used →
  enqueue_candidate used req (pre ++ c :: post)
  = Some ((enqueue req c).1, pre ++ (enqueue req c).2 :: post).
Proof.
  intros Hpre Hc. induction pre as [| v pre IH]; simpl.
  - rewrite bool_decide_eq_false_2 by assumption. reflexivity.
  - apply Forall_cons in Hpre as [Hv Hpre].
    rewrite bool_decide_eq_true_2 by assumption.
    rewrite IH by assumption. reflexivity.
Qed.

Lemma enqueue_candidate_Some used req (cands : list (uploader DP)) req' cands' :
  enqueue_candidate used req cands = Some (req', cands') →
  (req_hk req' ∉ used)
  ∧ req_hk req' ∈ (u_hk <$> cands)
  ∧ (u_hk <$> cands') = (u_hk <$> cands).
Proof.
  revert req' cands'. induction cands as [| u rest IH]; intros req' cands' H; simpl in H.
  - discriminate.
  - destruct (bool_decide (u_hk u ∈ used)) eqn:Hu.
    + destruct (enqueue_candidate used req rest) as [[r c] |] eqn:E; simpl in H; [| discriminate].
      injection H as <- <-. destruct (IH _ _ eq_refl) as (H1 & H2 & H3).
      split; [assumption |]. split; [simpl; apply elem_of_cons; right; assumption |].
      simpl. f_equal. assumption.
    + apply bool_decide_eq_false in Hu. injection H as <- <-. simpl.
      split; [assumption |]. split; [apply elem_of_cons; left; reflexivity | reflexivity].
Qed.

(** A launch of a non-overdrive request, when the first free candidate is
    known. *)
Lemma launch_at now req s pre c post :
  sl_candidates s = pre ++ c :: post →
  Forall (λ v, u_hk v ∈ sl_used s) pre → u_hk c ∉ sl_used s →
  req_overdrive req = false →
  launch now (Some req) s
  = mkLaunch false None (Some (enqueue req c).1)
      (mkSlab (sl_uploadID s) (sl_created s) (sl_lockPriority s) (sl_maxOverdrive s)
         (sl_mem s) (sl_overdriveTimeout s) (pre ++ (enqueue req c).2 :: post) (sl_shards s)
         (u64 (sl_numInflight s + 1)) (u64 (sl_numLaunched s + 1)) (sl_numUploaded s)
         (sl_overdriving s) (sl_lastOverdrive s) (sl_numOverdriving s)
         (sl_sectors s) ({[u_hk c]} ∪ sl_used s) (sl_errs s)).
Proof.
  intros Hc Hpre Hfree Hov. unfold launch.
  rewrite Hc, (enqueue_candidate_at _ _ _ _ _ Hpre Hfree). simpl. rewrite Hov. reflexivity.
Qed.

(** The requests that [newSlabUpload] prepares: one per shard, in order. *)
Lemma prepare_sectors_snd lockPriority uploadID sI shards :
  snd (prepare_sectors SectorRoot lockPriority uploadID sI shards)
  = (λ i, mkReq lockPriority false i uploadID zeroFCID 0%N) <$> seq sI (length shards).
Proof.
  revert sI. induction shards as [| shard rest IH]; intros sI; simpl; [reflexivity |].
  specialize (IH (S sI)).
  destruct (prepare_sectors SectorRoot lockPriority uploadID (S sI) rest) as [sectors requests].
  simpl in *. f_equal. assumption.
Qed.

(** The first loop, when there is a free candidate with a host of its own for
    every request: request [i] goes to the [i]-th free candidate. *)
Lemma launch_all_at now reqs : ∀ todo s pending done rest,
  sl_candidates s = done ++ todo ++ rest →
  length todo = length reqs →
  Forall (λ v, u_hk v ∈ sl_used s) done →
  NoDup (u_hk <$> todo) →
  (∀ c, c ∈ todo → u_hk c ∉ sl_used s) →
  Forall (λ r, req_overdrive r = false) reqs →
  0 ≤ sl_numInflight s → sl_numInflight s + Z.of_nat (length reqs) < 2 ^ 64 →
  0 ≤ sl_numLaunched s → sl_numLaunched s + Z.of_nat (length reqs) < 2 ^ 64 →
  launch_all now reqs s pending
  = inr (mkSlab (sl_uploadID s) (sl_created s) (sl_lockPriority s) (sl_maxOverdrive s)
           (sl_mem s) (sl_overdriveTimeout s)
           (done ++ zip_with (λ r c, (enqueue r c).2) reqs todo ++ rest) (sl_shards s)
           (sl_numInflight s + Z.of_nat (length reqs))
           (sl_numLaunched s + Z.of_nat (length reqs)) (sl_numUploaded s)
           (sl_overdriving s) (sl_lastOverdrive s) (sl_numOverdriving s)
           (sl_sectors s) (list_to_set (u_hk <$> todo) ∪ sl_used s) (sl_errs s),
         pending ++ zip_with (λ r c, (enqueue r c).1) reqs todo).
Proof.
  induction reqs as [| req reqs IH];
    intros todo s pending done rest Hc Hlen Hdone Hnd Hfree Hov HI HI' HL HL'.
  - destruct todo; [| discriminate]. simpl in *. rewrite app_nil_r, !Z.add_0_r.
    replace (∅ ∪ sl_used s) with (sl_used s) by set_solver.
    rewrite <- Hc. destruct s; reflexivity.
  - destruct todo as [| c todo]; [discriminate |].
    apply Forall_cons in Hov as [Hov1 Hov]. simpl in Hnd. apply NoDup_cons in Hnd as [Hc1 Hnd].
    simpl in Hlen. injection Hlen as Hlen. simpl length in HI', HL'.
    simpl launch_all.
    rewrite (launch_at now req s done c (todo ++ rest)); [| assumption | assumption | | assumption].
    2: { apply Hfree. apply elem_of_cons. left. reflexivity. }
    cbn [l_err l_slab l_enqueued option_list].
    rewrite (IH todo _ (pending ++ [(enqueue req c).1]) (done ++ [(enqueue req c).2]) rest);
      cbn [sl_candidates sl_used sl_numInflight sl_numLaunched sl_uploadID sl_created
           sl_lockPriority sl_maxOverdrive sl_mem sl_overdriveTimeout sl_shards sl_numUploaded
           sl_overdriving sl_lastOverdrive sl_numOverdriving sl_sectors sl_errs].
    + f_equal. f_equal; [f_equal | rewrite <- app_assoc; reflexivity].
      * rewrite <- app_assoc. reflexivity.
      * rewrite u64_small by lia. simpl length. lia.
      * rewrite u64_small by lia. simpl length. lia.
      * simpl. set_solver.
    + rewrite <- app_assoc. reflexivity.
    + assumption.
    + apply Forall_app. split.
      * eapply Forall_impl; [exact Hdone |]. intros v Hv. set_solver.
      * apply Forall_singleton. simpl. set_solver.
    + assumption.
    + intros c' Hc' Hin. apply elem_of_union in Hin as [Hin | Hin].
      * apply elem_of_singleton in Hin. apply Hc1. rewrite <- Hin.
        apply list_elem_of_fmap. eauto.
      * apply (Hfree c'); [apply elem_of_cons; right; assumption | assumption].
    + assumption.
    + pose proof (u64_range (sl_numInflight s + 1)). lia.
    + rewrite u64_small by lia. lia.
    + pose proof (u64_range (sl_numLaunched s + 1)). lia.
    + rewrite u64_small by lia. lia.
Qed.

(** The first loop and the number of distinct candidate hosts. *)
Lemma launch_all_hosts now reqs : ∀ s pending,
  sl_used s ⊆ list_to_set (u_hk <$> sl_candidates s) →
  match launch_all now reqs s pending with
  | inr _ =>
      (size (sl_used s) + length reqs
       ≤ size (list_to_set (u_hk <$> sl_candidates s) : gset N))%nat
  | inl e =>
      e = errNoCandidateUploader
      ∧ (size (list_to_set (u_hk <$> sl_candidates s) : gset N)
         < size (sl_used s) + length reqs)%nat
  end.
Proof.
  induction reqs as [| req reqs IH]; intros s pending Hsub; simpl.
  - rewrite Nat.add_0_r. apply subseteq_size. assumption.
  - unfold launch.
    destruct (enqueue_candidate (sl_used s) req (sl_candidates s)) as [[req' c'] |] eqn:E.
    + destruct (enqueue_candidate_Some _ _ _ _ _ E) as (Hfree & Hin & Hhks).
      assert (size ({[req_hk req']} ∪ sl_used s) = S (size (sl_used s))) as Hsize.
      { rewrite size_union by set_solver. rewrite size_singleton. reflexivity. }
      assert ({[req_hk req']} ∪ sl_used s ⊆ (list_to_set (u_hk <$> c') : gset N)) as Hsub'.
      { rewrite Hhks. apply union_subseteq. split; [| assumption].
        apply singleton_subseteq_l, elem_of_list_to_set. assumption. }
      destruct (req_overdrive req'); cbn [l_err l_slab l_enqueued];
        match goal with
        | |- context [launch_all now reqs ?s1 ?p1] => specialize (IH s1 p1)
        end;
        cbn [sl_used sl_candidates] in IH; specialize (IH Hsub');
        rewrite Hsize, Hhks in IH;
        destruct (launch_all now reqs _ _) as [e | ?];
        [destruct IH as [-> IH]; split; [reflexivity | lia] | lia
        |destruct IH as [-> IH]; split; [reflexivity | lia] | lia].
    + cbn [l_err]. split; [reflexivity |].
      apply enqueue_candidate_None in E.
      assert ((list_to_set (u_hk <$> sl_candidates s) : gset N) ⊆ sl_used s) as Hall.
      { intros hk Hhk. apply elem_of_list_to_set, list_elem_of_fmap in Hhk as (v & -> & Hv).
        rewrite Forall_forall in E. apply E. assumption. }
      apply subseteq_size in Hall. lia.
Qed.

(** [uploadShards] gets past its first loop exactly when the candidates sit
    on at least as many distinct hosts as there are shards; otherwise it
    returns [errNoCandidateUploader]. *)
Theorem uploadShards_start_hosts now u shards (candidates : list (uploader DP)) mem
    maxOverdrive overdriveTimeout :
  let start :=
    uploadShards_start SectorRoot now u shards candidates mem maxOverdrive overdriveTimeout in
  ((∃ st0, start = inr st0)
   ↔ (length shards ≤ size (list_to_set (u_hk <$> candidates) : gset N))%nat)
  ∧ (∀ e, start = inl e → e = errNoCandidateUploader).
Proof.
  intros start. unfold start, uploadShards_start, newSlabUpload.
  pose proof (prepare_sectors_requests SectorRoot (up_lockPriority u) (up_id u) 0 shards) as Hlen.
  destruct (prepare_sectors SectorRoot (up_lockPriority u) (up_id u) 0 shards)
    as [sectors requests]. simpl in Hlen.
  match goal with
  | |- context [launch_all now requests ?s0 []] =>
      pose proof (launch_all_hosts now requests s0 []) as Hall
  end.
  cbn [sl_used sl_candidates] in Hall. rewrite size_empty, Hlen in Hall.
  specialize (Hall ltac:(set_solver)).
  destruct (launch_all now requests _ []) as [e | [s pending]].
  - destruct Hall as [-> Hlt]. split.
    + split; [intros [st0 Hst]; discriminate | intros Hle; lia].
    + intros e He. injection He as <-. reflexivity.
  - split.
    + split; [intros _; simpl in Hall; lia | intros _; eauto].
    + intros e He. discriminate.
Qed.

Lemma start_assignment now u shards (candidates : list (uploader DP)) mem
    maxOverdrive overdriveTimeout :
  NoDup (u_hk <$> candidates) →
  (length shards ≤ length candidates)%nat →
  Z.of_nat (length shards) < 2 ^ 64 →
  let request (i : nat) (c : uploader DP) :=
    mkReq (up_lockPriority u) false i (up_id u) (u_fcid c) (u_hk c) in
  ∃ st0,
    uploadShards_start SectorRoot now u shards candidates mem maxOverdrive overdriveTimeout
    = inr st0
    ∧ sys_pending st0 = zip_with request (seq 0 (length shards)) candidates
    ∧ sl_candidates (sys_slab st0)
      = zip_with (λ i c, set_queue (u_queue c ++ [request i c]) c)
          (seq 0 (length shards)) candidates
        ++ drop (length shards) candidates
    ∧ sl_used (sys_slab st0) = list_to_set (u_hk <$> take (length shards) candidates)
    ∧ sl_numInflight (sys_slab st0) = Z.of_nat (length shards)
    ∧ sl_numLaunched (sys_slab st0) = Z.of_nat (length shards)
    ∧ sl_numUploaded (sys_slab st0) = 0
    ∧ sl_numOverdriving (sys_slab st0) = 0.
Proof.
  intros Hnd Hlen HN request. unfold uploadShards_start, newSlabUpload.
  pose proof (prepare_sectors_snd (up_lockPriority u) (up_id u) 0 shards) as Hreqs.
  destruct (prepare_sectors SectorRoot (up_lockPriority u) (up_id u) 0 shards)
    as [sectors requests]. simpl in Hreqs.
  assert (length requests = length shards) as Hlr.
  { rewrite Hreqs, length_fmap, length_seq. reflexivity. }
  erewrite (launch_all_at now requests (take (length shards) candidates) _ []
              [] (drop (length shards) candidates));
    cbn [sl_candidates sl_used sl_numInflight sl_numLaunched].
  - eexists. split; [reflexivity |]. cbn [sys_pending sys_slab sl_candidates sl_used
      sl_numInflight sl_numLaunched sl_numUploaded sl_numOverdriving].
    rewrite Hlr, Hreqs.
    repeat split; try lia.
    + rewrite zip_with_fmap_l. simpl. rewrite zip_with_take_r'; [reflexivity |].
      rewrite length_seq. lia.
    + rewrite zip_with_fmap_l. simpl. rewrite zip_with_take_r'; [reflexivity |].
      rewrite length_seq. lia.
    + set_solver.
  - simpl. rewrite take_drop. reflexivity.
  - rewrite length_take, Hlr. lia.
  - constructor.
  - rewrite <- (take_drop (length shards) candidates), fmap_app in Hnd.
    apply NoDup_app in Hnd as [Hnd _]. assumption.
  - intros c _. set_solver.
  - rewrite Hreqs. apply Forall_fmap, Forall_forall. intros i _. reflexivity.
  - lia.
  - lia.
  - lia.
  - lia.
Qed.

(** With candidates on pairwise distinct hosts, at least one per shard, the
    first loop gives shard [i] to the [i]-th candidate: the request is
    decorated with that uploader's contract and host and appended to its
    queue, and the slab counts one request in flight per shard. *)
Theorem uploadShards_start_assignment now u shards (candidates : list (uploader DP)) mem
    maxOverdrive overdriveTimeout :
  NoDup (u_hk <$> candidates) →
  (length shards ≤ length candidates)%nat →
  Z.of_nat (length shards) < 2 ^ 64 →
  let request (i : nat) (c : uploader DP) :=
    mkReq (up_lockPriority u) false i (up_id u) (u_fcid c) (u_hk c) in
  ∃ st0,
    uploadShards_start SectorRoot now u shards candidates mem maxOverdrive overdriveTimeout
    = inr st0
    ∧ sys_pending st0 = zip_with request (seq 0 (length shards)) candidates
    ∧ sl_candidates (sys_slab st0)
      = zip_with (λ i c, set_queue (u_queue c ++ [request i c]) c)
          (seq 0 (length shards)) candidates
        ++ drop (length shards) candidates
    ∧ sl_used (sys_slab st0) = list_to_set (u_hk <$> take (length shards) candidates)
    ∧ sl_numInflight (sys_slab st0) = Z.of_nat (length shards)
    ∧ sl_numLaunched (sys_slab st0) = Z.of_nat (length shards)
    ∧ sl_numUploaded (sys_slab st0) = 0
    ∧ sl_numOverdriving (sys_slab st0) = 0.
Proof.
  intros Hnd Hlen HN. apply start_assignment; assumption.
Qed.

End InitialLaunch.

(** ** The uploader's queue and its worker loop *)

Section WorkerFacts.
Context {DP : Type} `{!DataPointsAPI DP}.
Variable isClosedStream : option string → bool.
Implicit Types (u : uploader DP) (req : sectorUploadReq).

(** The request as [enqueue] on [u] decorates it. *)
Lemma enqueue_all_queue reqs u :
  enqueue_all reqs u
  = set_queue (u_queue u
               ++ ((λ r, mkReq (req_lockPriority r) (req_overdrive r) (req_sector r)
                           (req_uploadID r) (u_fcid u) (u_hk u)) <$> reqs)) u.
Proof.
  revert u. induction reqs as [| r reqs IH]; intros u; simpl.
  - rewrite app_nil_r. destruct u; reflexivity.
  - unfold enqueue_all in *. simpl. rewrite IH. unfold set_queue, contractID. simpl.
    rewrite <- app_assoc. reflexivity.
Qed.

Lemma trackSectorUpload_frame err d u u' :
  trackSectorUpload err d u = Some u' →
  u_queue u' = u_queue u ∧ u_fcid u' = u_fcid u ∧ u_hk u' = u_hk u
  ∧ u_consecutiveFailures u'
    = match err with Some _ => u64 (u_consecutiveFailures u + 1) | None => 0 end.
Proof.
  unfold trackSectorUpload. destruct err as [e |].
  - intros H. injection H as <-. repeat split.
  - destruct (go_div SectorSize (Milliseconds d)); simpl; [| discriminate].
    intros H. injection H as <-. repeat split.
Qed.

Lemma trackSectorUpload_is_Some err d u :
  (err = None → 1000000 ≤ d) → is_Some (trackSectorUpload err d u).
Proof.
  unfold trackSectorUpload. destruct err as [e |]; intros Hd; [eauto |].
  specialize (Hd eq_refl). unfold go_div.
  assert (Milliseconds d ≠ 0) as Hms.
  { unfold Milliseconds. intros Hq.
    pose proof (Z.quot_le_mono 1000000 d 1000000 ltac:(lia) Hd) as Hle.
    rewrite Z.quot_same in Hle by lia. lia. }
  apply Z.eqb_neq in Hms. rewrite Hms. simpl. eauto.
Qed.

Lemma Start_loop_serves done_before done_after result elapsed (q : list sectorUploadReq) :
  1000000 ≤ elapsed →
  ∀ fuel u steps0,
    u_queue u = q →
    Forall (λ req, result (u_fcid u) req ≠ MaxRevisionReached) q →
    (length q < fuel)%nat →
    ∃ steps u',
      Start_loop isClosedStream fuel done_before done_after result elapsed u steps0
      = Some (steps0 ++ steps, u')
      ∧ u_queue u' = []
      ∧ Forall2 (served done_before result (u_fcid u)) steps q.
Proof.
  intros Hd. induction q as [| r q IH]; intros fuel u steps0 Hq Hres Hfuel;
    (destruct fuel as [| fuel]; [simpl in Hfuel; lia |]); simpl; unfold Start_step, pop;
    rewrite Hq.
  - simpl. exists [], u. rewrite app_nil_r. repeat split; [assumption | constructor].
  - apply Forall_cons in Hres as [Hr Hres]. simpl in Hfuel.
    assert (∀ u1 step, u_queue u1 = q → u_fcid u1 = u_fcid u →
              served done_before result (u_fcid u) step r →
              ∃ steps u',
                Start_loop isClosedStream fuel done_before done_after result elapsed u1
                  (steps0 ++ [step])
                = Some (steps0 ++ steps, u')
                ∧ u_queue u' = []
                ∧ Forall2 (served done_before result (u_fcid u)) steps (r :: q)) as Hnext.
    { intros u1 step Hq1 Hf1 Hserved.
      destruct (IH fuel u1 (steps0 ++ [step]) Hq1) as (steps & u' & Hloop & Hempty & HF).
      - rewrite Hf1. assumption.
      - lia.
      - exists (step :: steps), u'. rewrite Hloop, <- app_assoc. simpl.
        repeat split; [assumption |]. constructor; [assumption |].
        rewrite <- Hf1. assumption. }
    unfold served in Hnext.
    destruct (done_before r) eqn:Hdone.
    + simpl. apply Hnext; reflexivity.
    + cbn [contractID set_queue u_fcid]. change (contractID (set_queue q u)) with (u_fcid u).
      destruct (result (u_fcid u) r) as [| msg | root] eqn:Hresult; [contradiction | |].
      * destruct (negb (done_after r && req_overdrive r) && negb (isClosedStream (Some msg))).
        -- destruct (trackSectorUpload_is_Some (Some msg) elapsed (set_queue q u)
                       ltac:(discriminate)) as [u2 Hu2].
           rewrite Hu2. simpl.
           apply trackSectorUpload_frame in Hu2 as (Hq2 & Hf2 & _).
           apply Hnext; [rewrite Hq2 | rewrite Hf2 |]; reflexivity.
        -- simpl. apply Hnext; reflexivity.
      * destruct (negb (isClosedStream None)).
        -- destruct (trackSectorUpload_is_Some None elapsed (set_queue q u)
                       ltac:(intros _; assumption)) as [u2 Hu2].
           rewrite Hu2. simpl.
           apply trackSectorUpload_frame in Hu2 as (Hq2 & Hf2 & _).
           apply Hnext; [rewrite Hq2 | rewrite Hf2 |]; reflexivity.
        -- simpl. apply Hnext; reflexivity.
Qed.

(** The worker loop serves the queue in order: when no request runs into an
    exhausted revision and an execution takes a millisecond or more, one pass
    of the inner loop empties the queue and makes exactly one step for every
    request, oldest first: a request that is done is skipped, every other one
    is executed on the uploader's contract and answered. *)
Theorem Start_loop_serves_queue done_before done_after result elapsed fuel u :
  1000000 ≤ elapsed →
  Forall (λ req, result (u_fcid u) req ≠ MaxRevisionReached) (u_queue u) →
  (length (u_queue u) < fuel)%nat →
  ∃ steps u',
    Start_loop isClosedStream fuel done_before done_after result elapsed u [] = Some (steps, u')
    ∧ u_queue u' = []
    ∧ Forall2 (served done_before result (u_fcid u)) steps (u_queue u).
Proof.
  intros Hd Hres Hfuel.
  apply (Start_loop_serves done_before done_after result elapsed (u_queue u) Hd fuel u []);
    [reflexivity | assumption | assumption].
Qed.

(** A renewal does not touch the queue: a request that was enqueued before
    the renewal is executed on the new contract, and the response carries the
    request with the contract id it was decorated with when it was enqueued. *)
Theorem Start_step_after_renew done_before done_after result elapsed req c bh root u :
  u_queue u = [] →
  done_before (enqueue req u).1 = false →
  result (c_ID c) (enqueue req u).1 = ExecOk root →
  isClosedStream None = false →
  1000000 ≤ elapsed →
  ∃ u',
    Start_step isClosedStream done_before done_after result elapsed
      (renew c bh (enqueue req u).2)
    = Some (Responded (c_ID c) (mkResp (enqueue req u).1 root None), u')
    ∧ req_fcid (enqueue req u).1 = u_fcid u
    ∧ u_fcid u' = c_ID c
    ∧ u_queue u' = [].
Proof.
  intros Hq Hdone Hres Hclosed Hd. unfold Start_step, pop.
  cbn [renew enqueue snd fst u_queue set_queue]. rewrite Hq. cbn [app].
  cbn [enqueue fst] in Hdone, Hres. rewrite Hdone.
  unfold contractID in *. cbn [set_queue u_fcid renew]. rewrite Hres, Hclosed. cbn [negb].
  match goal with
  | |- context [trackSectorUpload None elapsed ?u1] =>
      destruct (trackSectorUpload_is_Some None elapsed u1 ltac:(intros _; assumption))
        as [u2 Hu2];
      rewrite Hu2; apply trackSectorUpload_frame in Hu2 as (Hq2 & Hf2 & _)
  end.
  simpl. exists u2. repeat split; assumption.
Qed.

(** After a series of tracked uploads the uploader is healthy exactly when
    the last one succeeded. *)
Theorem track_all_healthy outcomes : ∀ u,
  0 ≤ u_consecutiveFailures u →
  u_consecutiveFailures u + Z.of_nat (length outcomes) < 2 ^ 64 →
  Forall (λ o : option string * Z, o.1 = None → 1000000 ≤ o.2) outcomes →
  ∃ u', track_all outcomes u = Some u'
    ∧ (outcomes ≠ [] → (healthy u' = true ↔ ∃ d, last outcomes = Some (None, d))).
Proof.
  induction outcomes as [| [err d] rest IH]; intros u Hcf Hlen Hd.
  - exists u. split; [reflexivity | intros Hne; contradiction].
  - apply Forall_cons in Hd as [Hd1 Hd]. simpl in Hd1. simpl length in Hlen.
    destruct (trackSectorUpload_is_Some err d u Hd1) as [u1 Hu1].
    simpl. rewrite Hu1. simpl.
    apply trackSectorUpload_frame in Hu1 as (_ & _ & _ & Hcf1).
    assert (0 ≤ u_consecutiveFailures u1 ≤ u_consecutiveFailures u + 1) as Hcf1'.
    { rewrite Hcf1. destruct err; [rewrite u64_small by lia |]; lia. }
    destruct (IH u1) as (u' & Htrack & Hlast); [lia | lia | assumption |].
    exists u'. split; [assumption |]. intros _.
    destruct rest as [| o rest].
    + simpl in Htrack. injection Htrack as <-. unfold healthy. rewrite Hcf1. simpl.
      destruct err as [e |].
      * rewrite u64_small by lia. split.
        -- intros Hz. apply Z.eqb_eq in Hz. lia.
        -- intros [d' Hd']. discriminate.
      * split; [intros _; eauto | intros _; reflexivity].
    + rewrite Hlast by discriminate. reflexivity.
Qed.

(** [tryRecomputeStats] recomputes at most once in three seconds: a call
    less than three seconds after one that recomputed changes nothing. *)
Theorem tryRecomputeStats_rate_limit now now' u :
  statsRecomputeMinInterval ≤ time_Since now (u_lastRecompute u) →
  now ≤ now' < now + statsRecomputeMinInterval →
  u_lastRecompute (tryRecomputeStats now u) = now
  ∧ tryRecomputeStats now' (tryRecomputeStats now u) = tryRecomputeStats now u.
Proof.
  intros Hfirst Hnow'. unfold tryRecomputeStats at 1 3 4.
  apply Z.ltb_ge in Hfirst. rewrite Hfirst. split; [reflexivity |].
  unfold tryRecomputeStats. cbn [u_lastRecompute].
  assert ((time_Since now' now <? statsRecomputeMinInterval) = true) as ->; [| reflexivity].
  apply Z.ltb_lt. unfold time_Since, time_Sub, minDuration, maxDuration,
    statsRecomputeMinInterval, time_Second in *. lia.
Qed.

End WorkerFacts.

(** ** The manager's statistics and candidates *)

Section ManagerFacts.
Context {DP : Type} `{!DataPointsAPI DP}.
Implicit Types (u : uploader DP) (mgr : uploadManager DP).

Lemma size_list_to_set_le (l : list N) : (size (list_to_set l : gset N) ≤ length l)%nat.
Proof.
  induction l as [| x l IH].
  - change (list_to_set [] : gset N) with (∅ : gset N). rewrite size_empty. simpl. lia.
  - change (list_to_set (x :: l) : gset N) with ({[x]} ∪ list_to_set l : gset N).
    rewrite size_union_alt, size_singleton. simpl length.
    pose proof (subseteq_size (list_to_set l ∖ {[x]}) (list_to_set l : gset N)
                  ltac:(set_solver)).
    lia.
Qed.

Lemma Stats_fold (pool : list (uploader DP)) : ∀ n (sp : gmap N float),
  0 ≤ n → n + Z.of_nat (length pool) < 2 ^ 64 →
  let r :=
    foldl (λ '(numHealthy, speeds) u,
             (if healthy u then u64 (numHealthy + 1) else numHealthy,
              <[u_hk u := PrimFloat.mul (stats_Average (u_statsSectorUploadSpeedBytesPerMS u))
                            0x1.0624dd2f1a9fcp-7%float]> speeds))
      (n, sp) pool in
  r.1 = n + Z.of_nat (length (filter (λ u, healthy u = true) pool))
  ∧ dom r.2 = list_to_set (u_hk <$> pool) ∪ dom sp
  ∧ (NoDup (u_hk <$> pool) →
     ∀ u, u ∈ pool →
       r.2 !! u_hk u
       = Some (PrimFloat.mul (stats_Average (u_statsSectorUploadSpeedBytesPerMS u))
                 0x1.0624dd2f1a9fcp-7%float)).
Proof.
  induction pool as [| v pool IH]; intros n sp Hn Hlen r.
  - unfold r. simpl. split; [lia |]. split; [set_solver |].
    intros _ u Hu. apply elem_of_nil in Hu. contradiction.
  - simpl length in Hlen. unfold r. cbn [foldl].
    match goal with
    | |- context [foldl _ (?n1, ?sp1) pool] => specialize (IH n1 sp1)
    end.
    assert (0 ≤ (if healthy v then u64 (n + 1) else n) ≤ n + 1) as Hn1.
    { destruct (healthy v); [rewrite u64_small by lia |]; lia. }
    destruct IH as (IH1 & IH2 & IH3); [lia | lia |].
    split; [| split].
    + rewrite IH1, filter_cons. destruct (healthy v) eqn:Hv.
      * rewrite decide_True by reflexivity. rewrite u64_small by lia. simpl length. lia.
      * rewrite decide_False by discriminate. lia.
    + rewrite IH2, dom_insert_L, fmap_cons. simpl. set_solver.
    + intros Hnd u Hu. rewrite fmap_cons in Hnd. apply NoDup_cons in Hnd as [Hv Hnd].
      apply elem_of_cons in Hu as [-> | Hu].
      * clear IH3. revert Hv.
        generalize (if healthy v then u64 (n + 1) else n).
        generalize (PrimFloat.mul (stats_Average (u_statsSectorUploadSpeedBytesPerMS v))
                      0x1.0624dd2f1a9fcp-7%float).
        intros x z Hv.
        assert (∀ (l : list (uploader DP)) z (m : gmap N float),
                  u_hk v ∉ u_hk <$> l →
                  (foldl (λ '(numHealthy, speeds) u,
                            (if healthy u then u64 (numHealthy + 1) else numHealthy,
                             <[u_hk u := PrimFloat.mul
                                           (stats_Average (u_statsSectorUploadSpeedBytesPerMS u))
                                           0x1.0624dd2f1a9fcp-7%float]> speeds))
                     (z, m) l).2 !! u_hk v = m !! u_hk v) as Hkeep.
        { clear. induction l as [| w l IH]; intros z m Hnin; [reflexivity |].
          cbn [foldl]. rewrite IH.
          - apply lookup_insert_ne. intros Heq. apply Hnin. rewrite fmap_cons, Heq.
            apply elem_of_cons. left. reflexivity.
          - intros Hin. apply Hnin. rewrite fmap_cons. apply elem_of_cons. right. assumption. }
        rewrite Hkeep by assumption. apply lookup_insert_eq.
      * apply IH3; assumption.
Qed.

(** [Stats] counts the healthy uploaders one by one, but the uploaders by the
    distinct host keys of the speed map: the two agree with the pool when no
    two uploaders share a host. *)
Theorem Stats_counts mgr :
  Z.of_nat (length (mgr_uploaders mgr)) < 2 ^ 64 →
  let pool := mgr_uploaders mgr in
  healthyUploaders (Stats mgr)
  = Z.of_nat (length (filter (λ u, healthy u = true) pool))
  ∧ numUploaders (Stats mgr) = Z.of_nat (size (list_to_set (u_hk <$> pool) : gset N))
  ∧ dom (uploadSpeedsMBPS (Stats mgr)) = list_to_set (u_hk <$> pool)
  ∧ (NoDup (u_hk <$> pool) →
     numUploaders (Stats mgr) = Z.of_nat (length pool)
     ∧ healthyUploaders (Stats mgr) ≤ numUploaders (Stats mgr)
     ∧ ∀ u, u ∈ pool →
         uploadSpeedsMBPS (Stats mgr) !! u_hk u
         = Some (PrimFloat.mul (stats_Average (u_statsSectorUploadSpeedBytesPerMS u))
                   0x1.0624dd2f1a9fcp-7%float)).
Proof.
  intros Hlen pool. unfold Stats. fold pool.
  pose proof (Stats_fold pool 0 ∅ ltac:(lia) ltac:(unfold pool; lia)) as Hfold.
  cbv zeta in Hfold. destruct (foldl _ _ pool) as [numHealthy speeds].
  destruct Hfold as (H1 & H2 & H3). cbn [fst snd] in *.
  cbn [healthyUploaders numUploaders uploadSpeedsMBPS].
  assert (dom speeds = list_to_set (u_hk <$> pool)) as Hdom by (rewrite H2; set_solver).
  assert (size speeds = size (list_to_set (u_hk <$> pool) : gset N)) as Hsize.
  { rewrite <- Hdom, size_dom. reflexivity. }
  pose proof (size_list_to_set_le (u_hk <$> pool)) as Hle. rewrite length_fmap in Hle.
  split; [lia |]. split; [rewrite Hsize, u64_small by (unfold pool in *; lia); reflexivity |].
  split; [assumption |]. intros Hnd.
  rewrite Hsize, u64_small by (unfold pool in *; lia).
  rewrite size_list_to_set, length_fmap by assumption.
  split; [reflexivity |]. split; [| apply H3; assumption].
  rewrite H1. pose proof (length_filter (λ u, healthy u = true) pool). lia.
Qed.

End ManagerFacts.

(** ** From [newUpload] to the first loop of [uploadShards] *)

Section FirstUpload.
Context {DP : Type} `{!DataPointsAPI DP}.
Variable SectorRoot : list Byte.byte → Hash256.
Variable sort_Slice :
  (uploader DP → uploader DP → bool) → list (uploader DP) → list (uploader DP).
Hypothesis sort_Slice_permutes : ∀ less l, sort_Slice less l ≡ₚ l.

Lemma toKeep_fold_other (cs : list ContractMetadata) : ∀ (m : gmap N ContractMetadata) k,
  k ∉ c_ID <$> cs → foldl (λ m c, <[c_ID c := c]> m) m cs !! k = m !! k.
Proof.
  induction cs as [| c cs IH]; intros m k Hk; [reflexivity |]. simpl.
  rewrite fmap_cons in Hk. rewrite IH.
  - apply lookup_insert_ne. intros Heq. apply Hk. rewrite Heq. apply elem_of_cons. tauto.
  - intros Hin. apply Hk. apply elem_of_cons. tauto.
Qed.

Lemma toKeep_fold_member (cs : list ContractMetadata) : ∀ (m : gmap N ContractMetadata) k c,
  foldl (λ m c, <[c_ID c := c]> m) m cs !! k = Some c → c ∈ cs ∨ m !! k = Some c.
Proof.
  induction cs as [| c0 cs IH]; intros m k c Hl; [right; assumption |]. simpl in Hl.
  apply IH in Hl as [Hin | Hl]; [left; apply elem_of_cons; tauto |].
  destruct (decide (c_ID c0 = k)) as [<- | Hne].
  - rewrite lookup_insert_eq in Hl. injection Hl as <-. left. apply elem_of_cons. tauto.
  - rewrite lookup_insert_ne in Hl by assumption. right. assumption.
Qed.

Lemma build_toKeep_NoDup (contracts : list ContractMetadata) c :
  NoDup (c_ID <$> contracts) → c ∈ contracts → build_toKeep contracts !! c_ID c = Some c.
Proof.
  unfold build_toKeep. generalize (∅ : gmap N ContractMetadata).
  induction contracts as [| c0 cs IH]; intros m Hnd Hin.
  - apply elem_of_nil in Hin. contradiction.
  - rewrite fmap_cons in Hnd. apply NoDup_cons in Hnd as [Hc0 Hnd]. simpl.
    apply elem_of_cons in Hin as [-> | Hin].
    + rewrite toKeep_fold_other by assumption. apply lookup_insert_eq.
    + apply IH; assumption.
Qed.

(** The contracts that get a fresh uploader, when there was none before. *)
Lemma range_map_toKeep (order : list N) (contracts : list ContractMetadata) :
  NoDup (c_ID <$> contracts) →
  NoDup order →
  (∀ c, c ∈ contracts → c_ID c ∈ order) →
  range_map order (build_toKeep contracts) ≡ₚ contracts.
Proof.
  intros Hnd Hord Hcover.
  destruct (range_map_ids order (build_toKeep contracts)
              (build_toKeep_ID contracts) Hord) as [Hnd' _].
  apply NoDup_Permutation.
  - eapply NoDup_fmap_1. exact Hnd'.
  - eapply NoDup_fmap_1. exact Hnd.
  - intros c. unfold range_map. rewrite list_elem_of_omap. split.
    + intros (k & _ & Hk). unfold build_toKeep in Hk.
      apply toKeep_fold_member in Hk as [Hin | Hk]; [assumption |].
      rewrite lookup_empty in Hk. discriminate.
    + intros Hin. exists (c_ID c). split; [apply Hcover; assumption |].
      apply build_toKeep_NoDup; assumption.
Qed.

Lemma allowed_fold (contracts : list ContractMetadata) : ∀ a : gset N,
  foldl (λ (a : gset N) c, {[c_HostKey c]} ∪ a) a contracts
  = list_to_set (c_HostKey <$> contracts) ∪ a.
Proof.
  induction contracts as [| c cs IH]; intros a; simpl; [set_solver |].
  rewrite IH. set_solver.
Qed.

Lemma filter_all {A : Type} (P : A → Prop) `{!∀ x, Decision (P x)} (l : list A) :
  Forall P l → filter P l = l.
Proof.
  induction l as [| x l IH]; intros HF; [reflexivity |].
  apply Forall_cons in HF as [Hx HF]. rewrite filter_cons, decide_True by assumption.
  rewrite IH by assumption. reflexivity.
Qed.

(** The first upload of a manager: the pool is empty, the contracts have
    pairwise distinct ids and hosts, and there is one for every shard. Then
    [newUpload] starts one uploader per contract and returns an upload whose
    candidates are all of them, and [uploadShards] launches every shard. *)
Theorem newUpload_then_uploadShards_start
    (now now' : Z) (is_done : sectorUploadReq → bool) (order : list N) (fresh_id : UploadID)
    (contracts : list ContractMetadata) (bh lockPriority : Z) (mgr : uploadManager DP)
    (shards : list (list Byte.byte)) (mem maxOverdrive overdriveTimeout : Z) :
  mgr_uploaders mgr = [] →
  NoDup (c_ID <$> contracts) →
  NoDup (c_HostKey <$> contracts) →
  NoDup order →
  (∀ c, c ∈ contracts → c_ID c ∈ order) →
  (length shards ≤ length contracts)%nat →
  Z.of_nat (length shards) < 2 ^ 64 →
  ∃ up mgr' eff st0,
    newUpload now is_done order fresh_id (Z.of_nat (length shards)) contracts bh lockPriority mgr
    = (inr up, mgr', eff)
    ∧ up_allowed up = list_to_set (c_HostKey <$> contracts)
    ∧ eff_stopped eff = []
    ∧ eff_started eff = mgr_uploaders mgr'
    ∧ mgr_uploaders mgr' ≡ₚ (λ c, newUploader c bh) <$> contracts
    ∧ candidates sort_Slice (up_allowed up) mgr' ≡ₚ mgr_uploaders mgr'
    ∧ uploadShards_start SectorRoot now' up shards (candidates sort_Slice (up_allowed up) mgr')
        mem maxOverdrive overdriveTimeout
      = inr st0
    ∧ sl_numInflight (sys_slab st0) = Z.of_nat (length shards)
    ∧ length (sys_pending st0) = length shards.
Proof.
  intros Hpool Hids Hhks Hord Hcover Hlen HN.
  pose proof (range_map_toKeep order contracts Hids Hord Hcover) as Hperm.
  unfold newUpload, refreshUploaders. rewrite Hpool. cbn [refresh_loop].
  rewrite (proj2 (Z.ltb_ge _ _)) by lia.
  rewrite allowed_fold.
  replace (list_to_set (c_HostKey <$> contracts) ∪ (∅ : gset N))
    with (list_to_set (c_HostKey <$> contracts) : gset N) by set_solver.
  set (pool := (λ c, newUploader c bh) <$> range_map order (build_toKeep contracts)).
  assert (pool ≡ₚ (λ c, newUploader c bh) <$> contracts) as Hpool'.
  { unfold pool. rewrite Hperm. reflexivity. }
  assert (filter (λ u : uploader DP, u_hk u ∈ (list_to_set (c_HostKey <$> contracts) : gset N))
            pool = pool) as Hfilter.
  { apply filter_all. apply Forall_forall. intros u Hu. rewrite Hpool' in Hu.
    apply list_elem_of_fmap in Hu as (c & -> & Hc). simpl.
    apply elem_of_list_to_set, list_elem_of_fmap. eauto. }
  set (up := mkUpload fresh_id (list_to_set (c_HostKey <$> contracts)) lockPriority).
  set (mgr' := set_uploaders ([] ++ pool) mgr).
  assert (candidates sort_Slice (up_allowed up) mgr' ≡ₚ pool) as Hcands.
  { unfold candidates. rewrite sort_Slice_permutes. cbn [up_allowed up mgr' mgr_uploaders
      set_uploaders app]. rewrite Hfilter. reflexivity. }
  destruct (start_assignment SectorRoot now' up shards
              (candidates sort_Slice (up_allowed up) mgr') mem maxOverdrive overdriveTimeout)
    as (st0 & Hst & Hpend & _ & _ & HI & _).
  { rewrite Hcands, Hpool', <- list_fmap_compose. exact Hhks. }
  { rewrite Hcands, Hpool', length_fmap. assumption. }
  { assumption. }
  exists up, mgr', (mkEffects [] pool), st0.
  split; [reflexivity |]. split; [reflexivity |]. split; [reflexivity |].
  split; [reflexivity |]. split; [exact Hpool' |]. split; [exact Hcands |].
  split; [exact Hst |]. split; [exact HI |].
  rewrite Hpend, length_zip_with, length_seq, Hcands, Hpool', length_fmap. lia.
Qed.

End FirstUpload.

(** ** An upload whose overdrive is switched off *)

Section NoOverdrive.
Context {DP : Type} `{!DataPointsAPI DP}.
Variable SectorRoot : list Byte.byte → Hash256.
Implicit Types (s : slabUpload DP) (st : sys DP) (req : sectorUploadReq).

(** The launch of a regular request. *)
Lemma launch_plain now req s :
  req_overdrive req = false →
  let r := launch now (Some req) s in
  (l_enqueued r = None ∧ l_slab r = s)
  ∨ (∃ req', l_enqueued r = Some req'
       ∧ req_overdrive req' = false ∧ req_sector req' = req_sector req
       ∧ (req_hk req' ∉ sl_used s)
       ∧ sl_used (l_slab r) = {[req_hk req']} ∪ sl_used s
       ∧ sl_overdriving (l_slab r) = sl_overdriving s
       ∧ sl_numOverdriving (l_slab r) = sl_numOverdriving s
       ∧ sl_sectors (l_slab r) = sl_sectors s
       ∧ sl_numInflight (l_slab r) = u64 (sl_numInflight s + 1)).
Proof.
  intros Hov r. unfold r, launch.
  destruct (enqueue_candidate (sl_used s) req (sl_candidates s)) as [[req' c'] |] eqn:E;
    [| left; split; reflexivity].
  right. exists req'.
  destruct (enqueue_candidate_overdrive _ _ _ _ _ E) as [Ho Hs].
  destruct (enqueue_candidate_Some _ _ _ _ _ E) as (Hfree & _ & _).
  rewrite Hov in Ho. rewrite Ho. cbn [l_enqueued l_slab sl_used sl_overdriving
    sl_numOverdriving sl_sectors sl_numInflight].
  repeat split; assumption.
Qed.

Lemma NoDup_length_le_size {V : Type} (m : gmap nat V) (l : list nat) :
  NoDup l → (∀ x, x ∈ l → is_Some (m !! x)) → (length l ≤ size m)%nat.
Proof.
  intros Hnd Hin. rewrite <- (size_list_to_set (C := gset nat) l Hnd), <- size_dom.
  apply subseteq_size. intros x Hx. apply elem_of_list_to_set in Hx.
  apply elem_of_dom. apply Hin. assumption.
Qed.

Lemma quiet_Permutation s (pending pending' : list sectorUploadReq) :
  pending ≡ₚ pending' → quiet s pending → quiet s pending'.
Proof.
  intros Hperm (H1 & H2 & H3 & H4 & H5 & H6 & H7 & H8).
  unfold quiet.
  split; [assumption |]. split; [assumption |].
  split; [exact (Permutation_Forall Hperm H3) |].
  split; [exact (Permutation_Forall Hperm H4) |].
  split; [exact (proj1 (NoDup_Permutation_proper _ _ (fmap_Permutation req_sector _ _ Hperm)) H5) |].
  split; [exact (proj1 (NoDup_Permutation_proper _ _ (fmap_Permutation req_hk _ _ Hperm)) H6) |].
  split; [| assumption].
  rewrite H7. f_equal. apply Permutation_length. assumption.
Qed.

Lemma waiting_sectors s s' req :
  sl_sectors s' = sl_sectors s → waiting s req → waiting s' req.
Proof. unfold waiting. intros ->. tauto. Qed.

Lemma launch_quiet now req s (pending : list sectorUploadReq) :
  quiet s pending →
  req_overdrive req = false →
  waiting s req →
  req_sector req ∉ req_sector <$> pending →
  quiet (l_slab (launch now (Some req) s))
    (pending ++ option_list (l_enqueued (launch now (Some req) s))).
Proof.
  intros (H1 & H2 & H3 & H4 & H5 & H6 & H7 & H8) Hov Hwait Hnew.
  destruct (launch_plain now req s Hov) as [[-> ->] | (req' & -> & Ho & Hs & Hfree & Hused
    & Hovd & Hnum & Hsec & HI)].
  - simpl. rewrite app_nil_r. repeat split; assumption.
  - simpl option_list.
    assert (NoDup (req_sector <$> pending ++ [req'])) as Hnd.
    { rewrite fmap_app. apply NoDup_app. split; [assumption |]. split.
      - intros x Hx Hx'. simpl in Hx'. apply list_elem_of_singleton in Hx'.
        subst x. rewrite Hs in Hx. contradiction.
      - simpl. apply NoDup_singleton. }
    assert (Forall (waiting (l_slab (launch now (Some req) s))) (pending ++ [req'])) as Hw.
    { apply Forall_app. split.
      - eapply Forall_impl; [exact H4 |]. intros r. apply waiting_sectors. assumption.
      - apply Forall_singleton. apply (waiting_sectors s); [assumption |].
        unfold waiting in *. rewrite Hs. assumption. }
    assert (length (pending ++ [req']) ≤ size (sl_sectors s))%nat as Hlen.
    { rewrite <- (length_fmap req_sector). apply NoDup_length_le_size; [assumption |].
      intros x Hx. apply list_elem_of_fmap in Hx as (r & -> & Hr).
      rewrite Forall_forall in Hw. destruct (Hw r Hr) as (sector & Hl & _).
      rewrite Hsec in Hl. eauto. }
    rewrite length_app in Hlen. simpl in Hlen.
    unfold quiet. rewrite Hnum, Hovd, Hused, Hsec, HI.
    split; [assumption |]. split; [assumption |]. split; [| split; [| split; [| split]]].
    + apply Forall_app. split.
      * eapply Forall_impl; [exact H3 |]. intros r [Hr1 Hr2]. split; [assumption | set_solver].
      * apply Forall_singleton. split; [assumption | set_solver].
    + assumption.
    + assumption.
    + rewrite fmap_app. apply NoDup_app. split; [assumption |]. split.
      * intros x Hx Hx'. simpl in Hx'. apply list_elem_of_singleton in Hx'. subst x.
        apply list_elem_of_fmap in Hx as (r & Hr & Hin).
        rewrite Forall_forall in H3. destruct (H3 r Hin) as [_ Hu]. rewrite <- Hr in Hu.
        contradiction.
      * simpl. apply NoDup_singleton.
    + split; [| assumption]. rewrite length_app. simpl length.
      rewrite H7, u64_small by lia. lia.
Qed.

(** What [receive] does to the fields of the overdrive. *)
Lemma receive_overdrive_fields resp s done s' :
  receive resp s = Some (done, s') →
  sl_overdriving s' = sl_overdriving s
  ∧ sl_numOverdriving s'
    = (if req_overdrive (resp_req resp) then u64 (sl_numOverdriving s - 1)
       else sl_numOverdriving s)
  ∧ (sl_used s' = sl_used s
     ∨ ∃ i, sl_used s' = sl_used s ∖ overdriving_of s i).
Proof.
  unfold receive.
  destruct (sl_sectors s !! req_sector (resp_req resp)) as [sector |]; simpl; [| discriminate].
  destruct (resp_err resp) as [e |].
  - intros H. injection H as <- <-. simpl. repeat split. left. reflexivity.
  - destruct (isUploaded sector).
    + intros H. injection H as <- <-. simpl. repeat split. left. reflexivity.
    + destruct (bool_decide (su_index sector < length (sl_shards s))%nat); [| discriminate].
      intros H. injection H as <- <-. simpl. repeat split. right. eauto.
Qed.

Lemma overdriving_of_empty s i : sl_overdriving s = ∅ → overdriving_of s i = ∅.
Proof. unfold overdriving_of. intros ->. rewrite lookup_empty. reflexivity. Qed.

Lemma exec_no_overdrive st ev st' :
  no_overdrive st → exec st ev = Some st' → no_overdrive st'.
Proof.
  intros (Hoff & Htimer & Hred & Hquiet & Hrl) Hex.
  destruct ev as [k root err | k | k | now | now | order | now].
  - apply exec_Respond in Hex
      as (req & sector & done & s' & _ & Hnorl & _ & Hk & Hsec & Hrecv & ->).
    pose proof (delete_Permutation _ _ _ Hk) as Hperm.
    apply (quiet_Permutation _ _ _ Hperm) in Hquiet.
    destruct Hquiet as (H1 & H2 & H3 & H4 & H5 & H6 & H7 & H8).
    apply Forall_cons in H3 as [[Hov Hhk] H3]. apply Forall_cons in H4 as [Hwait H4].
    rewrite fmap_cons in H5. rewrite fmap_cons in H6. apply NoDup_cons in H5 as [Hs5 H5].
    apply NoDup_cons in H6 as [Hs6 H6]. simpl length in H7.
    destruct Hwait as (sector0 & Hsec0 & Hcan & Hup).
    rewrite Hsec in Hsec0. injection Hsec0 as <-.
    destruct (receive_overdrive_fields _ _ _ _ Hrecv) as (Hovd' & Hnum' & Hused').
    cbn [resp_req] in Hnum'. rewrite Hov in Hnum'.
    assert (sl_used s' = sl_used (sys_slab st)) as Hused.
    { destruct Hused' as [-> | [i ->]]; [reflexivity |].
      rewrite (overdriving_of_empty _ i H2). set_solver. }
    destruct (receive_cases _ _ _ _ Hrecv)
      as (sector1 & Hsec1 & _ & Hk' & Ht' & _ & HI' & Hcases).
    cbn [resp_req resp_err resp_root] in Hsec1, Hcases.
    rewrite Hsec in Hsec1. injection Hsec1 as <-.
    assert (length (delete k (sys_pending st)) < size (sl_sectors (sys_slab st)))%nat as Hlen.
    { assert (length (req_sector req :: (req_sector <$> delete k (sys_pending st)))
              ≤ size (sl_sectors (sys_slab st)))%nat as Hle.
      { apply NoDup_length_le_size.
        - apply NoDup_cons. split; assumption.
        - intros x Hx. apply elem_of_cons in Hx as [-> | Hx]; [eauto |].
          apply list_elem_of_fmap in Hx as (r & -> & Hr).
          rewrite Forall_forall in H4. destruct (H4 r Hr) as (sec & Hl & _). eauto. }
      simpl length in Hle. rewrite length_fmap in Hle. lia. }
    assert (sl_numInflight s' = Z.of_nat (length (delete k (sys_pending st)))) as HI.
    { rewrite HI', H7, u64_small by lia. lia. }
    unfold no_overdrive. cbn [sys_slab sys_pending sys_relaunch sys_timer sys_redundant].
    rewrite Hk', Ht'. split; [assumption |]. split; [assumption |].
    destruct Hcases as [(Herr & -> & Hsecs & _) | [(_ & Hup' & _) | (-> & _ & _ & Hsecs & _)]].
    + destruct err as [e |]; [| destruct Herr; discriminate].
      split; [lia |]. split.
      * unfold quiet. rewrite Hovd', Hnum', Hused, Hsecs.
        repeat split; try assumption.
        eapply Forall_impl; [exact H4 |]. intros r. apply waiting_sectors. assumption.
      * rewrite Hov. simpl. intros r Hr. injection Hr as <-.
        split; [assumption |]. split; [| assumption].
        exists sector. rewrite Hsecs. repeat split; assumption.
    + rewrite Hup in Hup'. discriminate.
    + rewrite Hup. split; [lia |]. split.
      * unfold quiet. rewrite Hovd', Hnum', Hused, Hsecs.
        rewrite map_size_insert_Some by eauto.
        repeat split; try assumption.
        apply Forall_forall. intros r Hr. rewrite Forall_forall in H4.
        destruct (H4 r Hr) as (sec & Hl & Hc & Hu). exists sec.
        rewrite Hsecs, lookup_insert_ne; [repeat split; assumption |].
        intros Heq. apply Hs5. rewrite Heq. apply list_elem_of_fmap. eauto.
      * replace (bool_decide (is_Some (@None string))) with false by reflexivity.
        rewrite andb_false_r. simpl. intros r Hr. discriminate.
  - unfold exec in Hex.
    destruct (sys_pending st !! k) as [req |] eqn:Hk; simpl in Hex; [| discriminate].
    destruct Hquiet as (_ & _ & _ & H4 & _).
    rewrite Forall_forall in H4.
    destruct (H4 req (list_elem_of_lookup_2 _ _ _ Hk)) as (sector & Hsec & Hcan & _).
    unfold req_done in Hex. rewrite Hsec, Hcan, andb_false_r in Hex. discriminate.
  - unfold exec in Hex.
    destruct (sys_pending st !! k) as [req |] eqn:Hk; simpl in Hex; [| discriminate].
    destruct (head_of_host (sys_pending st) k req && negb (req_done (sys_slab st) req));
      [| discriminate].
    injection Hex as <-.
    assert (sys_pending st ≡ₚ delete k (sys_pending st) ++ [req]) as Hperm.
    { rewrite (delete_Permutation _ _ _ Hk) at 1. apply Permutation_cons_append. }
    unfold no_overdrive. cbn [sys_slab sys_pending sys_relaunch sys_timer sys_redundant].
    split; [assumption |]. split; [assumption |]. split; [assumption |].
    split; [eapply quiet_Permutation; eassumption |].
    intros r Hr. destruct (Hrl r Hr) as (Ho & Hw & Hnin).
    split; [assumption |]. split; [assumption |].
    intros Hin. apply Hnin.
    apply list_elem_of_fmap in Hin as (r' & -> & Hr').
    apply list_elem_of_fmap. exists r'. split; [reflexivity |].
    apply elem_of_Permutation_proper with (x := r') in Hperm. apply Hperm. assumption.
  - unfold exec in Hex.
    destruct (sys_relaunch st) as [req |] eqn:Hreq; simpl in Hex; [| discriminate].
    injection Hex as <-.
    destruct (Hrl req eq_refl) as (Ho & Hw & Hnin).
    pose proof (launch_frame now (Some req) (sys_slab st)) as (_ & _ & _ & Hk' & Ht' & _).
    unfold no_overdrive. cbn [sys_slab sys_pending sys_relaunch sys_timer sys_redundant].
    rewrite Hk', Ht'. split; [assumption |]. split; [assumption |]. split; [assumption |].
    split; [apply launch_quiet; assumption |]. intros r Hr. discriminate.
  - unfold exec in Hex. rewrite Htimer in Hex.
    destruct (sl_overdriveTimeout (sys_slab st) =? 0) eqn:Hz; [discriminate |].
    apply Z.eqb_neq in Hz. destruct Hoff as [Hoff | Hoff]; [contradiction |].
    injection Hex as <-.
    assert (canOverdrive now (sys_slab st) = false) as ->.
    { unfold canOverdrive. rewrite Hoff.
      match goal with
      | |- context [0 <=? u64 ?z] =>
          pose proof (u64_range z) as Hr;
          rewrite (proj2 (Z.leb_le 0 (u64 z))) by lia
      end. reflexivity. }
    unfold no_overdrive. cbn [sys_slab sys_pending sys_relaunch sys_timer sys_redundant].
    split; [right; assumption |]. split; [reflexivity |]. split; [assumption |].
    split; [assumption | exact Hrl].
  - unfold exec in Hex. rewrite Htimer in Hex. discriminate.
  - unfold exec in Hex. rewrite Htimer in Hex. discriminate.
Qed.

Lemma prepare_sectors_open lockPriority uploadID sI shards i sector :
  fst (prepare_sectors SectorRoot lockPriority uploadID sI shards) !! i = Some sector →
  su_cancelled sector = false ∧ isUploaded sector = false.
Proof.
  revert sI. induction shards as [| shard rest IH]; intros sI; simpl.
  - rewrite lookup_empty. discriminate.
  - specialize (IH (S sI)).
    destruct (prepare_sectors SectorRoot lockPriority uploadID (S sI) rest) as [sectors requests].
    simpl in *. destruct (decide (sI = i)) as [-> | Hne].
    + rewrite lookup_insert_eq. intros H. injection H as <-. split; reflexivity.
    + rewrite lookup_insert_ne by assumption. exact IH.
Qed.

Lemma launch_all_quiet now requests : ∀ s pending s' pending',
  launch_all now requests s pending = inr (s', pending') →
  quiet s pending →
  Forall (λ r, req_overdrive r = false ∧ waiting s r) requests →
  NoDup (req_sector <$> requests) →
  (∀ r, r ∈ requests → req_sector r ∉ req_sector <$> pending) →
  quiet s' pending'
  ∧ sl_overdriveTimeout s' = sl_overdriveTimeout s
  ∧ sl_maxOverdrive s' = sl_maxOverdrive s.
Proof.
  induction requests as [| req rest IH]; intros s pending s' pending' Hall Hq HF Hnd Hnew;
    simpl in Hall.
  - injection Hall as <- <-. split; [assumption | split; reflexivity].
  - destruct (l_err (launch now (Some req) s)) eqn:He; [discriminate |].
    apply Forall_cons in HF as [[Hov Hw] HF].
    rewrite fmap_cons in Hnd. apply NoDup_cons in Hnd as [Hreq Hnd].
    pose proof (launch_frame now (Some req) s) as (_ & Hsec & _ & Hk & Ht & _).
    apply IH in Hall as (Hq' & Ht' & Hk').
    + rewrite Ht', Hk', Ht, Hk. split; [assumption | split; reflexivity].
    + apply launch_quiet; [assumption | assumption | assumption |].
      apply Hnew. apply elem_of_cons. left. reflexivity.
    + eapply Forall_impl; [exact HF |]. intros r [Hr1 Hr2]. split; [assumption |].
      apply (waiting_sectors s); assumption.
    + assumption.
    + intros r Hr. rewrite fmap_app, elem_of_app. intros [Hin | Hin].
      * apply (Hnew r); [apply elem_of_cons; right; assumption | assumption].
      * destruct (l_enqueued (launch now (Some req) s)) as [req' |] eqn:Hen; simpl in Hin.
        -- apply list_elem_of_singleton in Hin.
           apply launch_enqueued_sector in Hen as (req0 & Hreq0 & Hs).
           injection Hreq0 as <-. apply Hreq. rewrite <- Hs, <- Hin.
           apply list_elem_of_fmap. eauto.
        -- apply elem_of_nil in Hin. contradiction.
Qed.

Lemma start_no_overdrive now u shards (candidates : list (uploader DP)) mem maxOverdrive
    overdriveTimeout st0 :
  uploadShards_start SectorRoot now u shards candidates mem maxOverdrive overdriveTimeout
  = inr st0 →
  overdriveTimeout = 0 ∨ maxOverdrive = 0 →
  Z.of_nat (length shards) < 2 ^ 64 →
  no_overdrive st0.
Proof.
  unfold uploadShards_start, newSlabUpload. intros Hst Hoff HN.
  pose proof (prepare_sectors_snd SectorRoot (up_lockPriority u) (up_id u) 0 shards) as Hreqs.
  pose proof (prepare_sectors_spec SectorRoot (up_lockPriority u) (up_id u) 0 shards)
    as [Hdom Hidx].
  pose proof (prepare_sectors_open (up_lockPriority u) (up_id u) 0 shards) as Hopen.
  destruct (prepare_sectors SectorRoot (up_lockPriority u) (up_id u) 0 shards)
    as [sectors requests]. cbn [fst snd] in *.
  destruct (launch_all _ _ _ _) as [e | [s pending]] eqn:Hall; [discriminate |].
  injection Hst as <-.
  apply launch_all_quiet in Hall as (Hq & Ht & Hk).
  - unfold no_overdrive. cbn [sys_slab sys_pending sys_relaunch sys_timer sys_redundant].
    rewrite Ht, Hk. simpl. split; [assumption |]. split; [reflexivity |].
    split; [reflexivity |]. split; [assumption |]. intros r Hr. discriminate.
  - unfold quiet. simpl. repeat split; try constructor.
    rewrite <- size_dom, Hdom, size_set_seq. assumption.
  - rewrite Hreqs. apply Forall_fmap, Forall_forall. intros i Hi. simpl.
    split; [reflexivity |]. apply elem_of_seq in Hi. unfold waiting. simpl.
    assert (is_Some (sectors !! i)) as [sector Hsec].
    { apply elem_of_dom. rewrite Hdom. apply elem_of_set_seq. lia. }
    exists sector. split; [assumption |]. apply (Hopen i). assumption.
  - rewrite Hreqs, <- list_fmap_compose.
    replace (req_sector ∘ (λ i, mkReq (up_lockPriority u) false i (up_id u) zeroFCID 0%N))
      with (@id nat) by reflexivity.
    rewrite list_fmap_id. apply NoDup_seq.
  - intros r _ Hin. simpl in Hin. apply elem_of_nil in Hin. contradiction.
Qed.

(** With an overdrive timeout of zero, or with [maxOverdrive = 0], nothing is
    ever overdriven: every request in flight is a regular one; no two of them
    are for the same sector or at the same host; [numInflight] is their
    number; no success arrives for a sector that is uploaded already; and no
    uploader ever finds a request of its queue cancelled. *)
Theorem no_overdrive_run now u shards (candidates : list (uploader DP)) mem maxOverdrive
    overdriveTimeout (st0 st : sys DP) (tr : list event) :
  uploadShards_start SectorRoot now u shards candidates mem maxOverdrive overdriveTimeout
  = inr st0 →
  run st0 tr = Some st →
  overdriveTimeout = 0 ∨ maxOverdrive = 0 →
  Z.of_nat (length shards) < 2 ^ 64 →
  sl_numOverdriving (sys_slab st) = 0
  ∧ Forall (λ r, req_overdrive r = false) (sys_pending st)
  ∧ NoDup (req_sector <$> sys_pending st)
  ∧ NoDup (req_hk <$> sys_pending st)
  ∧ sl_numInflight (sys_slab st) = Z.of_nat (length (sys_pending st))
  ∧ sys_redundant st = 0
  ∧ sys_timer st = TimerIdle
  ∧ ∀ k, exec st (Drop k) = None.
Proof.
  intros Hst Hrun Hoff HN.
  assert (no_overdrive st) as (_ & Htimer & Hred & (H1 & _ & H3 & H4 & H5 & H6 & H7 & _) & _).
  { eapply (run_invariant no_overdrive); [apply exec_no_overdrive | | eassumption].
    eapply start_no_overdrive; eassumption. }
  split; [assumption |]. split.
  { eapply Forall_impl; [exact H3 |]. intros r [Hr _]. assumption. }
  split; [assumption |]. split; [assumption |]. split; [assumption |].
  split; [assumption |]. split; [assumption |].
  intros k. unfold exec.
  destruct (sys_pending st !! k) as [req |] eqn:Hk; [| reflexivity]. simpl.
  rewrite Forall_forall in H4.
  destruct (H4 req (list_elem_of_lookup_2 _ _ _ Hk)) as (sector & Hsec & Hcan & _).
  unfold req_done. rewrite Hsec, Hcan, andb_false_r. reflexivity.
Qed.

End NoOverdrive.

(** ** [Upload]: cutting the input into slabs *)

Lemma ReadFull_EOF size :
  0 < size →
  ReadFull size [] = (replicate (Z.to_nat size) Byte.x00, 0, readEOF, []).
Proof.
  intros Hs. unfold ReadFull. rewrite (proj2 (Z.eqb_neq _ _)) by lia.
  rewrite take_nil. simpl. rewrite Nat.sub_0_r. reflexivity.
Qed.

Lemma ReadFull_short size cr :
  cr ≠ [] → Z.of_nat (length cr) < size →
  ReadFull size cr
  = (cr ++ replicate (Z.to_nat size - length cr) Byte.x00, Z.of_nat (length cr),
     readUnexpectedEOF, []).
Proof.
  intros Hne Hs. unfold ReadFull. rewrite (proj2 (Z.eqb_neq _ _)) by lia.
  rewrite take_ge by lia. rewrite drop_ge by lia.
  destruct cr as [| b cr]; [contradiction |].
  rewrite (proj2 (Nat.eqb_neq _ _)) by (simpl; lia).
  rewrite (proj2 (Nat.ltb_lt _ _)) by lia. reflexivity.
Qed.

Lemma ReadFull_full size cr :
  0 < size → size ≤ Z.of_nat (length cr) →
  ReadFull size cr = (take (Z.to_nat size) cr, size, readNil, drop (Z.to_nat size) cr).
Proof.
  intros Hs Hle. unfold ReadFull. rewrite (proj2 (Z.eqb_neq _ _)) by lia.
  rewrite length_take, Nat.min_l by lia.
  rewrite (proj2 (Nat.eqb_neq _ _)) by lia.
  rewrite (proj2 (Nat.ltb_ge _ _)) by lia.
  rewrite Nat.sub_diag. simpl. rewrite app_nil_r, Z2Nat.id by lia. reflexivity.
Qed.

Lemma int64_small z : - 2 ^ 63 ≤ z < 2 ^ 63 → int64 z = z.
Proof.
  intros Hz. unfold int64. rewrite Z.mod_small; lia.
Qed.

(** The reader loop from an arbitrary round on, as long as no partial slab
    has been set aside. *)
Lemma producer_loop_spec size packing :
  0 < size →
  ∀ fuel cr tasks,
    (length cr + 2 ≤ fuel)%nat →
    Z.of_nat (length tasks) + Z.of_nat (length cr) + 1 < 2 ^ 63 →
    let r := producer_loop fuel size packing cr (Z.of_nat (length tasks)) None tasks in
    ∃ more,
      prod_tasks r = tasks ++ more
      ∧ prod_end r = Announced (Z.of_nat (length (tasks ++ more)))
      ∧ (task_index <$> more) = (Z.of_nat <$> seq (length tasks) (length more))
      ∧ concat (payload <$> more) ++ default [] (prod_partial r) = cr
      ∧ Forall (λ t, Z.of_nat (length (task_data t)) = size ∧ 0 < task_length t ≤ size) more
      ∧ (if packing
         then Forall (λ t, task_length t = size) more
              ∧ Z.of_nat (length (default [] (prod_partial r))) = Z.of_nat (length cr) mod size
              ∧ (prod_partial r = None ↔ Z.of_nat (length cr) mod size = 0)
         else prod_partial r = None).
Proof.
  intros Hsize. induction fuel as [| fuel IH]; intros cr tasks Hfuel Hbound r; [lia |].
  unfold r. cbn [producer_loop]. rewrite (proj2 (Z.ltb_ge _ _)) by lia.
  destruct (decide (cr = [])) as [-> | Hne].
  - rewrite ReadFull_EOF by assumption. simpl.
    exists []. rewrite app_nil_r. simpl.
    repeat split; try constructor.
    destruct packing; [| reflexivity]. rewrite Z.mod_0_l by lia.
    repeat split; constructor.
  - destruct (decide (Z.of_nat (length cr) < size)) as [Hshort | Hfull].
    + rewrite ReadFull_short by assumption.
      assert (int64 (Z.of_nat (length tasks) + 1) = Z.of_nat (length tasks) + 1) as Hidx
        by (apply int64_small; lia).
      destruct packing.
      * destruct fuel as [| fuel']; [simpl in Hfuel; lia |].
        cbn [producer_loop]. rewrite (proj2 (Z.ltb_ge _ _)) by lia.
        rewrite ReadFull_EOF by assumption. rewrite Hidx.
        replace (bool_decide (is_Some (Some (take (Z.to_nat (Z.of_nat (length cr)))
                   (cr ++ replicate (Z.to_nat size - length cr) Byte.x00))))) with true
          by (symmetry; apply bool_decide_eq_true_2; eauto).
        rewrite (proj2 (Z.ltb_lt _ _)) by lia. cbn [andb].
        rewrite int64_small by lia.
        exists []. rewrite app_nil_r. cbn [prod_tasks prod_end prod_partial].
        rewrite Nat2Z.id, take_app_length. simpl default.
        split; [reflexivity |]. split; [f_equal; lia |]. split; [reflexivity |].
        split; [reflexivity |]. split; [constructor |]. split; [constructor |].
        rewrite Z.mod_small by lia. split; [reflexivity |].
        split; [discriminate |]. intros Hz. destruct cr; [contradiction | simpl in Hz; lia].
      * rewrite Hidx.
        replace (Z.of_nat (length tasks) + 1)
          with (Z.of_nat (length (tasks ++ [mkTask
                  (cr ++ replicate (Z.to_nat size - length cr) Byte.x00)
                  (Z.of_nat (length cr)) (Z.of_nat (length tasks))])))
          by (rewrite length_app; simpl; lia).
        match goal with
        | |- context [producer_loop fuel size false [] _ None ?tasks1] =>
            destruct (IH [] tasks1) as (more & H1 & H2 & H3 & H4 & H5 & H6)
        end.
        { simpl. simpl in Hfuel. destruct cr; [contradiction | simpl in Hfuel; lia]. }
        { rewrite length_app. simpl. destruct cr; [contradiction | simpl in Hbound |- *; lia]. }
        eexists (_ :: more). rewrite H1, H2, <- !app_assoc. cbn [app].
        split; [reflexivity |]. split; [reflexivity |]. split.
        { rewrite fmap_cons, H3, length_app. cbn [length seq task_index].
          rewrite fmap_cons, Nat.add_1_r. reflexivity. }
        split.
        { destruct more as [| t more].
          - rewrite H6. cbn [fmap list_fmap concat default]. unfold payload.
            cbn [task_length task_data].
            rewrite Nat2Z.id, take_app_length. rewrite !app_nil_r. reflexivity.
          - exfalso. apply (f_equal length) in H4. rewrite length_app in H4. simpl in H4.
            apply Forall_cons in H5 as [[Ht1 Ht2] _]. unfold payload in H4.
            rewrite length_app, length_take in H4. lia. }
        split; [| assumption].
        constructor; [| assumption]. simpl. split; [| destruct cr; [contradiction | simpl in *; lia]].
        rewrite length_app, length_replicate. lia.
    + rewrite ReadFull_full by lia.
      rewrite int64_small by lia.
      replace (Z.of_nat (length tasks) + 1)
        with (Z.of_nat (length (tasks ++ [mkTask (take (Z.to_nat size) cr) size
                                            (Z.of_nat (length tasks))])))
        by (rewrite length_app; simpl; lia).
      match goal with
      | |- context [producer_loop fuel size packing ?cr1 _ None ?tasks1] =>
          destruct (IH cr1 tasks1) as (more & H1 & H2 & H3 & H4 & H5 & H6)
      end.
      { rewrite length_drop. lia. }
      { rewrite length_app, length_drop. simpl. lia. }
      eexists (_ :: more). rewrite H1, H2, <- !app_assoc. cbn [app].
      split; [reflexivity |]. split; [reflexivity |]. split.
      { rewrite fmap_cons, H3, length_app. cbn [length seq task_index].
        rewrite fmap_cons, Nat.add_1_r. reflexivity. }
      split.
      { rewrite fmap_cons. cbn [concat]. unfold payload at 1. cbn [task_length task_data].
        rewrite take_take, Nat.min_id, <- app_assoc, H4. apply take_drop. }
      split.
      { constructor; [| assumption]. simpl. rewrite length_take. lia. }
      destruct packing; [| assumption].
      destruct H6 as (H6 & H7 & H8). rewrite length_drop in H7, H8.
      assert (Z.of_nat (length cr - Z.to_nat size) mod size = Z.of_nat (length cr) mod size)
        as Hmod.
      { rewrite Nat2Z.inj_sub, Z2Nat.id by lia.
        rewrite <- (Z.mod_add (Z.of_nat (length cr) - size) 1 size) by lia.
        f_equal. lia. }
      rewrite Hmod in H7, H8.
      split; [constructor; [reflexivity | assumption] |]. split; assumption.
Qed.

(** The number of slab uploads that the reader loop starts. *)
Lemma producer_loop_count size packing :
  0 < size →
  ∀ fuel cr slabIndex tasks,
    (length cr + 2 ≤ fuel)%nat →
    Z.of_nat (length (prod_tasks (producer_loop fuel size packing cr slabIndex None tasks)))
    = Z.of_nat (length tasks)
      + (if packing then Z.of_nat (length cr) / size
         else (Z.of_nat (length cr) + size - 1) / size).
Proof.
  intros Hsize. induction fuel as [| fuel IH]; intros cr slabIndex tasks Hfuel; [lia |].
  cbn [producer_loop]. rewrite (proj2 (Z.ltb_ge _ _)) by lia.
  destruct (decide (cr = [])) as [-> | Hne].
  - rewrite ReadFull_EOF by assumption. simpl.
    destruct packing; [rewrite Z.div_0_l by lia | rewrite Z.div_small by lia]; lia.
  - assert (0 < Z.of_nat (length cr)) as Hpos by (destruct cr; [contradiction | simpl; lia]).
    destruct (decide (Z.of_nat (length cr) < size)) as [Hshort | Hfull].
    + rewrite ReadFull_short by assumption. destruct packing.
      * destruct fuel as [| fuel']; [lia |].
        cbn [producer_loop]. rewrite (proj2 (Z.ltb_ge _ _)) by lia.
        rewrite ReadFull_EOF by assumption. cbn [prod_tasks].
        rewrite Z.div_small by lia. lia.
      * rewrite IH by (simpl; lia). rewrite length_app. simpl length.
        rewrite (Z.div_small (0 + size - 1)) by lia.
        rewrite <- (Z.div_unique_pos (Z.of_nat (length cr) + size - 1) size 1
                      (Z.of_nat (length cr) - 1)) by lia.
        lia.
    + rewrite ReadFull_full by lia.
      rewrite IH by (rewrite length_drop; lia).
      rewrite length_app, length_drop. simpl length.
      rewrite Nat2Z.inj_sub, Z2Nat.id by lia.
      destruct packing.
      * replace (Z.of_nat (length cr)) with (Z.of_nat (length cr) - size + 1 * size) at 2
          by lia.
        rewrite Z.div_add by lia. lia.
      * replace (Z.of_nat (length cr) + size - 1)
          with (Z.of_nat (length cr) - size + size - 1 + 1 * size) by lia.
        rewrite Z.div_add by lia. lia.
Qed.

(** [Upload] cuts the input into slabs without losing or reordering a byte.
    For a positive slab size and an input that ends, the reader loop ends by
    announcing exactly the number of slab uploads it has started; these carry
    the indices 0, 1, 2, ... in the order of the input; their payloads,
    followed by the partial slab, are the input; every buffer has the full
    slab size. With packing every slab that is uploaded is full and the rest
    of the input, if any, is the partial slab; without packing there is no
    partial slab, and the last slab is the only one that can be short. Below
    4 GiB the length recorded in a slab slice is the length of the payload. *)
Theorem Upload_cuts_input size packing cr fuel :
  0 < size →
  Z.of_nat (length cr) + 1 < 2 ^ 63 →
  (length cr + 2 ≤ fuel)%nat →
  let r := producer_loop fuel size packing cr 0 None [] in
  prod_end r = Announced (Z.of_nat (length (prod_tasks r)))
  ∧ (task_index <$> prod_tasks r) = (Z.of_nat <$> seq 0 (length (prod_tasks r)))
  ∧ concat (payload <$> prod_tasks r) ++ default [] (prod_partial r) = cr
  ∧ Forall (λ t, Z.of_nat (length (task_data t)) = size ∧ 0 < task_length t ≤ size)
      (prod_tasks r)
  ∧ (if packing
     then Forall (λ t, task_length t = size) (prod_tasks r)
          ∧ Z.of_nat (length (default [] (prod_partial r))) = Z.of_nat (length cr) mod size
          ∧ (prod_partial r = None ↔ Z.of_nat (length cr) mod size = 0)
     else prod_partial r = None)
  ∧ Z.of_nat (length (prod_tasks r))
    = (if packing then Z.of_nat (length cr) / size
       else (Z.of_nat (length cr) + size - 1) / size)
  ∧ (size < 2 ^ 32 →
     Forall (λ t, ∀ minShards shards,
               slice_Length (uploadSlab_slice minShards t shards)
               = Z.of_nat (length (payload t)))
       (prod_tasks r)).
Proof.
  intros Hsize Hlen Hfuel r.
  destruct (producer_loop_spec size packing Hsize fuel cr [] Hfuel ltac:(simpl; lia))
    as (more & H1 & H2 & H3 & H4 & H5 & H6).
  change (Z.of_nat (length (@nil slabTask))) with 0 in *. fold r in H1, H2, H4, H6.
  rewrite app_nil_l in H1, H2. rewrite H1.
  split; [assumption |]. split; [assumption |]. split; [assumption |].
  split; [assumption |]. split; [assumption |].
  split.
  { rewrite <- H1. unfold r.
    rewrite (producer_loop_count size packing Hsize fuel cr 0 [] Hfuel). simpl. lia. }
  intros H32. eapply Forall_impl; [exact H5 |].
  intros t [Ht1 Ht2] minShards shards. unfold uploadSlab_slice, payload. simpl.
  rewrite Z.mod_small by lia. rewrite length_take. lia.
Qed.

Lemma producer_loop_zero packing : ∀ fuel cr slabIndex tasks,
  let r := producer_loop fuel 0 packing cr slabIndex None tasks in
  prod_end r = StillReading
  ∧ prod_partial r = None
  ∧ ∃ more, prod_tasks r = tasks ++ more ∧ length more = fuel
      ∧ Forall (λ t, task_length t = 0 ∧ task_data t = []) more.
Proof.
  induction fuel as [| fuel IH]; intros cr slabIndex tasks r; unfold r.
  - simpl. repeat split. exists []. rewrite app_nil_r. repeat split. constructor.
  - cbn [producer_loop]. unfold ReadFull. simpl.
    match goal with
    | |- context [producer_loop fuel 0 packing cr ?i None ?tasks1] =>
        destruct (IH cr i tasks1) as (H1 & H2 & more & H3 & H4 & H5)
    end.
    split; [assumption |]. split; [assumption |].
    eexists (_ :: more). rewrite H3, <- app_assoc. split; [reflexivity |].
    split; [simpl; f_equal; assumption |].
    constructor; [split; reflexivity | assumption].
Qed.

(** With a slab size of zero, which is what [MinShards = 0] gives, the
    reader loop never finds the end of the input: every round starts the
    upload of an empty slab, and the number of slabs is never announced. *)
Theorem Upload_zero_size_never_ends fuel packing cr :
  let r := producer_loop fuel (slab_size 0) packing cr 0 None [] in
  prod_end r = StillReading
  ∧ length (prod_tasks r) = fuel
  ∧ Forall (λ t, task_length t = 0 ∧ task_data t = []) (prod_tasks r).
Proof.
  intros r. change (slab_size 0) with 0 in r.
  destruct (producer_loop_zero packing fuel cr 0 []) as (H1 & _ & more & H2 & H3 & H4).
  fold r in H1, H2. rewrite app_nil_l in H2. rewrite H2.
  repeat split; assumption.
Qed.

(** ** [MigrateShards]: merging the uploaded sectors into the slab *)

Section MigrateFacts.
Variable range_order : gmap N (list FileContractID) → list (N * list FileContractID).
Hypothesis range_order_entries :
  ∀ m hk fcids, (hk, fcids) ∈ range_order m ↔ m !! hk = Some fcids.

Lemma elem_of_knownContracts shard fcid :
  fcid ∈ knownContracts shard ↔ ∃ hk, has_contract (Contracts shard) hk fcid.
Proof.
  unfold knownContracts, has_contract. rewrite elem_of_union_list. split.
  - intros (X & HX & Hin). apply list_elem_of_fmap in HX as ([hk fcids] & -> & Hentry).
    apply elem_of_map_to_list in Hentry. simpl in Hin. apply elem_of_list_to_set in Hin.
    eauto.
  - intros (hk & fcids & Hl & Hin). exists (list_to_set fcids). split.
    + apply list_elem_of_fmap. exists (hk, fcids). split; [reflexivity |].
      apply elem_of_map_to_list. assumption.
    + apply elem_of_list_to_set. assumption.
Qed.

(** The inner loop appends the contracts that are not known, in order. *)
Lemma merge_contracts_closed known hk fcids : ∀ m,
  merge_contracts known m hk fcids
  = match filter (λ fcid, fcid ∉ known) fcids with
    | [] => m
    | new => <[hk := default [] (m !! hk) ++ new]> m
    end.
Proof.
  unfold merge_contracts. induction fcids as [| fcid fcids IH]; intros m; [reflexivity |].
  cbn [foldl]. rewrite filter_cons. destruct (decide (fcid ∈ known)) as [Hin | Hnin].
  - rewrite bool_decide_eq_true_2 by assumption. rewrite decide_False by tauto. apply IH.
  - rewrite bool_decide_eq_false_2 by assumption. rewrite decide_True by assumption.
    rewrite IH. rewrite lookup_insert_eq. simpl default.
    destruct (filter (λ fcid, fcid ∉ known) fcids) as [| f new]; [reflexivity |].
    rewrite insert_insert_eq, <- app_assoc. reflexivity.
Qed.

Lemma merge_contracts_has known m hk fcids hk' fcid :
  has_contract (merge_contracts known m hk fcids) hk' fcid
  ↔ has_contract m hk' fcid ∨ (hk' = hk ∧ fcid ∈ fcids ∧ fcid ∉ known).
Proof.
  rewrite merge_contracts_closed. unfold has_contract.
  destruct (filter (λ f, f ∉ known) fcids) as [| f new] eqn:Hnew.
  - split; [tauto |]. intros [H | (_ & Hin & Hnin)]; [assumption |].
    assert (fcid ∈ filter (λ f, f ∉ known) fcids) as Hf
      by (apply list_elem_of_filter; tauto).
    rewrite Hnew in Hf. apply elem_of_nil in Hf. contradiction.
  - rewrite <- Hnew. destruct (decide (hk' = hk)) as [-> | Hne].
    + rewrite lookup_insert_eq. split.
      * intros (l & Hl & Hin). injection Hl as <-. apply elem_of_app in Hin as [Hin | Hin].
        -- left. destruct (m !! hk) as [l0 |]; [eauto |]. apply elem_of_nil in Hin.
           contradiction.
        -- right. apply list_elem_of_filter in Hin. tauto.
      * intros [(l & Hl & Hin) | (_ & Hin & Hnin)].
        -- eexists. split; [reflexivity |]. rewrite Hl. simpl. apply elem_of_app. tauto.
        -- eexists. split; [reflexivity |]. apply elem_of_app. right.
           apply list_elem_of_filter. tauto.
    + rewrite lookup_insert_ne by congruence. split; [tauto |].
      intros [H | (Heq & _)]; [assumption | contradiction].
Qed.

Lemma merge_entries_has known (entries : list (N * list FileContractID)) : ∀ m hk fcid,
  has_contract (foldl (λ m entry, merge_contracts known m entry.1 entry.2) m entries) hk fcid
  ↔ has_contract m hk fcid
    ∨ ((fcid ∉ known) ∧ ∃ fcids, (hk, fcids) ∈ entries ∧ fcid ∈ fcids).
Proof.
  induction entries as [| [hk0 fcids0] entries IH]; intros m hk fcid; cbn [foldl].
  - split; [tauto |]. intros [H | (_ & fcids & Hin & _)]; [assumption |].
    apply elem_of_nil in Hin. contradiction.
  - rewrite IH, merge_contracts_has. cbn [fst snd]. split.
    + intros [[H | (-> & Hin & Hnin)] | (Hnin & fcids & Hin & Hf)].
      * tauto.
      * right. split; [assumption |]. exists fcids0. split; [apply elem_of_cons |]; tauto.
      * right. split; [assumption |]. exists fcids. split; [apply elem_of_cons |]; tauto.
    + intros [H | (Hnin & fcids & Hin & Hf)]; [tauto |].
      apply elem_of_cons in Hin as [Heq | Hin].
      * injection Heq as -> ->. tauto.
      * right. eauto.
Qed.

(** What [MigrateShards] makes of one shard: the latest host is the one of
    the upload, the root stays, and a contract is recorded under a host
    exactly when it was recorded there before or the upload has it under that
    host and the shard did not know it under any host. *)
Theorem merge_sector_contracts shard uploaded hk fcid :
  LatestHost (merge_sector range_order shard uploaded) = LatestHost uploaded
  ∧ Root (merge_sector range_order shard uploaded) = Root shard
  ∧ (has_contract (Contracts (merge_sector range_order shard uploaded)) hk fcid
     ↔ has_contract (Contracts shard) hk fcid
       ∨ (has_contract (Contracts uploaded) hk fcid
          ∧ ¬ ∃ hk', has_contract (Contracts shard) hk' fcid)).
Proof.
  split; [reflexivity |]. split; [reflexivity |].
  unfold merge_sector. cbn [Contracts]. rewrite merge_entries_has.
  rewrite elem_of_knownContracts. unfold has_contract at 3.
  split.
  - intros [H | (Hnin & fcids & Hin & Hf)]; [tauto |].
    right. split; [| assumption]. exists fcids. rewrite <- range_order_entries. tauto.
  - intros [H | ((fcids & Hl & Hf) & Hnin)]; [tauto |].
    right. split; [assumption |]. exists fcids. rewrite range_order_entries. tauto.
Qed.

Lemma MigrateShards_merge_from (uploaded : list Sector) (indices : list Z) :
  ∀ (shards : list Sector) (i : nat),
    NoDup indices →
    Forall (λ si, 0 ≤ si < Z.of_nat (length shards)) indices →
    (i + length indices ≤ length uploaded)%nat →
    ∃ shards',
      MigrateShards_merge range_order shards indices uploaded i = Some shards'
      ∧ length shards' = length shards
      ∧ (∀ k si shard up,
           indices !! k = Some si → shards !! Z.to_nat si = Some shard →
           uploaded !! (i + k)%nat = Some up →
           shards' !! Z.to_nat si = Some (merge_sector range_order shard up))
      ∧ (∀ j, Z.of_nat j ∉ indices → shards' !! j = shards !! j).
Proof.
  induction indices as [| si rest IH]; intros shards i Hnd Hrange Hlen.
  - exists shards. split; [reflexivity |]. split; [reflexivity |]. split.
    + intros k si shard up Hk. rewrite lookup_nil in Hk. discriminate.
    + intros j _. reflexivity.
  - apply NoDup_cons in Hnd as [Hsi Hnd]. apply Forall_cons in Hrange as [Hr Hrange].
    simpl length in Hlen. cbn [MigrateShards_merge].
    rewrite (proj2 (Z.ltb_ge _ _)) by lia.
    destruct (lookup_lt_is_Some_2 shards (Z.to_nat si) ltac:(lia)) as [shard Hshard].
    destruct (lookup_lt_is_Some_2 uploaded i ltac:(lia)) as [up Hup].
    rewrite Hshard, Hup. simpl.
    destruct (IH (<[Z.to_nat si := merge_sector range_order shard up]> shards) (S i))
      as (shards' & Hm & Hl & Hin & Hout).
    { assumption. }
    { rewrite length_insert. assumption. }
    { lia. }
    exists shards'. split; [assumption |]. rewrite length_insert in Hl.
    split; [assumption |]. split.
    + intros k si' shard' up' Hk Hs' Hu'. destruct k as [| k].
      * simpl in Hk. injection Hk as <-. rewrite Nat.add_0_r in Hu'.
        rewrite Hshard in Hs'. injection Hs' as <-. rewrite Hup in Hu'. injection Hu' as <-.
        rewrite Hout by (rewrite Z2Nat.id by lia; assumption).
        apply list_lookup_insert_eq. lia.
      * simpl in Hk. apply (Hin k si' shard' up').
        -- assumption.
        -- rewrite list_lookup_insert_ne; [assumption |].
           intros Heq. apply Hsi.
           assert (0 ≤ si') as Hpos.
           { rewrite Forall_forall in Hrange.
             apply (Hrange si'), (list_elem_of_lookup_2 _ _ _ Hk). }
           assert (si = si') as -> by lia.
           apply (list_elem_of_lookup_2 _ _ _ Hk).
        -- replace (S i + k)%nat with (i + S k)%nat by lia. assumption.
    + intros j Hj. rewrite Hout.
      * apply list_lookup_insert_ne. intros Heq. apply Hj. apply elem_of_cons. left. lia.
      * intros Hin'. apply Hj. apply elem_of_cons. right. assumption.
Qed.

(** The loop of [MigrateShards] runs through exactly when every shard index
    is an index of the slab and there is an uploaded sector for every
    position of [shardIndices]; otherwise it panics. *)
Theorem MigrateShards_merge_no_panic (uploaded : list Sector) (indices : list Z) :
  ∀ (shards : list Sector),
    is_Some (MigrateShards_merge range_order shards indices uploaded 0)
    ↔ Forall (λ si, 0 ≤ si < Z.of_nat (length shards)) indices
      ∧ (length indices ≤ length uploaded)%nat.
Proof.
  assert (∀ (shards : list Sector) (i : nat),
            is_Some (MigrateShards_merge range_order shards indices uploaded i)
            ↔ Forall (λ si, 0 ≤ si < Z.of_nat (length shards)) indices
              ∧ (indices = [] ∨ i + length indices ≤ length uploaded)%nat) as Hgen.
  { induction indices as [| si rest IH]; intros shards i; cbn [MigrateShards_merge].
    - split; [intros _; split; [constructor | tauto] | eauto].
    - destruct (si <? 0) eqn:Hneg.
      + apply Z.ltb_lt in Hneg. split; [intros [? ?]; discriminate |].
        intros [HF _]. apply Forall_cons in HF as [Hr _]. lia.
      + apply Z.ltb_ge in Hneg.
        destruct (shards !! Z.to_nat si) as [shard |] eqn:Hshard; simpl.
        * apply lookup_lt_Some in Hshard.
          destruct (uploaded !! i) as [up |] eqn:Hup; simpl.
          -- apply lookup_lt_Some in Hup. rewrite IH, length_insert. split.
             ++ intros [HF Hlen]. split; [constructor; [lia | assumption] |].
                right. simpl. destruct Hlen as [-> | Hlen]; simpl; lia.
             ++ intros [HF Hlen]. apply Forall_cons in HF as [_ HF]. split; [assumption |].
                destruct Hlen as [Hlen | Hlen]; [discriminate |]. simpl in Hlen.
                destruct rest; [left; reflexivity | right; simpl in *; lia].
          -- apply lookup_ge_None in Hup. split; [intros [? ?]; discriminate |].
             intros [_ [Hlen | Hlen]]; [discriminate | simpl in Hlen; lia].
        * apply lookup_ge_None in Hshard. split; [intros [? ?]; discriminate |].
          intros [HF _]. apply Forall_cons in HF as [Hr _]. lia. }
  intros shards. rewrite Hgen. simpl. split.
  - intros [HF [-> | Hlen]]; split; try assumption. simpl. lia.
  - intros [HF Hlen]. split; [assumption | right; assumption].
Qed.

(** When no shard index occurs twice, the loop of [MigrateShards] replaces
    the shard at [shardIndices[k]] by its merge with [uploaded[k]] and leaves
    every other shard of the slab as it was. *)
Theorem MigrateShards_merge_shards (shards uploaded : list Sector) (indices : list Z) :
  NoDup indices →
  Forall (λ si, 0 ≤ si < Z.of_nat (length shards)) indices →
  (length indices ≤ length uploaded)%nat →
  ∃ shards',
    MigrateShards_merge range_order shards indices uploaded 0 = Some shards'
    ∧ length shards' = length shards
    ∧ (∀ k si shard up,
         indices !! k = Some si → shards !! Z.to_nat si = Some shard →
         uploaded !! k = Some up →
         shards' !! Z.to_nat si = Some (merge_sector range_order shard up))
    ∧ (∀ j, Z.of_nat j ∉ indices → shards' !! j = shards !! j).
Proof.
  intros Hnd Hrange Hlen.
  apply (MigrateShards_merge_from uploaded indices shards 0 Hnd Hrange). simpl. assumption.
Qed.

End MigrateFacts.

(** ** The memory that a slab upload holds *)

Section Memory.
Context {DP : Type} `{!DataPointsAPI DP}.
Variable SectorRoot : list Byte.byte → Hash256.
Implicit Types (s : slabUpload DP) (st : sys DP).

Lemma receive_mem resp s done s' :
  receive resp s = Some (done, s') →
  (sl_numUploaded s' = sl_numUploaded s ∧ sl_mem s' = sl_mem s)
  ∨ (sl_numUploaded s' = u64 (sl_numUploaded s + 1) ∧ sl_mem s' = sl_mem s - SectorSize
     ∧ (0 < length (sl_shards s))%nat).
Proof.
  unfold receive.
  destruct (sl_sectors s !! req_sector (resp_req resp)) as [sector |]; simpl; [| discriminate].
  destruct (resp_err resp) as [e |].
  - intros H. injection H as <- <-. left. split; reflexivity.
  - destruct (isUploaded sector).
    + intros H. injection H as <- <-. left. split; reflexivity.
    + destruct (bool_decide (su_index sector < length (sl_shards s))%nat) eqn:Hidx;
        [| discriminate].
      apply bool_decide_eq_true in Hidx.
      intros H. injection H as <- <-. right. simpl. repeat split. lia.
Qed.

Lemma launch_mem now oreq s :
  sl_mem (l_slab (launch now oreq s)) = sl_mem s.
Proof.
  unfold launch. destruct oreq as [req |]; [| reflexivity].
  destruct (enqueue_candidate (sl_used s) req (sl_candidates s)) as [[req' c'] |];
    [| reflexivity].
  destruct (req_overdrive req'); reflexivity.
Qed.

Lemma launch_all_mem now requests : ∀ s pending s' pending',
  launch_all now requests s pending = inr (s', pending') → sl_mem s' = sl_mem s.
Proof.
  induction requests as [| req rest IH]; intros s pending s' pending' Hall; simpl in Hall.
  - injection Hall as <- <-. reflexivity.
  - destruct (l_err (launch now (Some req) s)); [discriminate |].
    apply IH in Hall. rewrite Hall. apply launch_mem.
Qed.

(** A slab upload gives back the memory of a sector with every sector it
    installs, and only then: in every state that [uploadShards] reaches, the
    grant still holds what it was given less one sector size for every
    uploaded sector. *)
Theorem memory_released now u shards (candidates : list (uploader DP)) mem maxOverdrive
    overdriveTimeout (st0 st : sys DP) (tr : list event) :
  uploadShards_start SectorRoot now u shards candidates mem maxOverdrive overdriveTimeout
  = inr st0 →
  run st0 tr = Some st →
  0 ≤ maxOverdrive →
  Z.of_nat (length shards) < 2 ^ 64 →
  sl_mem (sys_slab st) = mem - SectorSize * sl_numUploaded (sys_slab st)
  ∧ 0 ≤ sl_numUploaded (sys_slab st) ≤ Z.of_nat (length shards).
Proof.
  intros Hst Hrun Hk HN.
  assert (sl_mem (sys_slab st0) = mem) as Hmem0.
  { unfold uploadShards_start, newSlabUpload in Hst.
    destruct (prepare_sectors SectorRoot (up_lockPriority u) (up_id u) 0 shards)
      as [sectors requests].
    destruct (launch_all _ _ _ _) as [e | [s pending]] eqn:Hall; [discriminate |].
    injection Hst as <-. apply launch_all_mem in Hall. exact Hall. }
  apply start_state in Hst as (Hsh & _ & HU & Hk0 & HI & HI' & Hrl & Htm & Hh).
  assert (sl_maxOverdrive (sys_slab st) = maxOverdrive
          ∧ length (sl_shards (sys_slab st)) = length shards
          ∧ inflight_bounded st
          ∧ sl_mem (sys_slab st) = mem - SectorSize * sl_numUploaded (sys_slab st))
    as (_ & Hlen & (_ & HU' & _) & Hmem).
  { eapply (run_invariant
              (λ st, sl_maxOverdrive (sys_slab st) = maxOverdrive
                     ∧ length (sl_shards (sys_slab st)) = length shards
                     ∧ inflight_bounded st
                     ∧ sl_mem (sys_slab st)
                       = mem - SectorSize * sl_numUploaded (sys_slab st)));
      [| | eassumption].
    - intros st1 ev st2 (H1 & H2 & H3 & H4) Hex.
      destruct (exec_params _ _ _ Hex) as [H5 H6].
      split; [congruence |]. split; [congruence |]. split.
      { eapply exec_inflight_bounded; [| | eassumption | eassumption]; [lia |].
        rewrite H2. assumption. }
      destruct H3 as (_ & HU1 & Hnh & _).
      destruct (exec_cases _ _ _ Hex)
        as [(k & root & err & ->) | [(-> & _) | [(now' & req & -> & _ & ->)
           | [(now' & -> & _ & _ & ->) | [(order & -> & _ & ->)
           | (now' & oreq & -> & _ & ->)]]]]]; cbn [sys_slab]; try assumption.
      + apply exec_Respond in Hex
          as (req & sector & done & s' & Hh1 & _ & _ & _ & _ & Hrecv & ->).
        cbn [sys_slab]. apply receive_mem in Hrecv as [[-> ->] | (-> & -> & Hpos)];
          [assumption |].
        rewrite H4. rewrite H2 in *. specialize (Hnh Hh1).
        rewrite u64_small by lia. lia.
      + rewrite launch_mem.
        pose proof (launch_frame now' (Some req) (sys_slab st1)) as (_ & _ & -> & _).
        assumption.
      + rewrite launch_mem.
        pose proof (launch_frame now' oreq (sys_slab st1)) as (_ & _ & -> & _).
        assumption.
    - split; [assumption |]. split; [congruence |]. split.
      + unfold inflight_bounded, pending_launches. rewrite Hsh, HU, Hk0, Hrl, Htm, Hh.
        repeat split; lia.
      + rewrite Hmem0, HU. lia. }
  rewrite Hlen in HU'. split; assumption.
Qed.

End Memory.

(** ** An upload in which every host succeeds at once *)

Section AllSucceed.
Context {DP : Type} `{!DataPointsAPI DP}.
Variable SectorRoot : list Byte.byte → Hash256.
Implicit Types (s : slabUpload DP) (st : sys DP).

Lemma answered_in_order_step (P : list sectorUploadReq) sectors0 roots root st :
  (∀ i req, P !! i = Some req → req_sector req = i) →
  (∀ i, (i < length P)%nat →
     ∃ sector, sectors0 !! i = Some sector ∧ su_index sector = i ∧ isUploaded sector = false) →
  Z.of_nat (length P) < 2 ^ 64 →
  (length roots < length P)%nat →
  answered_in_order P sectors0 roots st →
  ∃ st', exec st (Respond 0 root None) = Some st'
    ∧ answered_in_order P sectors0 (roots ++ [root]) st'.
Proof.
  intros Hsec Hopen HN Hk (Hp & Hrl & Hh & Hsh & HU & HI & HL & Hdom & Hrest & Hdone).
  destruct (lookup_lt_is_Some_2 P (length roots) Hk) as [req Hreq].
  destruct (Hopen _ Hk) as (sector & Hs0 & Hidx & Hup).
  pose proof (Hsec _ _ Hreq) as Hrs.
  assert (sys_pending st !! 0%nat = Some req) as Hhead.
  { rewrite Hp, lookup_drop, Nat.add_0_r. assumption. }
  assert (sl_sectors (sys_slab st) !! req_sector req = Some sector) as Hs.
  { rewrite Hrs, Hrest by lia. assumption. }
  unfold exec. rewrite Hh, Hrl, Hhead.
  rewrite bool_decide_eq_false_2 by lia.
  replace (bool_decide (is_Some (@None sectorUploadReq))) with false by reflexivity.
  unfold inflight. rewrite HI. rewrite (proj2 (Z.eqb_neq _ _)) by lia.
  cbn [orb option_bind mbind option_ret]. unfold head_of_host. cbn [take forallb negb].
  cbn -[receive]. rewrite Hs. cbn -[receive].
  unfold receive. cbn [resp_req resp_err resp_root]. rewrite Hs. cbn [mbind option_bind].
  rewrite Hup, Hidx, Hsh. rewrite bool_decide_eq_true_2 by lia.
  cbn [mbind option_bind]. eexists. split; [reflexivity |].
  unfold answered_in_order.
  cbn [sys_slab sys_pending sys_relaunch sys_halted sl_shards sl_numUploaded sl_numInflight
       sl_numLaunched sl_sectors].
  rewrite length_app. simpl length. rewrite HU, HI.
  rewrite !u64_small by lia.
  split. { rewrite Hp. rewrite <- (drop_drop P 1 (length roots)).
           destruct (drop (length roots) P); reflexivity. }
  split. { rewrite andb_false_r. reflexivity. }
  split. { destruct (Z.eqb_spec (Z.of_nat (length roots) + 1) (Z.of_nat (length P))).
           - symmetry. apply bool_decide_eq_true_2. lia.
           - symmetry. apply bool_decide_eq_false_2. lia. }
  split. { rewrite length_insert. assumption. }
  split; [lia |]. split; [lia |]. split; [assumption |].
  split. { rewrite dom_insert_lookup_L by eauto. assumption. }
  split.
  - intros i Hi. rewrite Hrs, lookup_insert_ne by lia. apply Hrest. lia.
  - intros i root' req' Hroot Hreq'.
    destruct (decide (i = length roots)) as [-> | Hne].
    + rewrite lookup_app_r, Nat.sub_diag in Hroot by lia. injection Hroot as <-.
      rewrite Hreq in Hreq'. injection Hreq' as <-.
      exists sector. split; [assumption |]. rewrite Hrs, lookup_insert_eq.
      unfold installed. rewrite Hidx. reflexivity.
    + assert (i < length roots)%nat as Hlt.
      { apply lookup_lt_Some in Hroot. rewrite length_app in Hroot. simpl in Hroot. lia. }
      rewrite lookup_app_l in Hroot by assumption.
      destruct (Hdone i root' req' Hroot Hreq') as (sec & H1 & H2).
      exists sec. split; [assumption |]. rewrite Hrs, lookup_insert_ne by lia. assumption.
Qed.

Lemma answered_in_order_run (P : list sectorUploadReq) sectors0 :
  (∀ i req, P !! i = Some req → req_sector req = i) →
  (∀ i, (i < length P)%nat →
     ∃ sector, sectors0 !! i = Some sector ∧ su_index sector = i ∧ isUploaded sector = false) →
  Z.of_nat (length P) < 2 ^ 64 →
  ∀ more roots st,
    answered_in_order P sectors0 roots st →
    (length roots + length more ≤ length P)%nat →
    ∃ st', run st ((λ root, Respond 0 root None) <$> more) = Some st'
      ∧ answered_in_order P sectors0 (roots ++ more) st'.
Proof.
  intros Hsec Hopen HN. induction more as [| root more IH]; intros roots st Hst Hlen.
  - exists st. rewrite app_nil_r. split; [reflexivity | assumption].
  - simpl length in Hlen.
    destruct (answered_in_order_step P sectors0 roots root st Hsec Hopen HN ltac:(lia) Hst)
      as (st1 & Hex & Hst1).
    destruct (IH (roots ++ [root]) st1 Hst1) as (st' & Hrun & Hst').
    { rewrite length_app. simpl. lia. }
    exists st'. rewrite fmap_cons. cbn [run]. rewrite Hex. cbn [mbind option_bind].
    rewrite <- app_assoc in Hst'. split; assumption.
Qed.

(** When the candidates sit on pairwise distinct hosts, at least one per
    shard, and every host answers its first request with success, in order:
    the upload ends with no request in flight, and [finish] returns, for
    shard [i], the sector with the root that the [i]-th candidate reported,
    recorded under that candidate's host and contract. *)
Theorem uploadShards_all_succeed now u shards (candidates : list (uploader DP)) mem
    maxOverdrive overdriveTimeout (roots : list Hash256) :
  NoDup (u_hk <$> candidates) →
  (length shards ≤ length candidates)%nat →
  length roots = length shards →
  Z.of_nat (length shards) < 2 ^ 64 →
  ∃ st0 st,
    uploadShards_start SectorRoot now u shards candidates mem maxOverdrive overdriveTimeout
    = inr st0
    ∧ run st0 ((λ root, Respond 0 root None) <$> roots) = Some st
    ∧ sys_pending st = []
    ∧ sl_numInflight (sys_slab st) = 0
    ∧ sl_numUploaded (sys_slab st) = Z.of_nat (length shards)
    ∧ ((0 < length shards)%nat → sys_halted st = true)
    ∧ sl_numLaunched (sys_slab st) = Z.of_nat (length shards)
    ∧ overdrivePct (sys_slab st) = 0%float
    ∧ finish (sys_slab st)
      = Some (inr (zip_with (λ c root, mkSector {[u_hk c := [u_fcid c]]} (u_hk c) root)
                     candidates roots)).
Proof.
  intros Hnd Hlen Hroots HN.
  destruct (start_assignment SectorRoot now u shards candidates mem maxOverdrive
              overdriveTimeout Hnd Hlen HN) as (st0 & Hst & Hpend & _ & _ & HI & HL & HU & _).
  pose proof (start_state SectorRoot now u shards candidates mem maxOverdrive overdriveTimeout
                st0 Hst) as (Hsh & Hsecs & _ & _ & _ & _ & Hrl & _ & Hh).
  pose proof (prepare_sectors_spec SectorRoot (up_lockPriority u) (up_id u) 0 shards)
    as [Hdom Hidx].
  set (sectors0 := fst (prepare_sectors SectorRoot (up_lockPriority u) (up_id u) 0 shards))
    in *.
  remember (sys_pending st0) as P eqn:HeqP.
  assert (length P = length shards) as HlenP.
  { rewrite Hpend, length_zip_with, length_seq. lia. }
  assert (∀ i req, P !! i = Some req →
            ∃ c, candidates !! i = Some c
              ∧ req = mkReq (up_lockPriority u) false i (up_id u) (u_fcid c) (u_hk c))
    as HP.
  { intros i req Hreq. rewrite Hpend in Hreq.
    apply lookup_zip_with_Some in Hreq as (j & c & -> & Hj & Hc).
    apply lookup_seq in Hj as [-> _]. eauto. }
  assert (answered_in_order P sectors0 [] st0) as H0.
  { unfold answered_in_order. rewrite <- HeqP. simpl length.
    rewrite HlenP, Hsh, Hsecs, HU, HI, HL, Hrl, Hh.
    split; [reflexivity |]. split; [reflexivity |].
    split; [symmetry; apply bool_decide_eq_false_2; lia |].
    split; [reflexivity |]. split; [reflexivity |]. split; [lia |].
    split; [reflexivity |]. split; [reflexivity |].
    split; [reflexivity |]. intros i root req Hroot. rewrite lookup_nil in Hroot.
    discriminate. }
  destruct (answered_in_order_run P sectors0) with (more := roots) (roots := @nil Hash256)
    (st := st0) as (st & Hrun & Hfin).
  { intros i req Hreq. destruct (HP i req Hreq) as (c & _ & ->). reflexivity. }
  { intros i Hi. rewrite HlenP in Hi.
    assert (is_Some (sectors0 !! i)) as [sector Hsector].
    { apply elem_of_dom. rewrite Hdom. apply elem_of_set_seq. lia. }
    exists sector. split; [assumption |]. apply Hidx. assumption. }
  { rewrite HlenP. assumption. }
  { assumption. }
  { simpl. rewrite HlenP. lia. }
  rewrite app_nil_l in Hfin.
  destruct Hfin as (Hp' & _ & Hh' & Hsh' & HU' & HI' & HL' & Hdom' & _ & Hdone).
  rewrite HlenP, Hroots in *.
  exists st0, st. split; [assumption |]. split; [assumption |].
  split. { rewrite Hp', <- HlenP. apply drop_all. }
  split; [lia |]. split; [assumption |].
  split. { intros Hpos. rewrite Hh'. apply bool_decide_eq_true_2. lia. }
  split; [assumption |].
  split.
  { unfold overdrivePct. rewrite HL', <- size_dom, Hdom', Hdom, size_set_seq.
    assert (int64 (Z.of_nat (length shards)) ≤ Z.of_nat (length shards)) as Hle.
    { unfold int64. pose proof (Z.mod_pos_bound (Z.of_nat (length shards) + 2 ^ 63) (2 ^ 64)
                                  ltac:(lia)) as Hb.
      destruct (decide (Z.of_nat (length shards) < 2 ^ 63)) as [Hs | Hs].
      - rewrite Z.mod_small by lia. lia.
      - lia. }
    rewrite (proj2 (Z.leb_le _ _)) by lia. reflexivity. }
  unfold finish. rewrite HU', Hsh', u64_small by lia.
  rewrite (proj2 (Z.ltb_ge _ _)) by lia.
  match goal with
  | |- context [mapM ?f ?l] =>
      assert (mapM f l
              = Some (zip_with (λ c root, mkSector {[u_hk c := [u_fcid c]]} (u_hk c) root)
                        candidates roots)) as ->; [| reflexivity]
  end.
  apply mapM_Some. apply Forall2_same_length_lookup_2.
  - rewrite length_seq, length_zip_with. lia.
  - intros i j y Hj Hy. apply lookup_seq in Hj as [-> Hi]. simpl.
    apply lookup_zip_with_Some in Hy as (c & root & -> & Hc & Hroot).
    assert (P !! i = Some (mkReq (up_lockPriority u) false i (up_id u) (u_fcid c) (u_hk c)))
      as Hreq.
    { rewrite Hpend, lookup_zip_with, lookup_seq_lt by lia. simpl.
      rewrite Hc. reflexivity. }
    destruct (Hdone i root _ Hroot Hreq) as (sector & _ & ->). reflexivity.
Qed.

End AllSucceed.

(** ** The pool after a refresh *)

Section RefreshedPool.
Context {DP : Type} `{!DataPointsAPI DP}.

Lemma build_toKeep_dom (contracts : list ContractMetadata) :
  dom (build_toKeep contracts) = list_to_set (c_ID <$> contracts).
Proof.
  unfold build_toKeep.
  assert (∀ m : gmap N ContractMetadata,
            dom (foldl (λ m c, <[c_ID c := c]> m) m contracts)
            = list_to_set (c_ID <$> contracts) ∪ dom m) as Hgen.
  { induction contracts as [| c cs IH]; intros m; simpl; [set_solver |].
    rewrite IH, dom_insert_L. set_solver. }
  rewrite Hgen. set_solver.
Qed.

(** When no contract of the list renews another and the pool's uploaders
    have distinct contracts, a refresh leaves exactly one uploader for every
    contract of the list and none for any other contract, all at the new
    block height; the uploaders it starts are those of the contracts that
    had none. *)
Theorem refreshUploaders_pool_matches_contracts
    (now : Z) (is_done : sectorUploadReq → bool) (order : list N)
    (contracts : list ContractMetadata) (bh : Z) (mgr : uploadManager DP) :
  Forall (λ c, c_RenewedFrom c = zeroFCID) contracts →
  NoDup (u_fcid <$> mgr_uploaders mgr) →
  NoDup order →
  (∀ c, c ∈ contracts → c_ID c ∈ order) →
  let r := refreshUploaders now is_done order contracts bh mgr in
  NoDup (u_fcid <$> mgr_uploaders (fst r))
  ∧ (∀ a, a ∈ u_fcid <$> mgr_uploaders (fst r) ↔ a ∈ c_ID <$> contracts)
  ∧ Forall (λ u, u_bh u = bh) (mgr_uploaders (fst r))
  ∧ (∀ a, a ∈ u_fcid <$> eff_started (snd r)
          ↔ a ∈ c_ID <$> contracts ∧ a ∉ u_fcid <$> mgr_uploaders mgr).
Proof.
  intros Hren Hndp Hndo Hcover r. unfold r, refreshUploaders.
  rewrite (build_renewedTo_none _ Hren).
  assert (∀ k, is_Some (build_toKeep contracts !! k) ↔ k ∈ c_ID <$> contracts) as Hkeys.
  { intros k. rewrite <- elem_of_dom, build_toKeep_dom, elem_of_list_to_set. reflexivity. }
  assert (∀ k, k ∈ c_ID <$> contracts → k ∈ order) as Hcover'.
  { intros k Hk. apply list_elem_of_fmap in Hk as (c & -> & Hc). apply Hcover. assumption. }
  set (K := build_toKeep contracts) in *.
  destruct (refresh_loop now is_done bh ∅ (mgr_uploaders mgr) K [] [])
    as [[toKeep1 kept1] stopped1] eqn:H1.
  apply refresh_loop_first in H1 as (Ht & Hmem & Hnd & Hbh); [| assumption].
  cbn [fst snd mgr_uploaders set_uploaders eff_started].
  set (fresh1 := (λ c, newUploader c bh) <$> range_map order toKeep1).
  assert (∀ k, toKeep1 !! k
               = if decide (k ∈ u_fcid <$> mgr_uploaders mgr) then None else K !! k) as Hlk
    by (intros k; rewrite Ht; apply drop_keys_lookup).
  assert (∀ k c, toKeep1 !! k = Some c → c_ID c = k) as Hid.
  { intros k c. rewrite Hlk. destruct (decide _); [discriminate |]. apply build_toKeep_ID. }
  destruct (range_map_ids order toKeep1 Hid Hndo) as [Hfnd Hfmem].
  assert (u_fcid <$> fresh1 = c_ID <$> range_map order toKeep1) as Hff
    by apply fresh_fcids.
  assert (∀ a, a ∈ u_fcid <$> kept1 ↔ a ∈ u_fcid <$> mgr_uploaders mgr ∧ is_Some (K !! a))
    as Hkmem.
  { intros a. rewrite Hmem, fmap_nil, elem_of_nil. tauto. }
  assert (∀ a, a ∈ u_fcid <$> fresh1
               ↔ a ∈ c_ID <$> contracts ∧ a ∉ u_fcid <$> mgr_uploaders mgr) as Hfresh.
  { intros a. rewrite Hff, Hfmem, Hlk.
    destruct (decide (a ∈ u_fcid <$> mgr_uploaders mgr)) as [Hin | Hout].
    - split; [intros [_ [? ?]]; discriminate | tauto].
    - rewrite Hkeys. split; [tauto |]. intros [Ha _]. split; [apply Hcover' |]; assumption. }
  split; [| split; [| split]].
  - rewrite fmap_app. apply NoDup_app. split; [| split].
    + apply Hnd; [constructor |]. intros a Ha. apply elem_of_nil in Ha. contradiction.
    + intros a Ha. rewrite Hfresh. apply Hkmem in Ha as [Ha _]. tauto.
    + rewrite Hff. assumption.
  - intros a. rewrite fmap_app, elem_of_app, Hkmem, Hfresh, Hkeys.
    destruct (decide (a ∈ u_fcid <$> mgr_uploaders mgr)); tauto.
  - apply Forall_app. split; [apply Hbh; constructor |].
    apply Forall_forall. intros u Hu. unfold fresh1 in Hu.
    apply list_elem_of_fmap in Hu as (c & -> & _). reflexivity.
  - exact Hfresh.
Qed.

End RefreshedPool.

(** ** Scenarios *)

Lemma insert_back_Permutation {A : Type} (less : A → A → bool) (x : A) (l : list A) :
  insert_back less x l ≡ₚ x :: l.
Proof.
  induction l as [| y l IH]; simpl; [reflexivity |].
  destruct (less x y); [| reflexivity]. rewrite IH. apply Permutation_swap.
Qed.

Lemma insertionSort_Permutation {A : Type} (less : A → A → bool) (l : list A) :
  insertionSort less l ≡ₚ l.
Proof.
  unfold insertionSort. rewrite <- Permutation_rev.
  assert (∀ acc, foldl (λ sorted_rev x, insert_back less x sorted_rev) acc l ≡ₚ acc ++ l)
    as Hgen.
  { induction l as [| x l IH]; intros acc; simpl; [rewrite app_nil_r; reflexivity |].
    rewrite IH, insert_back_Permutation. apply Permutation_middle. }
  apply (Hgen []).
Qed.

(** Two shards on three hosts: shard 0 goes to host 1 and shard 1 to host 2. *)
Lemma uploadShards_start_assignment_two_of_three :
  ∃ st0,
    uploadShards_start constRoot 0 test_upload (replicate 2 []) (map test_uploader [1; 2; 3]%N)
      (2 * SectorSize) 3 1000
    = inr st0
    ∧ sys_pending st0 = [mkReq 1 false 0 9%N 101%N 1%N; mkReq 1 false 1 9%N 102%N 2%N].
Proof.
  destruct (uploadShards_start_assignment constRoot 0 test_upload (replicate 2 [])
              (map test_uploader [1; 2; 3]%N) (2 * SectorSize) 3 1000)
    as (st0 & Hst & Hp & _).
  - apply (bool_decide_unpack _). vm_compute. exact I.
  - simpl. lia.
  - simpl. lia.
  - exists st0. split; [exact Hst | exact Hp].
Defined.

(** The worker of host 1 serves its two requests in order. *)
Lemma Start_loop_serves_queue_two_requests :
  ∃ steps u',
    Start_loop never_closed 3 never_done never_done always_uploads 2000000 busy_uploader []
    = Some (steps, u')
    ∧ u_queue u' = []
    ∧ Forall2 (served never_done always_uploads 101%N) steps
        [mkReq 1 false 0 9%N 101%N 1%N; mkReq 1 false 1 9%N 101%N 1%N].
Proof.
  apply (Start_loop_serves_queue never_closed never_done never_done always_uploads 2000000 3
           busy_uploader).
  - lia.
  - repeat constructor; discriminate.
  - simpl. lia.
Defined.

(** Contract 2 renews contract 1 while a request waits in the queue: the
    sector goes to contract 2 and the response names contract 1. *)
Lemma Start_step_after_renew_contract_2 :
  ∃ u',
    Start_step never_closed never_done never_done always_uploads 2000000
      (renew renewal_contract 8 (enqueue (mkReq 1 false 0 9%N zeroFCID 0%N) old_uploader).2)
    = Some (Responded 2%N (mkResp (mkReq 1 false 0 9%N 1%N 50%N) 5%N None), u')
    ∧ u_fcid u' = 2%N.
Proof.
  destruct (Start_step_after_renew never_closed never_done never_done always_uploads 2000000
              (mkReq 1 false 0 9%N zeroFCID 0%N) renewal_contract 8 5%N old_uploader)
    as (u' & Hstep & _ & Hfcid & _).
  - reflexivity.
  - reflexivity.
  - reflexivity.
  - reflexivity.
  - lia.
  - exists u'. split; [exact Hstep | exact Hfcid].
Defined.

(** A failure followed by a success leaves the uploader healthy. *)
Lemma track_all_healthy_after_success :
  ∃ u', track_all [(Some "host error", 0); (None, 2000000)] (test_uploader 1) = Some u'
    ∧ healthy u' = true.
Proof.
  destruct (track_all_healthy [(Some "host error", 0); (None, 2000000)] (test_uploader 1))
    as (u' & Htrack & Hlast).
  - simpl. lia.
  - simpl. lia.
  - apply Forall_cons. split; [discriminate |].
    apply Forall_cons. split; [intros _; simpl; lia | constructor].
  - exists u'. split; [exact Htrack |]. apply Hlast; [discriminate |].
    exists 2000000. reflexivity.
Defined.

(** A recomputation at second 5 and a call at second 6. *)
Lemma tryRecomputeStats_rate_limit_one_second_later :
  u_lastRecompute (tryRecomputeStats 5000000000 (test_uploader 1)) = 5000000000
  ∧ tryRecomputeStats 6000000000 (tryRecomputeStats 5000000000 (test_uploader 1))
    = tryRecomputeStats 5000000000 (test_uploader 1).
Proof.
  apply (tryRecomputeStats_rate_limit 5000000000 6000000000 (test_uploader 1)).
  - vm_compute. discriminate.
  - vm_compute. split; [discriminate | reflexivity].
Defined.

(** Three healthy uploaders on three hosts. *)
Lemma Stats_counts_three_uploaders :
  healthyUploaders (Stats three_uploaders) = 3 ∧ numUploaders (Stats three_uploaders) = 3.
Proof.
  destruct (Stats_counts three_uploaders) as (H1 & H2 & _).
  - vm_compute. reflexivity.
  - split; [rewrite H1 | rewrite H2]; vm_compute; reflexivity.
Defined.

(** The first upload of a manager: three contracts, two shards. *)
Lemma newUpload_then_uploadShards_start_first_upload :
  ∃ up mgr' st0,
    fst (fst (newUpload 0 never_done [101; 102; 103]%N 9%N (Z.of_nat 2)
                (map test_contract [1; 2; 3]%N) 7 1 empty_manager))
    = inr up
    ∧ uploadShards_start constRoot 0 up (replicate 2 [])
        (candidates insertionSort (up_allowed up) mgr') (2 * SectorSize) 3 1000
      = inr st0
    ∧ sl_numInflight (sys_slab st0) = 2.
Proof.
  destruct (newUpload_then_uploadShards_start constRoot insertionSort
              (@insertionSort_Permutation _) 0 0 never_done [101; 102; 103]%N 9%N
              (map test_contract [1; 2; 3]%N) 7 1 empty_manager (replicate 2 [])
              (2 * SectorSize) 3 1000)
    as (up & mgr' & eff & st0 & Hnew & _ & _ & _ & _ & _ & Hst & HI & _).
  - reflexivity.
  - apply (bool_decide_unpack _). vm_compute. exact I.
  - apply (bool_decide_unpack _). vm_compute. exact I.
  - apply (bool_decide_unpack _). vm_compute. exact I.
  - apply Forall_forall. apply (bool_decide_unpack _). vm_compute. exact I.
  - simpl. lia.
  - simpl. lia.
  - exists up, mgr', st0. simpl length in Hnew. rewrite Hnew.
    split; [reflexivity |]. split; [exact Hst | exact HI].
Defined.

(** The run of [trace_retry] with [maxOverdrive = 0]. *)
Lemma no_overdrive_run_retry :
  let st := the_sys (test_run 2 [1; 2; 3]%N 0 trace_retry) in
  sl_numOverdriving (sys_slab st) = 0
  ∧ NoDup (req_hk <$> sys_pending st)
  ∧ sl_numInflight (sys_slab st) = Z.of_nat (length (sys_pending st))
  ∧ sys_redundant st = 0.
Proof.
  intros st.
  destruct (no_overdrive_run constRoot 0 test_upload (replicate 2 [])
              (map test_uploader [1; 2; 3]%N) (2 * SectorSize) 0 1000
              (the_sys (test_start 2 [1; 2; 3]%N 0)) st trace_retry)
    as (H1 & _ & _ & H4 & H5 & H6 & _).
  - vm_compute. reflexivity.
  - vm_compute. reflexivity.
  - right. reflexivity.
  - simpl. lia.
  - repeat split; assumption.
Defined.

(** Ten bytes in slabs of four with packing: two slabs and a partial slab of
    two bytes. *)
Lemma Upload_cuts_input_ten_bytes :
  let r := producer_loop 12 4 true ten_bytes 0 None [] in
  prod_end r = Announced (Z.of_nat (length (prod_tasks r)))
  ∧ concat (payload <$> prod_tasks r) ++ default [] (prod_partial r) = ten_bytes
  ∧ Z.of_nat (length (default [] (prod_partial r))) = Z.of_nat (length ten_bytes) mod 4.
Proof.
  intros r.
  destruct (Upload_cuts_input 4 true ten_bytes 12)
    as (H1 & _ & H3 & _ & (_ & H5 & _) & _ & _).
  - lia.
  - simpl. lia.
  - simpl. lia.
  - repeat split; assumption.
Defined.

(** Shard 2 of the slab, merged with a sector at host 4 on contract 104: the
    new contract is recorded under host 4. *)
Lemma merge_sector_contracts_new_host :
  has_contract
    (Contracts (merge_sector map_to_list (mkSector {[3%N := [103%N]]} 3%N 73%N)
                  (mkSector {[4%N := [104%N]]} 4%N 73%N)))
    4%N 104%N.
Proof.
  apply (merge_sector_contracts map_to_list
           (λ m hk fcids, elem_of_map_to_list m hk fcids)
           (mkSector {[3%N := [103%N]]} 3%N 73%N) (mkSector {[4%N := [104%N]]} 4%N 73%N)
           4%N 104%N).
  right. split.
  - exists [104%N]. split; [reflexivity |]. apply list_elem_of_singleton. reflexivity.
  - intros (hk' & fcids & Hl & Hin). simpl in Hl.
    apply lookup_singleton_Some in Hl as [_ <-].
    apply list_elem_of_singleton in Hin. discriminate.
Defined.

(** The migration of the shards 2 and 0 of a slab of three. *)
Lemma MigrateShards_merge_shards_two_of_three :
  ∃ shards',
    MigrateShards_merge map_to_list slab_shards [2; 0] migrated_sectors 0 = Some shards'
    ∧ length shards' = length slab_shards.
Proof.
  destruct (MigrateShards_merge_shards map_to_list slab_shards migrated_sectors [2; 0])
    as (shards' & Hm & Hl & _).
  - apply (bool_decide_unpack _). vm_compute. exact I.
  - repeat constructor; simpl; lia.
  - simpl. lia.
  - exists shards'. split; assumption.
Defined.

(** Two shards, both uploaded at the first attempt: nothing of the grant is
    left. *)
Lemma memory_released_happy :
  let st := the_sys (test_run 2 [1; 2; 3]%N 3 trace_happy) in
  sl_mem (sys_slab st) = 2 * SectorSize - SectorSize * sl_numUploaded (sys_slab st)
  ∧ 0 ≤ sl_numUploaded (sys_slab st) ≤ Z.of_nat (length (replicate 2 (@nil Byte.byte))).
Proof.
  intros st.
  apply (memory_released constRoot 0 test_upload (replicate 2 [])
           (map test_uploader [1; 2; 3]%N) (2 * SectorSize) 3 1000
           (the_sys (test_start 2 [1; 2; 3]%N 3)) st trace_happy).
  - vm_compute. reflexivity.
  - vm_compute. reflexivity.
  - lia.
  - simpl. lia.
Defined.

(** Two shards on three hosts; the hosts 1 and 2 report the roots 11 and 12. *)
Lemma uploadShards_all_succeed_two_shards :
  ∃ st0 st,
    uploadShards_start constRoot 0 test_upload (replicate 2 []) (map test_uploader [1; 2; 3]%N)
      (2 * SectorSize) 3 1000
    = inr st0
    ∧ run st0 [Respond 0 11%N None; Respond 0 12%N None] = Some st
    ∧ finish (sys_slab st)
      = Some (inr [mkSector {[1%N := [101%N]]} 1%N 11%N;
                   mkSector {[2%N := [102%N]]} 2%N 12%N]).
Proof.
  destruct (uploadShards_all_succeed constRoot 0 test_upload (replicate 2 [])
              (map test_uploader [1; 2; 3]%N) (2 * SectorSize) 3 1000 [11; 12]%N)
    as (st0 & st & H1 & H2 & _ & _ & _ & _ & _ & _ & H9).
  - apply (bool_decide_unpack _). vm_compute. exact I.
  - simpl. lia.
  - reflexivity.
  - simpl. lia.
  - exists st0, st. split; [exact H1 |]. split; [exact H2 | exact H9].
Defined.

(** A pool with the uploader of contract 1, refreshed with the contracts 1
    and 102. *)
Lemma refreshUploaders_pool_matches_contracts_two :
  let contracts := [mkContract 1%N 50%N "host" 1000 zeroFCID; test_contract 2] in
  let r := refreshUploaders 0 never_done [102; 1]%N contracts 8 pool_before_renewal in
  NoDup (u_fcid <$> mgr_uploaders (fst r))
  ∧ (∀ a, a ∈ u_fcid <$> mgr_uploaders (fst r) ↔ a ∈ c_ID <$> contracts).
Proof.
  intros contracts r.
  destruct (refreshUploaders_pool_matches_contracts 0 never_done [102; 1]%N contracts 8
              pool_before_renewal) as (H1 & H2 & _).
  - repeat constructor.
  - apply (bool_decide_unpack _). vm_compute. exact I.
  - apply (bool_decide_unpack _). vm_compute. exact I.
  - apply Forall_forall. apply (bool_decide_unpack _). vm_compute. exact I.
  - split; assumption.
Defined.

(** ** The host errors of a slab upload *)

Section HostErrors.
Context {DP : Type} `{!DataPointsAPI DP}.
Variable SectorRoot : list Byte.byte → Hash256.
Implicit Types (s : slabUpload DP) (st : sys DP).

Lemma receive_errs resp s done s' :
  receive resp s = Some (done, s') →
  sl_errs s'
  = match resp_err resp with
    | Some e => <[req_hk (resp_req resp) := e]> (sl_errs s)
    | None => sl_errs s
    end.
Proof.
  unfold receive.
  destruct (sl_sectors s !! req_sector (resp_req resp)) as [sector |]; simpl; [| discriminate].
  destruct (resp_err resp) as [e |].
  - intros H. injection H as <- <-. reflexivity.
  - destruct (isUploaded sector).
    + intros H. injection H as <- <-. reflexivity.
    + destruct (bool_decide (su_index sector < length (sl_shards s))%nat); [| discriminate].
      intros H. injection H as <- <-. reflexivity.
Qed.

Lemma launch_all_errs now requests : ∀ s pending s' pending',
  launch_all now requests s pending = inr (s', pending') → sl_errs s' = sl_errs s.
Proof.
  induction requests as [| req rest IH]; intros s pending s' pending' Hall; simpl in Hall.
  - injection Hall as <- <-. reflexivity.
  - destruct (l_err (launch now (Some req) s)); [discriminate |].
    apply IH in Hall. rewrite Hall.
    pose proof (launch_frame now (Some req) s) as (_ & _ & _ & _ & _ & He & _). exact He.
Qed.

(** The error set of a slab upload has an entry exactly when a response has
    failed, and never more entries than failed responses: an error is
    recorded under the host of every failed response, and under no other
    circumstance. *)
Theorem host_errors_recorded now u shards (candidates : list (uploader DP)) mem maxOverdrive
    overdriveTimeout (st0 st : sys DP) (tr : list event) :
  uploadShards_start SectorRoot now u shards candidates mem maxOverdrive overdriveTimeout
  = inr st0 →
  run st0 tr = Some st →
  (sys_failed st = 0 ↔ sl_errs (sys_slab st) = ∅)
  ∧ Z.of_nat (size (sl_errs (sys_slab st))) ≤ sys_failed st
  ∧ (∀ k root e st',
       exec st (Respond k root (Some e)) = Some st' →
       ∃ req, sys_pending st !! k = Some req
         ∧ sl_errs (sys_slab st') !! req_hk req = Some e).
Proof.
  intros Hst Hrun.
  assert (sl_errs (sys_slab st0) = ∅ ∧ sys_failed st0 = 0) as [He0 Hf0].
  { unfold uploadShards_start, newSlabUpload in Hst.
    destruct (prepare_sectors SectorRoot (up_lockPriority u) (up_id u) 0 shards)
      as [sectors requests].
    destruct (launch_all _ _ _ _) as [e | [s pending]] eqn:Hall; [discriminate |].
    injection Hst as <-. apply launch_all_errs in Hall. split; [exact Hall | reflexivity]. }
  assert ((sys_failed st = 0 ↔ sl_errs (sys_slab st) = ∅)
          ∧ Z.of_nat (size (sl_errs (sys_slab st))) ≤ sys_failed st) as [Hiff Hle].
  { eapply (run_invariant
              (λ st, (sys_failed st = 0 ↔ sl_errs (sys_slab st) = ∅)
                     ∧ Z.of_nat (size (sl_errs (sys_slab st))) ≤ sys_failed st));
      [| | eassumption].
    - intros st1 ev st2 [H1 H2] Hex.
      destruct (exec_cases _ _ _ Hex)
        as [(k & root & err & ->) | [(-> & _ & _ & _ & -> & _) | [(now' & req & -> & _ & ->)
           | [(now' & -> & _ & _ & ->) | [(order & -> & _ & ->)
           | (now' & oreq & -> & _ & ->)]]]]]; cbn [sys_slab sys_failed];
        try (split; assumption).
      + apply exec_Respond in Hex
          as (req & sector & done & s' & _ & _ & _ & _ & _ & Hrecv & ->).
        cbn [sys_slab sys_failed]. apply receive_errs in Hrecv. cbn [resp_err resp_req] in Hrecv.
        rewrite Hrecv. destruct err as [e |].
        * split.
          -- split; [lia |]. intros Hempty.
             apply (f_equal (λ m : gmap N string, m !! req_hk req)) in Hempty.
             rewrite lookup_insert_eq, lookup_empty in Hempty. discriminate.
          -- rewrite map_size_insert. destruct (sl_errs (sys_slab st1) !! req_hk req); simpl; lia.
        * rewrite Z.add_0_r. split; assumption.
      + pose proof (launch_frame now' (Some req) (sys_slab st1)) as (_ & _ & _ & _ & _ & -> & _).
        split; assumption.
      + pose proof (launch_frame now' oreq (sys_slab st1)) as (_ & _ & _ & _ & _ & -> & _).
        split; assumption.
    - rewrite He0, Hf0, map_size_empty. split; [tauto | simpl; lia]. }
  split; [assumption |]. split; [assumption |].
  intros k root e st' Hex.
  apply exec_Respond in Hex as (req & sector & done & s' & _ & _ & _ & Hk & _ & Hrecv & ->).
  exists req. split; [assumption |]. cbn [sys_slab].
  apply receive_errs in Hrecv. cbn [resp_err resp_req] in Hrecv.
  rewrite Hrecv. apply lookup_insert_eq.
Qed.

End HostErrors.

(** The run of [trace_retry]: one response failed and host 1 has an entry. *)
Lemma host_errors_recorded_retry :
  let st := the_sys (test_run 2 [1; 2; 3]%N 0 trace_retry) in
  (sys_failed st = 0 ↔ sl_errs (sys_slab st) = ∅)
  ∧ Z.of_nat (size (sl_errs (sys_slab st))) ≤ sys_failed st.
Proof.
  intros st.
  destruct (host_errors_recorded constRoot 0 test_upload (replicate 2 [])
              (map test_uploader [1; 2; 3]%N) (2 * SectorSize) 0 1000
              (the_sys (test_start 2 [1; 2; 3]%N 0)) st trace_retry) as (H1 & H2 & _).
  - vm_compute. reflexivity.
  - vm_compute. reflexivity.
  - split; assumption.
Defined.
